(** * Texas Hold'em room server: the store and the game manager

    A shallow embedding of the server core of the repository:
    - [MemStorage] (server/storage.ts): the in-memory registry of rooms
      and players;
    - [PokerGameManager] (server/poker-game.ts): room life cycle, dealing
      and the betting actions.

    Modelling choices.
    - JavaScript numbers holding chip amounts and counts are integers
      ([Z]); the schema declares all of them as [integer] columns.  The
      gateway, however, lets any [number] through as a bet amount, and on
      amounts that are not integers the arithmetic of the betting code
      rounds.  What depends on that is stated over module [Doubles], which
      embeds the same betting code on binary64 values.
    - [randomUUID()] is a counter kept next to the maps: every call
      returns a value that was never returned before.
    - [Math.random()] is an input: the code drawn by [generateRoomCode]
      is taken from a list of draws, the index drawn by the shuffle from
      a function of the loop index.
    - The [Map]s of [MemStorage] hold object references.  A [Room] or
      [Player] obtained from the store is an alias of the stored object,
      so a field read that follows a store mutation sees the mutated
      value.  Such reads are written [derefPlayer] / [derefRoom].
    - [rooms] is scanned in insertion order by [getRoomByCode], so it is
      an insertion-ordered association list; the other three maps are
      only read by key and are [gmap]s.
    - [JSON.stringify]-ed card lists are kept as typed lists.
    - Every storage call runs in the monad [M], which threads the store
      and collects the bets and deals that were applied. *)

From stdpp Require Import gmap strings list fin_maps.
From Stdlib Require Import ZArith Lia Floats.

Open Scope string_scope.
Open Scope list_scope.
Open Scope Z_scope.

(** ** Data model (shared/schema.ts) *)

Definition uuid := nat.

Inductive Suit := spades | hearts | diamonds | clubs.

Inductive CardValue :=
  vA | v2 | v3 | v4 | v5 | v6 | v7 | v8 | v9 | v10 | vJ | vQ | vK.

(** [id] is the text [value-suit-uuid]; it is determined by the three
    components, of which the record keeps the uuid. *)
Record Card := mkCard {
  suit : Suit;
  value : CardValue;
  card_uuid : uuid
}.

Inductive GamePhase := waiting | playing | finished.

Inductive Round := pre_flop | flop | turn | river | showdown.

(** A row of [rooms].  [createdAt] plays no role and is left out. *)
Record Room := mkRoom {
  r_id : uuid;
  r_code : string;
  r_hostId : string;
  r_maxPlayers : Z;
  r_currentPlayers : Z;
  r_gameState : GamePhase;
  r_pot : Z;
  r_currentBet : Z;
  r_round : Round;
  r_deck : option (list Card);
  r_communityCards : option (list Card)
}.

(** A row of [players].  [joinedAt] is left out. *)
Record Player := mkPlayer {
  p_id : uuid;
  p_roomId : uuid;
  p_socketId : string;
  p_name : string;
  p_chips : Z;
  p_hand : option (list Card);
  p_isConnected : bool;
  p_isReady : bool;
  p_hasActed : bool;
  p_currentBet : Z;
  p_position : option Z;
  p_isFolded : bool
}.

(** The wire-facing projection of a player. *)
Record PlayerState := mkPlayerState {
  ps_id : uuid;
  ps_name : string;
  ps_chips : Z;
  ps_hand : list Card;
  ps_currentBet : Z;
  ps_isConnected : bool;
  ps_isReady : bool;
  ps_hasActed : bool;
  ps_isFolded : bool;
  ps_position : Z
}.

(** Field assignments [obj.f = v]. *)
Definition room_with_currentPlayers (r : Room) (v : Z) : Room :=
  mkRoom (r_id r) (r_code r) (r_hostId r) (r_maxPlayers r) v (r_gameState r)
         (r_pot r) (r_currentBet r) (r_round r) (r_deck r) (r_communityCards r).

Definition room_with_currentBet (r : Room) (v : Z) : Room :=
  mkRoom (r_id r) (r_code r) (r_hostId r) (r_maxPlayers r) (r_currentPlayers r)
         (r_gameState r) (r_pot r) v (r_round r) (r_deck r) (r_communityCards r).

Definition room_with_pot (r : Room) (v : Z) : Room :=
  mkRoom (r_id r) (r_code r) (r_hostId r) (r_maxPlayers r) (r_currentPlayers r)
         (r_gameState r) v (r_currentBet r) (r_round r) (r_deck r)
         (r_communityCards r).

Definition player_with_isConnected (p : Player) (v : bool) : Player :=
  mkPlayer (p_id p) (p_roomId p) (p_socketId p) (p_name p) (p_chips p) (p_hand p)
           v (p_isReady p) (p_hasActed p) (p_currentBet p) (p_position p)
           (p_isFolded p).

Definition player_with_isReady (p : Player) (v : bool) : Player :=
  mkPlayer (p_id p) (p_roomId p) (p_socketId p) (p_name p) (p_chips p) (p_hand p)
           (p_isConnected p) v (p_hasActed p) (p_currentBet p) (p_position p)
           (p_isFolded p).

Definition player_with_hasActed (p : Player) (v : bool) : Player :=
  mkPlayer (p_id p) (p_roomId p) (p_socketId p) (p_name p) (p_chips p) (p_hand p)
           (p_isConnected p) (p_isReady p) v (p_currentBet p) (p_position p)
           (p_isFolded p).

Definition player_with_isFolded (p : Player) (v : bool) : Player :=
  mkPlayer (p_id p) (p_roomId p) (p_socketId p) (p_name p) (p_chips p) (p_hand p)
           (p_isConnected p) (p_isReady p) (p_hasActed p) (p_currentBet p)
           (p_position p) v.

Definition player_with_hand (p : Player) (v : option (list Card)) : Player :=
  mkPlayer (p_id p) (p_roomId p) (p_socketId p) (p_name p) (p_chips p) v
           (p_isConnected p) (p_isReady p) (p_hasActed p) (p_currentBet p)
           (p_position p) (p_isFolded p).

(** [player.currentBet += d; player.chips -= d], on an integer [d];
    [Doubles.updatePlayerBet] is the same update on binary64 values. *)
Definition player_add_bet (p : Player) (d : Z) : Player :=
  mkPlayer (p_id p) (p_roomId p) (p_socketId p) (p_name p) (p_chips p - d)
           (p_hand p) (p_isConnected p) (p_isReady p) (p_hasActed p)
           (p_currentBet p + d) (p_position p) (p_isFolded p).

(** The [updates] argument of [updateRoomGameState]: absent fields are
    left as they are by [Object.assign]. *)
Record RoomUpdates := mkRoomUpdates {
  u_gameState : option GamePhase;
  u_round : option Round;
  u_pot : option Z;
  u_currentBet : option Z;
  u_deck : option (list Card);
  u_communityCards : option (list Card)
}.

Definition room_assign (r : Room) (u : RoomUpdates) : Room :=
  mkRoom (r_id r) (r_code r) (r_hostId r) (r_maxPlayers r) (r_currentPlayers r)
         (default (r_gameState r) (u_gameState u))
         (default (r_pot r) (u_pot u))
         (default (r_currentBet r) (u_currentBet u))
         (default (r_round r) (u_round u))
         (match u_deck u with Some d => Some d | None => r_deck r end)
         (match u_communityCards u with
          | Some c => Some c
          | None => r_communityCards r
          end).

(** ** The store *)

(** A JavaScript [Map] in insertion order: [set] on a present key keeps
    its place, [set] on a new key appends. *)
Fixpoint rooms_get (m : list (uuid * Room)) (k : uuid) : option Room :=
  match m with
  | [] => None
  | (k', r) :: m' => if decide (k' = k) then Some r else rooms_get m' k
  end.

Fixpoint rooms_set (m : list (uuid * Room)) (k : uuid) (r : Room)
  : list (uuid * Room) :=
  match m with
  | [] => [(k, r)]
  | (k', r') :: m' =>
      if decide (k' = k) then (k, r) :: m' else (k', r') :: rooms_set m' k r
  end.

Fixpoint rooms_delete (m : list (uuid * Room)) (k : uuid)
  : list (uuid * Room) :=
  match m with
  | [] => []
  | (k', r') :: m' =>
      if decide (k' = k) then m' else (k', r') :: rooms_delete m' k
  end.

(** [Array.from(rooms.values()).find(room => room.code === code)] *)
Fixpoint rooms_find_code (m : list (uuid * Room)) (c : string) : option Room :=
  match m with
  | [] => None
  | (_, r) :: m' => if String.eqb (r_code r) c then Some r else rooms_find_code m' c
  end.

Record Store := mkStore {
  rooms : list (uuid * Room);
  players : gmap uuid Player;
  playersBySocket : gmap string uuid;
  playersByRoom : gmap uuid (list uuid);
  nextUuid : uuid
}.

Definition emptyStore : Store := mkStore [] ∅ ∅ ∅ 0%nat.

Definition store_with_rooms (s : Store) (v : list (uuid * Room)) : Store :=
  mkStore v (players s) (playersBySocket s) (playersByRoom s) (nextUuid s).

Definition store_with_players (s : Store) (v : gmap uuid Player) : Store :=
  mkStore (rooms s) v (playersBySocket s) (playersByRoom s) (nextUuid s).

Definition store_with_playersBySocket (s : Store) (v : gmap string uuid) : Store :=
  mkStore (rooms s) (players s) v (playersByRoom s) (nextUuid s).

Definition store_with_playersByRoom (s : Store) (v : gmap uuid (list uuid)) : Store :=
  mkStore (rooms s) (players s) (playersBySocket s) v (nextUuid s).

(** ** The monad of storage calls *)

(** What the betting ledger records: an [updatePlayerBet] that reached
    both the player and the room, and a deal that went through. *)
Inductive Event :=
| EvBet (playerId roomId : uuid) (delta : Z)
| EvDeal (roomId : uuid).

Definition M (A : Type) : Type := Store -> A * Store * list Event.

Definition ret {A} (a : A) : M A := fun s => (a, s, []).

Definition bind {A B} (m : M A) (k : A -> M B) : M B :=
  fun s =>
    let '(a, s1, e1) := m s in
    let '(b, s2, e2) := k a s1 in
    (b, s2, e1 ++ e2).

Notation "'let!' x ':=' m 'in' k" := (bind m (fun x => k))
  (at level 10, x name, m at level 100, k at level 200).
Notation "m ';;' k" := (bind m (fun _ => k))
  (at level 100, k at level 200, right associativity).

Definition gets {A} (f : Store -> A) : M A := fun s => (f s, s, []).
Definition modify (f : Store -> Store) : M unit := fun s => (tt, f s, []).
Definition emit (e : Event) : M unit := fun s => (tt, s, [e]).

(** [randomUUID()] *)
Definition randomUUID : M uuid :=
  fun s => (nextUuid s,
            mkStore (rooms s) (players s) (playersBySocket s) (playersByRoom s)
                    (S (nextUuid s)),
            []).

(** Reads through an alias of a stored object: the object now held by
    the map under the alias's id, or the alias itself once the map has
    dropped it. *)
Definition derefPlayer (p : Player) : M Player :=
  gets (fun s => default p (players s !! p_id p)).

Definition derefRoom (r : Room) : M Room :=
  gets (fun s => default r (rooms_get (rooms s) (r_id r))).

Inductive Result (A : Type) :=
| Ok (a : A)
| Err (error : string).
Arguments Ok {A} a.
Arguments Err {A} error.

(** ** MemStorage (server/storage.ts) *)

Module MemStorage.

(** The pattern shared by the single-field setters:
    [const player = this.players.get(id); if (player) { ...; set }]. *)
Definition updatePlayer (id : uuid) (f : Player -> Player) : M unit :=
  modify (fun s =>
    match players s !! id with
    | Some player => store_with_players s (<[id := f player]> (players s))
    | None => s
    end).

Definition updateRoom (id : uuid) (f : Room -> Room) : M unit :=
  modify (fun s =>
    match rooms_get (rooms s) id with
    | Some room => store_with_rooms s (rooms_set (rooms s) id (f room))
    | None => s
    end).

Definition getRoomById (id : uuid) : M (option Room) :=
  gets (fun s => rooms_get (rooms s) id).

Definition getRoomByCode (code : string) : M (option Room) :=
  gets (fun s => rooms_find_code (rooms s) code).

Definition createRoom (code hostId : string) (maxPlayers : Z) : M Room :=
  let! id := randomUUID in
  let room := mkRoom id code hostId maxPlayers 0 waiting 0 0 pre_flop None None in
  modify (fun s => store_with_rooms s (rooms_set (rooms s) id room)) ;;
  modify (fun s => store_with_playersByRoom s (<[id := []]> (playersByRoom s))) ;;
  ret room.

Definition deleteRoom (id : uuid) : M unit :=
  modify (fun s => store_with_rooms s (rooms_delete (rooms s) id)) ;;
  modify (fun s => store_with_playersByRoom s (delete id (playersByRoom s))).

Definition updateRoomPlayerCount (id : uuid) (count : Z) : M unit :=
  updateRoom id (fun room => room_with_currentPlayers room count).

Definition updateRoomGameState (id : uuid) (updates : RoomUpdates) : M unit :=
  updateRoom id (fun room => room_assign room updates).

Definition updateRoomCurrentBet (id : uuid) (bet : Z) : M unit :=
  updateRoom id (fun room => room_with_currentBet room bet).

Definition getPlayerById (id : uuid) : M (option Player) :=
  gets (fun s => players s !! id).

Definition getPlayerBySocketId (socketId : string) : M (option Player) :=
  gets (fun s =>
    match playersBySocket s !! socketId with
    | Some playerId => players s !! playerId
    | None => None
    end).

(** [playerIds.map(id => this.players.get(id)).filter(Boolean)] *)
Definition getPlayersByRoomId (roomId : uuid) : M (list Player) :=
  gets (fun s =>
    omap (fun id => players s !! id) (default [] (playersByRoom s !! roomId))).

Definition createPlayer (roomId : uuid) (socketId name : string) (chips : Z)
  : M Player :=
  let! id := randomUUID in
  let player :=
    mkPlayer id roomId socketId name chips None true false false 0 None false in
  modify (fun s => store_with_players s (<[id := player]> (players s))) ;;
  modify (fun s =>
    store_with_playersBySocket s (<[socketId := id]> (playersBySocket s))) ;;
  modify (fun s =>
    let roomPlayers := default [] (playersByRoom s !! roomId) in
    store_with_playersByRoom s
      (<[roomId := roomPlayers ++ [id]]> (playersByRoom s))) ;;
  ret player.

Definition removePlayer (id : uuid) : M unit :=
  modify (fun s =>
    match players s !! id with
    | Some player =>
        let s1 :=
          store_with_playersBySocket s
            (delete (p_socketId player) (playersBySocket s)) in
        let roomPlayers := default [] (playersByRoom s1 !! p_roomId player) in
        let updatedPlayers := filter (fun pid => pid <> id) roomPlayers in
        let s2 :=
          store_with_playersByRoom s1
            (<[p_roomId player := updatedPlayers]> (playersByRoom s1)) in
        store_with_players s2 (delete id (players s2))
    | None => s
    end).

(** The two setters keyed by socket id. *)
Definition updatePlayerBySocket (socketId : string) (f : Player -> Player)
  : M unit :=
  fun s =>
    match playersBySocket s !! socketId with
    | Some playerId => updatePlayer playerId f s
    | None => (tt, s, [])
    end.

Definition setPlayerConnected (socketId : string) (connected : bool) : M unit :=
  updatePlayerBySocket socketId (fun p => player_with_isConnected p connected).

Definition setPlayerReady (socketId : string) (ready : bool) : M unit :=
  updatePlayerBySocket socketId (fun p => player_with_isReady p ready).

Definition setPlayerHasActed (id : uuid) (hasActed : bool) : M unit :=
  updatePlayer id (fun p => player_with_hasActed p hasActed).

Definition setPlayerFolded (id : uuid) (folded : bool) : M unit :=
  updatePlayer id (fun p => player_with_isFolded p folded).

Definition setPlayerHand (id : uuid) (cards : list Card) : M unit :=
  updatePlayer id (fun p => player_with_hand p (Some cards)).

(** [additionalBet] and the pot are integers here; on binary64 values
    the three updates are those of [Doubles.updatePlayerBet]. *)
Definition updatePlayerBet (id : uuid) (additionalBet : Z) : M unit :=
  fun s =>
    match players s !! id with
    | Some player =>
        let player' := player_add_bet player additionalBet in
        let s1 := store_with_players s (<[id := player']> (players s)) in
        match rooms_get (rooms s1) (p_roomId player') with
        | Some room =>
            let room' := room_with_pot room (r_pot room + additionalBet) in
            (tt,
             store_with_rooms s1 (rooms_set (rooms s1) (p_roomId player') room'),
             [EvBet id (p_roomId player') additionalBet])
        | None => (tt, s1, [])
        end
    | None => (tt, s, [])
    end.

End MemStorage.

(** ** PokerGameManager (server/poker-game.ts) *)

Module PokerGameManager.

Definition suits : list Suit := [spades; hearts; diamonds; clubs].

Definition values : list CardValue :=
  [vA; v2; v3; v4; v5; v6; v7; v8; v9; v10; vJ; vQ; vK].

(** [[shuffled[i], shuffled[j]] = [shuffled[j], shuffled[i]]]; both
    indices are always inside the array. *)
Definition swap (l : list Card) (i j : nat) : list Card :=
  match l !! i, l !! j with
  | Some x, Some y => <[j := x]> (<[i := y]> l)
  | _, _ => l
  end.

(** The loop [for (let i = n; i > 0; i--)] of [shuffleDeck]; [rnd i] is
    the draw made at index [i], and [rnd i mod (i + 1)] stands for
    [Math.floor(Math.random() * (i + 1))]. *)
Fixpoint shuffleLoop (rnd : nat -> nat) (i : nat) (shuffled : list Card)
  : list Card :=
  match i with
  | O => shuffled
  | S i' => shuffleLoop rnd i' (swap shuffled i (rnd i mod (i + 1))%nat)
  end.

Definition shuffleDeck (rnd : nat -> nat) (deck : list Card) : list Card :=
  shuffleLoop rnd (length deck - 1)%nat deck.

(** The inner and the outer loop of [createDeck]. *)
Fixpoint pushValues (suit : Suit) (vs : list CardValue) (deck : list Card)
  : M (list Card) :=
  match vs with
  | [] => ret deck
  | value :: vs' =>
      let! u := randomUUID in
      pushValues suit vs' (deck ++ [mkCard suit value u])
  end.

Fixpoint pushSuits (ss : list Suit) (deck : list Card) : M (list Card) :=
  match ss with
  | [] => ret deck
  | suit :: ss' =>
      let! deck' := pushValues suit values deck in
      pushSuits ss' deck'
  end.

Definition createDeck (rnd : nat -> nat) : M (list Card) :=
  let! deck := pushSuits suits [] in
  ret (shuffleDeck rnd deck).

Definition mapToPlayerState (player : Player) : PlayerState :=
  mkPlayerState (p_id player) (p_name player) (p_chips player)
                (default [] (p_hand player)) (p_currentBet player)
                (p_isConnected player) (p_isReady player) (p_hasActed player)
                (p_isFolded player) (default 0 (p_position player)).

(** The [while] loop of [createRoom] over the codes that
    [generateRoomCode] draws; [None] when every supplied draw is taken
    (the loop is still running). *)
Fixpoint uniqueRoomCode (draws : list string) : M (option string) :=
  match draws with
  | [] => ret None
  | roomCode :: draws' =>
      let! taken := MemStorage.getRoomByCode roomCode in
      match taken with
      | Some _ => uniqueRoomCode draws'
      | None => ret (Some roomCode)
      end
  end.

Definition createRoom (draws : list string) (socketId playerName : string)
  : M (option (Result (string * uuid))) :=
  let! drawn := uniqueRoomCode draws in
  match drawn with
  | None => ret None
  | Some roomCode =>
      let! room := MemStorage.createRoom roomCode socketId 6 in
      let! player := MemStorage.createPlayer (r_id room) socketId playerName 1000 in
      MemStorage.updateRoomPlayerCount (r_id room) 1 ;;
      ret (Some (Ok (roomCode, p_id player)))
  end.

Definition joinRoom (socketId playerName roomCode : string)
  : M (Result (uuid * PlayerState)) :=
  let! found := MemStorage.getRoomByCode roomCode in
  match found with
  | None => ret (Err "Room not found")
  | Some room =>
      if r_currentPlayers room >=? r_maxPlayers room
      then ret (Err "Room is full")
      else
        let joinAsNew : M (Result (uuid * PlayerState)) :=
          let! player :=
            MemStorage.createPlayer (r_id room) socketId playerName 1000 in
          MemStorage.updateRoomPlayerCount (r_id room)
                                           (r_currentPlayers room + 1) ;;
          ret (Ok (p_id player, mapToPlayerState player)) in
        let! existing := MemStorage.getPlayerBySocketId socketId in
        match existing with
        | Some existingPlayer =>
            if decide (p_roomId existingPlayer = r_id room) then
              MemStorage.setPlayerConnected socketId true ;;
              (* the snapshot is taken from the stored object, after
                 the flag was set *)
              let! existingPlayer' := derefPlayer existingPlayer in
              ret (Ok (p_id existingPlayer, mapToPlayerState existingPlayer'))
            else joinAsNew
        | None => joinAsNew
        end
  end.

Definition leaveRoom (socketId : string) : M (Result unit) :=
  let! found := MemStorage.getPlayerBySocketId socketId in
  match found with
  | None => ret (Err "Player not found")
  | Some player =>
      let! foundRoom := MemStorage.getRoomById (p_roomId player) in
      match foundRoom with
      | None => ret (Err "Room not found")
      | Some room =>
          MemStorage.removePlayer (p_id player) ;;
          MemStorage.updateRoomPlayerCount
            (r_id room) (Z.max 0 (r_currentPlayers room - 1)) ;;
          (* [room] is the stored object: the test reads the count
             that was just written *)
          let! room' := derefRoom room in
          (if r_currentPlayers room' <=? 1
           then MemStorage.deleteRoom (r_id room)
           else ret tt) ;;
          ret (Ok tt)
      end
  end.

(** The loop [for (const player of players)] of [dealCards];
    [deck.splice(0, 4)] takes the first four cards off the deck. *)
Fixpoint dealLoop (ps : list Player) (deck : list Card) : M (list Card) :=
  match ps with
  | [] => ret deck
  | player :: ps' =>
      let playerCards := take 4 deck in
      MemStorage.setPlayerHand (p_id player) playerCards ;;
      dealLoop ps' (drop 4 deck)
  end.

Definition dealCards (roomId : uuid) (rnd : nat -> nat) : M (Result unit) :=
  let! found := MemStorage.getRoomById roomId in
  match found with
  | None => ret (Err "Room not found")
  | Some room =>
      let! ps := MemStorage.getPlayersByRoomId roomId in
      if Z.of_nat (length ps) <? 2
      then ret (Err "Need at least 2 players to deal cards")
      else
        let! deck := createDeck rnd in
        let communityCards : list Card := [] in
        let! deck' := dealLoop ps deck in
        MemStorage.updateRoomGameState (r_id room)
          (mkRoomUpdates (Some playing) (Some pre_flop) (Some 0) (Some 0)
                         (Some deck') (Some communityCards)) ;;
        emit (EvDeal (r_id room)) ;;
        ret (Ok tt)
  end.

(** [!amount || amount <= room.currentBet]: an absent amount and the
    amount 0 are both falsy.  The amount is an integer here;
    [Doubles.handlePlayerAction] takes the action on any [number]. *)
Definition raiseRejected (amount : option Z) (roomBet : Z) : bool :=
  match amount with
  | None => true
  | Some a => (a =? 0) || (a <=? roomBet)
  end.

Definition handlePlayerAction (socketId action : string) (amount : option Z)
  : M (Result unit) :=
  let! found := MemStorage.getPlayerBySocketId socketId in
  match found with
  | None => ret (Err "Player not found")
  | Some player =>
      let! foundRoom := MemStorage.getRoomById (p_roomId player) in
      match foundRoom with
      | None => ret (Err "Room not found")
      | Some room =>
          if String.eqb action "fold" then
            MemStorage.setPlayerFolded (p_id player) true ;;
            ret (Ok tt)
          else if String.eqb action "check" then
            if r_currentBet room >? p_currentBet player
            then ret (Err "Cannot check when there is a bet to call")
            else
              MemStorage.setPlayerHasActed (p_id player) true ;;
              ret (Ok tt)
          else if String.eqb action "call" then
            let callAmount := r_currentBet room - p_currentBet player in
            if callAmount >? p_chips player
            then ret (Err "Insufficient chips to call")
            else
              MemStorage.updatePlayerBet (p_id player) callAmount ;;
              MemStorage.setPlayerHasActed (p_id player) true ;;
              ret (Ok tt)
          else if String.eqb action "raise" then
            if raiseRejected amount (r_currentBet room)
            then ret (Err "Raise amount must be greater than current bet")
            else
              let amount' := default 0 amount in
              if amount' >? p_chips player
              then ret (Err "Insufficient chips to raise")
              else
                MemStorage.updatePlayerBet (p_id player)
                                           (amount' - p_currentBet player) ;;
                MemStorage.updateRoomCurrentBet (r_id room) amount' ;;
                MemStorage.setPlayerHasActed (p_id player) true ;;
                ret (Ok tt)
          else if String.eqb action "all-in" then
            MemStorage.updatePlayerBet (p_id player) (p_chips player) ;;
            MemStorage.setPlayerHasActed (p_id player) true ;;
            (* [player] and [room] are the stored objects, which
               [updatePlayerBet] has just changed *)
            let! player' := derefPlayer player in
            let! room' := derefRoom room in
            (if p_chips player' >? r_currentBet room'
             then MemStorage.updateRoomCurrentBet (r_id room) (p_chips player')
             else ret tt) ;;
            ret (Ok tt)
          else ret (Err "Invalid action")
      end
  end.

Definition setPlayerReady (socketId : string) (ready : bool) : M unit :=
  MemStorage.setPlayerReady socketId ready.

Definition setPlayerConnected (socketId : string) (connected : bool) : M unit :=
  MemStorage.setPlayerConnected socketId connected.

End PokerGameManager.

(** ** Runs of the server *)

(** One inbound intent, as the gateway passes it to the manager. *)
Inductive Op :=
| OpCreateRoom (draws : list string) (socketId playerName : string)
| OpJoinRoom (socketId playerName roomCode : string)
| OpLeaveRoom (socketId : string)
| OpDealCards (roomId : uuid) (rnd : nat -> nat)
| OpPlayerAction (socketId action : string) (amount : option Z)
| OpSetPlayerReady (socketId : string) (ready : bool)
| OpSetPlayerConnected (socketId : string) (connected : bool).

(** The store and the ledger entries left by one operation; [None] when
    [createRoom] has used up its draws without leaving its loop. *)
Definition step (op : Op) (s : Store) : option (Store * list Event) :=
  match op with
  | OpCreateRoom draws socketId playerName =>
      match PokerGameManager.createRoom draws socketId playerName s with
      | (Some _, s', ev) => Some (s', ev)
      | (None, _, _) => None
      end
  | OpJoinRoom socketId playerName roomCode =>
      let '(_, s', ev) := PokerGameManager.joinRoom socketId playerName roomCode s in
      Some (s', ev)
  | OpLeaveRoom socketId =>
      let '(_, s', ev) := PokerGameManager.leaveRoom socketId s in Some (s', ev)
  | OpDealCards roomId rnd =>
      let '(_, s', ev) := PokerGameManager.dealCards roomId rnd s in Some (s', ev)
  | OpPlayerAction socketId action amount =>
      let '(_, s', ev) := PokerGameManager.handlePlayerAction socketId action amount s in
      Some (s', ev)
  | OpSetPlayerReady socketId ready =>
      let '(_, s', ev) := PokerGameManager.setPlayerReady socketId ready s in
      Some (s', ev)
  | OpSetPlayerConnected socketId connected =>
      let '(_, s', ev) := PokerGameManager.setPlayerConnected socketId connected s in
      Some (s', ev)
  end.

Fixpoint run (ops : list Op) (s : Store) : option (Store * list Event) :=
  match ops with
  | [] => Some (s, [])
  | op :: ops' =>
      match step op s with
      | Some (s1, e1) =>
          match run ops' s1 with
          | Some (s2, e2) => Some (s2, e1 ++ e2)
          | None => None
          end
      | None => None
      end
  end.

(** The stores the server can be in: those a run from the empty store
    ends in. *)
Definition reachable (s : Store) : Prop :=
  exists ops ev, run ops emptyStore = Some (s, ev).

(** ** The ledger of bets *)

(** The events that follow the last deal of room [rid]; [None] when the
    room was never dealt. *)
Fixpoint sinceLastDeal (rid : uuid) (ev : list Event) : option (list Event) :=
  match ev with
  | [] => None
  | e :: ev' =>
      match sinceLastDeal rid ev' with
      | Some tl => Some tl
      | None =>
          match e with
          | EvDeal r => if decide (r = rid) then Some ev' else None
          | EvBet _ _ _ => None
          end
      end
  end.

(** The deltas of the bets applied to players of room [rid]. *)
Fixpoint betDeltas (rid : uuid) (ev : list Event) : list Z :=
  match ev with
  | [] => []
  | EvBet _ r d :: ev' =>
      if decide (r = rid) then d :: betDeltas rid ev' else betDeltas rid ev'
  | EvDeal _ :: ev' => betDeltas rid ev'
  end.

Definition sumZ (l : list Z) : Z := foldr Z.add 0 l.

(** The players of a room as [getPlayersByRoomId] enumerates them, and
    the chips they hold. *)
Definition seated (s : Store) (rid : uuid) : list Player :=
  (MemStorage.getPlayersByRoomId rid s).1.1.

Definition roomChips (s : Store) (rid : uuid) : Z :=
  sumZ (p_chips <$> seated s rid).

(** ** Well-formed stores *)

Definition room_ok (s : Store) (k : uuid) (r : Room) : Prop :=
  r_id r = k ∧ (k < nextUuid s)%nat ∧ r_maxPlayers r = 6 ∧
  ∃ l, playersByRoom s !! k = Some l ∧ NoDup l ∧
       Z.of_nat (length l) = r_currentPlayers r ∧ r_currentPlayers r <= 6 ∧
       ∀ pid, pid ∈ l → ∃ p, players s !! pid = Some p ∧ p_roomId p = k.

Definition player_ok (s : Store) (pid : uuid) (p : Player) : Prop :=
  p_id p = pid ∧ (pid < nextUuid s)%nat ∧ (p_roomId p < nextUuid s)%nat ∧
  (is_Some (rooms_get (rooms s) (p_roomId p)) →
   ∃ l, playersByRoom s !! p_roomId p = Some l ∧ pid ∈ l).

(** The shape of the store: keys, ids, codes, seat lists and counts. *)
Record wf_struct (s : Store) : Prop := mk_wf_struct {
  wf_nodup : NoDup (rooms s).*1;
  wf_room : ∀ k r, rooms_get (rooms s) k = Some r → room_ok s k r;
  wf_codes : ∀ k1 r1 k2 r2,
    rooms_get (rooms s) k1 = Some r1 → rooms_get (rooms s) k2 = Some r2 →
    r_code r1 = r_code r2 → k1 = k2;
  wf_player : ∀ pid p, players s !! pid = Some p → player_ok s pid p;
  wf_socket : ∀ sock pid, playersBySocket s !! sock = Some pid →
    ∃ p, players s !! pid = Some p ∧ p_socketId p = sock
}.

(** The amounts: no negative stack, no negative bet. *)
Record wf_num (s : Store) : Prop := mk_wf_num {
  wf_chips : ∀ pid p, players s !! pid = Some p →
    0 <= p_chips p ∧ 0 <= p_currentBet p;
  wf_bet : ∀ k r, (k, r) ∈ rooms s → 0 <= r_currentBet r
}.

Definition wf (s : Store) : Prop := wf_struct s ∧ wf_num s.

(** Field updates leave these parts of an object alone. *)
Definition player_shape (p p' : Player) : Prop :=
  p_id p' = p_id p ∧ p_roomId p' = p_roomId p ∧ p_socketId p' = p_socketId p.

Definition room_shape (r r' : Room) : Prop :=
  r_id r' = r_id r ∧ r_code r' = r_code r ∧ r_maxPlayers r' = r_maxPlayers r ∧
  r_currentPlayers r' = r_currentPlayers r.

(** [evolves s s']: [s'] is [s] after field updates and uuid draws. *)
Record evolves (s s' : Store) : Prop := mk_evolves {
  ev_sock : playersBySocket s' = playersBySocket s;
  ev_lists : playersByRoom s' = playersByRoom s;
  ev_next : (nextUuid s <= nextUuid s')%nat;
  ev_keys : (rooms s').*1 = (rooms s).*1;
  ev_rooms : ∀ k, option_Forall2 room_shape (rooms_get (rooms s) k)
                                            (rooms_get (rooms s') k);
  ev_players : ∀ pid, option_Forall2 player_shape (players s !! pid)
                                                  (players s' !! pid)
}.

(** ** Running a computation *)

(** The store, the value and the ledger entries that a computation
    leaves when started in [s]. *)
Definition exec {A} (m : M A) (s : Store) : Store := (m s).1.2.
Definition val {A} (m : M A) (s : Store) : A := (m s).1.1.
Definition log {A} (m : M A) (s : Store) : list Event := (m s).2.

(** A computation all of whose runs are related by [R]. *)
Definition stays {A} (R : Store → Store → Prop) (m : M A) : Prop :=
  ∀ s, R s (exec m s).

(** [keeps I]: the passage from [s] to [s'] does not break [I]. *)
Definition keeps (I : Store → Prop) : relation Store := λ s s', I s → I s'.

(** [updateRoom] as a function on the map. *)
Definition rooms_alter (f : Room → Room) (k : uuid) (m : list (uuid * Room))
  : list (uuid * Room) :=
  match rooms_get m k with
  | Some r => rooms_set m k (f r)
  | None => m
  end.

(** The store that a bet of [d] chips by [player] leaves, with the
    room's current bet at [roomBet] and the player marked as having
    acted: the common form of the three betting actions. *)
Definition placeBet (s : Store) (player : Player) (room : Room) (d roomBet : Z)
  : Store :=
  mkStore (rooms_set (rooms s) (r_id room)
             (room_with_currentBet (room_with_pot room (r_pot room + d)) roomBet))
          (<[p_id player := player_with_hasActed (player_add_bet player d) true]>
             (players s))
          (playersBySocket s) (playersByRoom s) (nextUuid s).

(** The store after a flag of [player] was set. *)
Definition markPlayer (s : Store) (player : Player) (f : Player → Player)
  : Store :=
  store_with_players s (<[p_id player := f player]> (players s)).

(** Dealing leaves these fields of every player as they were. *)
Definition bets_kept (s s' : Store) : Prop :=
  ∀ pid p', players s' !! pid = Some p' →
    ∃ p, players s !! pid = Some p ∧ p_hasActed p' = p_hasActed p ∧
         p_isFolded p' = p_isFolded p ∧ p_currentBet p' = p_currentBet p ∧
         p_chips p' = p_chips p.

(** ** Scenarios *)

(** The store in which a run from the empty store ends. *)
Definition after (ops : list Op) : Store :=
  match run ops emptyStore with
  | Some (s, _) => s
  | None => emptyStore
  end.

(** Connection ["sa"] creates room ABC123 (room 0, player 1) and ["sb"]
    joins it (player 2). *)
Definition two_seated : list Op :=
  [OpCreateRoom ["ABC123"] "sa" "Ann"; OpJoinRoom "sb" "Bob" "ABC123"].

(** ... then the cards are dealt. *)
Definition dealt : list Op := two_seated ++ [OpDealCards 0%nat (λ i, i)].

(** ... then Ann raises to 100. *)
Definition raised : list Op := dealt ++ [OpPlayerAction "sa" "raise" (Some 100)].

(** ... then Bob folds. *)
Definition folded : list Op := raised ++ [OpPlayerAction "sb" "fold" None].

(** A third connection joins the two. *)
Definition three_seated : list Op := two_seated ++ [OpJoinRoom "sc" "Cy" "ABC123"].

(** Six connections fill the room. *)
Definition six_seated : list Op :=
  three_seated ++ [OpJoinRoom "sd" "Di" "ABC123"; OpJoinRoom "se" "Ed" "ABC123";
                   OpJoinRoom "sf" "Flo" "ABC123"].

(** Bob goes all-in right after the deal, and after Ann's raise. *)
Definition bob_all_in : Store :=
  exec (PokerGameManager.handlePlayerAction "sb" "all-in" None) (after dealt).

Definition bob_all_in_late : Store :=
  exec (PokerGameManager.handlePlayerAction "sb" "all-in" None) (after raised).

(** The cards are dealt a second time after Ann's raise and Bob's fold. *)
Definition dealt_again : Store :=
  exec (PokerGameManager.dealCards 0%nat (λ i, i)) (after folded).

(** Ann leaves the room she shares with Bob. *)
Definition ann_left : Store :=
  exec (PokerGameManager.leaveRoom "sa") (after two_seated).

(** Ann's raise to 100 right after the deal. *)
Definition ann_raised : Store :=
  exec (PokerGameManager.handlePlayerAction "sa" "raise" (Some 100)) (after dealt).

(** Drawing uuids changes nothing else. *)
Definition only_uuid (s s' : Store) : Prop :=
  rooms s' = rooms s ∧ players s' = players s ∧
  playersBySocket s' = playersBySocket s ∧ playersByRoom s' = playersByRoom s.

(** Setting hands changes neither a room nor an index. *)
Definition only_players (s s' : Store) : Prop :=
  rooms s' = rooms s ∧ playersBySocket s' = playersBySocket s ∧
  playersByRoom s' = playersByRoom s.

(** A player holding exactly four cards. *)
Definition four_cards (p : Player) : Prop :=
  ∃ h, p_hand p = Some h ∧ length h = 4%nat.

(** Replaying the ledger of room [rid] from the pot [acc]: a deal
    empties the pot, a bet adds to it. *)
Fixpoint ledger (rid : uuid) (ev : list Event) (acc : Z) : Z :=
  match ev with
  | [] => acc
  | EvBet _ r d :: ev' => ledger rid ev' (if decide (r = rid) then acc + d else acc)
  | EvDeal r :: ev' => ledger rid ev' (if decide (r = rid) then 0 else acc)
  end.

Definition pot_at (s : Store) (rid : uuid) : Z :=
  match rooms_get (rooms s) rid with
  | Some r => r_pot r
  | None => 0
  end.

(** No room appears and no pot changes. *)
Definition pots_kept (s s' : Store) : Prop :=
  NoDup (rooms s).*1 →
  NoDup (rooms s').*1 ∧
  ∀ k r', rooms_get (rooms s') k = Some r' →
          ∃ r, rooms_get (rooms s) k = Some r ∧ r_pot r' = r_pot r.

Definition uuid_mono (s s' : Store) : Prop := (nextUuid s <= nextUuid s')%nat.

(** A computation that applies no bet and no deal. *)
Definition silent {A} (m : M A) : Prop := ∀ s, log m s = [].

(** How one operation moves the pots, given the ledger entries [ev] it
    leaves. *)
Definition pot_step (s s' : Store) (ev : list Event) : Prop :=
  (nextUuid s <= nextUuid s')%nat ∧
  ∀ rid,
    (rooms_get (rooms s) rid = None → ∀ acc, ledger rid ev acc = acc) ∧
    (∀ r', rooms_get (rooms s') rid = Some r' →
           r_pot r' = ledger rid ev (pot_at s rid) ∧
           (is_Some (rooms_get (rooms s) rid) ∨ (nextUuid s <= rid)%nat)).

(** ... and Bob calls Ann's raise. *)
Definition called : list Op := raised ++ [OpPlayerAction "sb" "call" None].

(** ** The rest of the manager *)

(** The 52 (suit, value) pairs, in the order [createDeck] builds them. *)
Definition allPairs : list (Suit * CardValue) :=
  s ← PokerGameManager.suits; v ← PokerGameManager.values; [(s, v)].

Definition cardPair (c : Card) : Suit * CardValue := (suit c, value c).

(** [generateRoomCode]: six characters, each
    [chars[Math.floor(Math.random() * chars.length)]]; [rnd k] is the draw
    made for position [k]. *)
Definition chars : string := "ABCDEFGHIJKLMNOPQRSTUVWXYZ0123456789".

Definition randomChar (r : nat) : string :=
  match String.get (r mod String.length chars) chars with
  | Some c => String c EmptyString
  | None => EmptyString
  end.

Definition generateRoomCode (rnd : nat → nat) : string :=
  String.concat "" (map (λ k, randomChar (rnd k)) (seq 0 6)).

(** The snapshot sent to the clients. *)
Record GameState := mkGameState {
  gs_phase : GamePhase;
  gs_round : Round;
  gs_pot : Z;
  gs_currentBet : Z;
  gs_activePlayerId : option uuid;
  gs_deck : list Card;
  gs_communityCards : list Card
}.

(** [p.isConnected && !p.isFolded && !p.hasActed] *)
Definition canAct (p : Player) : bool :=
  p_isConnected p && negb (p_isFolded p) && negb (p_hasActed p).

(** [players.filter(...)[0]?.id] *)
Definition getActivePlayerId (ps : list Player) : option uuid :=
  p_id <$> head (List.filter canAct ps).

Definition getGameState (roomCode : string)
  : M (option (GameState * list PlayerState)) :=
  let! found := MemStorage.getRoomByCode roomCode in
  match found with
  | None => ret None
  | Some room =>
      let! ps := MemStorage.getPlayersByRoomId (r_id room) in
      let playerStates := PokerGameManager.mapToPlayerState <$> ps in
      let gameState :=
        mkGameState (r_gameState room) (r_round room) (r_pot room)
                    (r_currentBet room) (getActivePlayerId ps)
                    (default [] (r_deck room))
                    (default [] (r_communityCards room)) in
      ret (Some (gameState, playerStates))
  end.

(** The hand dealt to the player in seat [i]: cards [4i .. 4i+3] of the
    deck. *)
Definition dealtHand (deck : list Card) (i : nat) (p : Player) : Player :=
  player_with_hand p (Some (take 4 (drop (4 * i) deck))).


(** Suits and values can be compared. *)
#[global] Instance Suit_eq_dec : EqDecision Suit.
Proof. solve_decision. Defined.

#[global] Instance CardValue_eq_dec : EqDecision CardValue.
Proof. solve_decision. Defined.

(** The flags that take a player out of the betting are only ever
    set, and an id in use is never handed to another player. *)
Definition flags_kept (s s' : Store) : Prop :=
  (nextUuid s <= nextUuid s')%nat ∧
  ∀ (pid : uuid) p', (pid < nextUuid s)%nat → players s' !! pid = Some p' →
    ∃ p, players s !! pid = Some p ∧
         (p_hasActed p = true → p_hasActed p' = true) ∧
         (p_isFolded p = true → p_isFolded p' = true).

(** The player record that [createPlayer] stores for a connection that
    takes a seat with the starting stack. *)
Definition newPlayer (id rid : uuid) (socketId name : string) : Player :=
  mkPlayer id rid socketId name 1000 None true false false 0 None false.

(** The room record that [createRoom] leaves once its host is seated. *)
Definition newRoom (id : uuid) (code hostId : string) : Room :=
  mkRoom id code hostId 6 1 waiting 0 0 pre_flop None None.

(** No stored room is empty. *)
Definition wf_pos (s : Store) : Prop :=
  ∀ k r, rooms_get (rooms s) k = Some r → 1 <= r_currentPlayers r.

(** A stored player never changes room, and an id in use is never
    handed to another player. *)
Definition seat_kept (s s' : Store) : Prop :=
  (nextUuid s <= nextUuid s')%nat ∧
  ∀ (pid : uuid) p', (pid < nextUuid s)%nat → players s' !! pid = Some p' →
    ∃ p, players s !! pid = Some p ∧ p_roomId p' = p_roomId p.

(** ** The betting code on binary64 amounts

    [chips], [currentBet], [pot] and [amount] are JavaScript numbers:
    the gateway validates [amount] with [z.number()], which admits every
    double but NaN, and [MemStorage] stores what the arithmetic returns.
    This module embeds [MemStorage.updatePlayerBet] and the [switch] of
    [PokerGameManager.handlePlayerAction] on binary64 values, with the
    operations of IEEE 754 that JavaScript's [+], [-], [>] and [<=]
    are.  [player] and [room] are the two objects the action has looked
    up; the lookups involve no arithmetic and are those of
    [PokerGameManager.handlePlayerAction].  As there, the objects are
    aliases of the stored ones, so the all-in branch reads the stack that
    [updatePlayerBet] has just emptied. *)
Module Doubles.

Record Player := mkPlayer {
  p_chips : float;
  p_currentBet : float;
  p_hasActed : bool;
  p_isFolded : bool
}.

Record Room := mkRoom {
  r_pot : float;
  r_currentBet : float
}.

(** [x > y] and [x <= y] on numbers. *)
Definition gt (x y : float) : bool := PrimFloat.ltb y x.
Definition le (x y : float) : bool := PrimFloat.leb x y.

Definition setPlayerHasActed (player : Player) (hasActed : bool) : Player :=
  mkPlayer (p_chips player) (p_currentBet player) hasActed (p_isFolded player).

Definition setPlayerFolded (player : Player) (folded : bool) : Player :=
  mkPlayer (p_chips player) (p_currentBet player) (p_hasActed player) folded.

Definition updateRoomCurrentBet (room : Room) (bet : float) : Room :=
  mkRoom (r_pot room) bet.

(** [player.currentBet += additionalBet; player.chips -= additionalBet;
    room.pot += additionalBet] *)
Definition updatePlayerBet (player : Player) (room : Room)
    (additionalBet : float) : Player * Room :=
  (mkPlayer (p_chips player - additionalBet)%float
            (p_currentBet player + additionalBet)%float
            (p_hasActed player) (p_isFolded player),
   mkRoom (r_pot room + additionalBet)%float (r_currentBet room)).

(** [!amount || amount <= room.currentBet]: an absent amount, NaN, 0
    and -0 are falsy. *)
Definition raiseRejected (amount : option float) (roomBet : float) : bool :=
  match amount with
  | None => true
  | Some a => PrimFloat.is_nan a || PrimFloat.eqb a 0%float || le a roomBet
  end.

Definition handlePlayerAction (action : string) (amount : option float)
    (player : Player) (room : Room) : Result (Player * Room) :=
  if String.eqb action "fold" then
    Ok (setPlayerFolded player true, room)
  else if String.eqb action "check" then
    if gt (r_currentBet room) (p_currentBet player)
    then Err "Cannot check when there is a bet to call"
    else Ok (setPlayerHasActed player true, room)
  else if String.eqb action "call" then
    let callAmount := (r_currentBet room - p_currentBet player)%float in
    if gt callAmount (p_chips player)
    then Err "Insufficient chips to call"
    else
      let (player', room') := updatePlayerBet player room callAmount in
      Ok (setPlayerHasActed player' true, room')
  else if String.eqb action "raise" then
    if raiseRejected amount (r_currentBet room)
    then Err "Raise amount must be greater than current bet"
    else
      let amount' := default 0%float amount in
      if gt amount' (p_chips player)
      then Err "Insufficient chips to raise"
      else
        let (player', room') :=
          updatePlayerBet player room (amount' - p_currentBet player)%float in
        Ok (setPlayerHasActed player' true, updateRoomCurrentBet room' amount')
  else if String.eqb action "all-in" then
    let (player', room') := updatePlayerBet player room (p_chips player) in
    let player'' := setPlayerHasActed player' true in
    Ok (player'',
        if gt (p_chips player'') (r_currentBet room')
        then updateRoomCurrentBet room' (p_chips player'')
        else room')
  else Err "Invalid action".

(** The host of a room that [createRoom] has just opened, and that
    room: 1000 chips, no bet, empty pot. *)
Definition host : Player := mkPlayer 1000%float 0%float false false.
Definition opened : Room := mkRoom 0%float 0%float.

End Doubles.

(** ** The insertion-ordered map of rooms *)

Section RoomsMap.
Implicit Types (m : list (uuid * Room)) (k : uuid) (r : Room).

Lemma rooms_get_set m k r k' :
  rooms_get (rooms_set m k r) k' =
  if decide (k = k') then Some r else rooms_get m k'.
Proof.
  induction m as [|[k0 r0] m IH]; csimpl.
  - repeat case_decide; congruence.
  - destruct (decide (k0 = k)) as [->|Hne]; csimpl.
    + repeat case_decide; congruence.
    + rewrite IH. repeat case_decide; congruence.
Qed.

Lemma rooms_get_None m k : rooms_get m k = None ↔ k ∉ m.*1.
Proof.
  induction m as [|[k0 r0] m IH]; csimpl.
  - split; [intros _; apply not_elem_of_nil | done].
  - destruct (decide (k0 = k)) as [->|Hne].
    + split; [done | intros Hk; exfalso; apply Hk; left].
    + rewrite IH, not_elem_of_cons. split; [by intros ?; split | by intros [_ ?]].
Qed.

Lemma rooms_get_Some_elem m k r : rooms_get m k = Some r → (k, r) ∈ m.
Proof.
  induction m as [|[k0 r0] m IH]; csimpl; [done|].
  destruct (decide (k0 = k)) as [->|Hne].
  - intros [= ->]. left.
  - intros Hg. right. auto.
Qed.

Lemma rooms_elem_get m k r : NoDup m.*1 → (k, r) ∈ m → rooms_get m k = Some r.
Proof.
  induction m as [|[k0 r0] m IH]; csimpl.
  - intros _ Hin. by apply elem_of_nil in Hin.
  - intros Hnd Hin. apply NoDup_cons in Hnd as [Hk Hnd].
    apply elem_of_cons in Hin as [[= -> ->]|Hin].
    + by rewrite decide_True.
    + destruct (decide (k0 = k)) as [->|Hne].
      * exfalso. apply Hk. apply list_elem_of_fmap. by exists (k, r).
      * auto.
Qed.

Lemma rooms_set_keys m k r :
  (rooms_set m k r).*1 =
  match rooms_get m k with Some _ => m.*1 | None => m.*1 ++ [k] end.
Proof.
  induction m as [|[k0 r0] m IH]; csimpl; [done|].
  destruct (decide (k0 = k)) as [->|Hne]; csimpl; [done|].
  rewrite IH. by destruct (rooms_get m k).
Qed.

Lemma rooms_set_NoDup m k r : NoDup m.*1 → NoDup (rooms_set m k r).*1.
Proof.
  intros Hnd. rewrite rooms_set_keys.
  destruct (rooms_get m k) eqn:Hk; [done|].
  apply NoDup_app. split_and!; [done | | apply NoDup_singleton].
  intros x Hx Hx'. apply list_elem_of_singleton in Hx' as ->.
  by apply rooms_get_None in Hk.
Qed.

Lemma rooms_delete_keys_sub m k x : x ∈ (rooms_delete m k).*1 → x ∈ m.*1.
Proof.
  induction m as [|[k0 r0] m IH]; csimpl; [done|].
  destruct (decide (k0 = k)) as [->|Hne]; csimpl.
  - intros Hx. by right.
  - intros Hx. apply elem_of_cons in Hx as [->|Hx]; [left | right; auto].
Qed.

Lemma rooms_delete_NoDup m k : NoDup m.*1 → NoDup (rooms_delete m k).*1.
Proof.
  induction m as [|[k0 r0] m IH]; csimpl; [done|].
  intros Hnd. apply NoDup_cons in Hnd as [Hk Hnd].
  destruct (decide (k0 = k)) as [->|Hne]; csimpl; [done|].
  apply NoDup_cons. split; [|auto].
  intros Hx. apply Hk. by eapply rooms_delete_keys_sub.
Qed.

Lemma rooms_get_delete m k k' :
  NoDup m.*1 →
  rooms_get (rooms_delete m k) k' =
  if decide (k = k') then None else rooms_get m k'.
Proof.
  induction m as [|[k0 r0] m IH]; csimpl; intros Hnd.
  - by destruct (decide (k = k')).
  - apply NoDup_cons in Hnd as [Hk Hnd].
    destruct (decide (k0 = k)) as [->|Hne]; csimpl.
    + destruct (decide (k = k')) as [<-|Hne'].
      * by apply rooms_get_None.
      * done.
    + rewrite IH by done.
      destruct (decide (k0 = k')) as [->|Hne']; [|done].
      by rewrite decide_False.
Qed.

Lemma rooms_find_code_Some m c r :
  rooms_find_code m c = Some r → r_code r = c ∧ ∃ k, (k, r) ∈ m.
Proof.
  induction m as [|[k0 r0] m IH]; csimpl; [done|].
  destruct (String.eqb (r_code r0) c) eqn:E.
  - intros [= ->]. apply String.eqb_eq in E. split; [done|].
    exists k0. left.
  - intros Hf. destruct (IH Hf) as [? [k ?]]. split; [done|].
    exists k. by right.
Qed.

Lemma rooms_find_code_None m c k r :
  rooms_find_code m c = None → (k, r) ∈ m → r_code r ≠ c.
Proof.
  induction m as [|[k0 r0] m IH]; csimpl.
  - intros _ Hin. by apply elem_of_nil in Hin.
  - destruct (String.eqb (r_code r0) c) eqn:E; [done|].
    intros Hf Hin. apply elem_of_cons in Hin as [[= -> ->]|Hin]; [|auto].
    by apply String.eqb_neq in E.
Qed.

Lemma rooms_get_alter f k m k' :
  rooms_get (rooms_alter f k m) k' =
  if decide (k = k') then f <$> rooms_get m k else rooms_get m k'.
Proof.
  unfold rooms_alter. destruct (rooms_get m k) as [r|] eqn:E.
  - rewrite rooms_get_set. by destruct (decide (k = k')).
  - destruct (decide (k = k')) as [<-|]; [by rewrite E | done].
Qed.

Lemma rooms_alter_keys f k m : (rooms_alter f k m).*1 = m.*1.
Proof.
  unfold rooms_alter. destruct (rooms_get m k) as [r|] eqn:E; [|done].
  by rewrite rooms_set_keys, E.
Qed.

Lemma rooms_alter_Some f k m r :
  rooms_get m k = Some r → rooms_alter f k m = rooms_set m k (f r).
Proof. unfold rooms_alter. by intros ->. Qed.

Lemma rooms_set_set m k r1 r2 :
  rooms_set (rooms_set m k r1) k r2 = rooms_set m k r2.
Proof.
  induction m as [|[k0 r0] m IH]; simpl.
  - by rewrite decide_True.
  - destruct (decide (k0 = k)) as [->|Hne]; simpl.
    + by rewrite decide_True.
    + rewrite decide_False by done. by rewrite IH.
Qed.

Lemma elem_rooms_set m k r k' r' :
  (k', r') ∈ rooms_set m k r → (k', r') = (k, r) ∨ (k', r') ∈ m.
Proof.
  induction m as [|[k0 r0] m IH]; csimpl.
  - intros Hin. apply list_elem_of_singleton in Hin. by left.
  - destruct (decide (k0 = k)) as [->|Hne]; intros Hin;
      apply elem_of_cons in Hin as [Hin|Hin].
    + by left.
    + right. by right.
    + right. rewrite Hin. left.
    + destruct (IH Hin) as [?|?]; [by left | right; by right].
Qed.

Lemma elem_rooms_delete m k k' r' :
  (k', r') ∈ rooms_delete m k → (k', r') ∈ m.
Proof.
  induction m as [|[k0 r0] m IH]; csimpl; [done|].
  destruct (decide (k0 = k)) as [->|Hne]; intros Hin.
  - by right.
  - apply elem_of_cons in Hin as [->|Hin]; [left | right; auto].
Qed.

Lemma elem_rooms_alter f m k k' r' :
  (k', r') ∈ rooms_alter f k m →
  (k', r') ∈ m ∨ ∃ r, (k, r) ∈ m ∧ k' = k ∧ r' = f r.
Proof.
  unfold rooms_alter. destruct (rooms_get m k) as [r|] eqn:E; [|by left].
  intros Hin. apply elem_rooms_set in Hin as [[= -> ->]|Hin]; [|by left].
  right. exists r. split; [|done]. by apply rooms_get_Some_elem.
Qed.

End RoomsMap.
(** ** Running computations, equationally *)

Lemma run_eq {A} (m : M A) s : m s = (val m s, exec m s, log m s).
Proof. unfold val, exec, log. by destruct (m s) as [[? ?] ?]. Qed.

Lemma exec_bind {A B} (m : M A) (k : A → M B) s :
  exec (bind m k) s = exec (k (val m s)) (exec m s).
Proof.
  unfold exec, val, bind. destruct (m s) as [[a s1] e1]. simpl.
  by destruct (k a s1) as [[? ?] ?].
Qed.

Lemma val_bind {A B} (m : M A) (k : A → M B) s :
  val (bind m k) s = val (k (val m s)) (exec m s).
Proof.
  unfold exec, val, bind. destruct (m s) as [[a s1] e1]. simpl.
  by destruct (k a s1) as [[? ?] ?].
Qed.

Lemma log_bind {A B} (m : M A) (k : A → M B) s :
  log (bind m k) s = log m s ++ log (k (val m s)) (exec m s).
Proof.
  unfold exec, val, log, bind. destruct (m s) as [[a s1] e1]. simpl.
  by destruct (k a s1) as [[? ?] ?].
Qed.

Lemma exec_ret {A} (a : A) s : exec (ret a) s = s.
Proof. done. Qed.
Lemma val_ret {A} (a : A) s : val (ret a) s = a.
Proof. done. Qed.
Lemma log_ret {A} (a : A) s : log (ret a) s = [].
Proof. done. Qed.
Lemma exec_gets {A} (f : Store → A) s : exec (gets f) s = s.
Proof. done. Qed.
Lemma val_gets {A} (f : Store → A) s : val (gets f) s = f s.
Proof. done. Qed.
Lemma log_gets {A} (f : Store → A) s : log (gets f) s = [].
Proof. done. Qed.
Lemma exec_modify f s : exec (modify f) s = f s.
Proof. done. Qed.
Lemma log_modify f s : log (modify f) s = [].
Proof. done. Qed.
Lemma exec_emit e s : exec (emit e) s = s.
Proof. done. Qed.
Lemma log_emit e s : log (emit e) s = [e].
Proof. done. Qed.
Lemma exec_randomUUID s :
  exec randomUUID s =
  mkStore (rooms s) (players s) (playersBySocket s) (playersByRoom s)
          (S (nextUuid s)).
Proof. done. Qed.
Lemma val_randomUUID s : val randomUUID s = nextUuid s.
Proof. done. Qed.
Lemma log_randomUUID s : log randomUUID s = [].
Proof. done. Qed.

Lemma store_eta s :
  mkStore (rooms s) (players s) (playersBySocket s) (playersByRoom s)
          (nextUuid s) = s.
Proof. by destruct s. Qed.

Lemma insert_as_alter (f : Player → Player) id p (m : gmap uuid Player) :
  m !! id = Some p → <[id := f p]> m = alter f id m.
Proof.
  intros E. apply map_eq. intros j. rewrite lookup_insert, lookup_alter.
  destruct (decide (id = j)); [by rewrite E | done].
Qed.

Lemma alter_absent (f : Player → Player) id (m : gmap uuid Player) :
  m !! id = None → alter f id m = m.
Proof.
  intros E. apply map_eq. intros j. rewrite lookup_alter.
  destruct (decide (id = j)) as [<-|]; [by rewrite E | done].
Qed.

Lemma exec_updatePlayer id f s :
  exec (MemStorage.updatePlayer id f) s =
  store_with_players s (alter f id (players s)).
Proof.
  unfold MemStorage.updatePlayer. rewrite exec_modify.
  destruct (players s !! id) as [p|] eqn:E.
  - by rewrite (insert_as_alter f id p).
  - rewrite alter_absent by done. unfold store_with_players. by rewrite store_eta.
Qed.

Lemma log_updatePlayer id f s : log (MemStorage.updatePlayer id f) s = [].
Proof. done. Qed.

Lemma exec_updateRoom id f s :
  exec (MemStorage.updateRoom id f) s =
  store_with_rooms s (rooms_alter f id (rooms s)).
Proof.
  unfold MemStorage.updateRoom, rooms_alter. rewrite exec_modify.
  destruct (rooms_get (rooms s) id) as [r|] eqn:E; [done|].
  unfold store_with_rooms. by rewrite store_eta.
Qed.

Lemma log_updateRoom id f s : log (MemStorage.updateRoom id f) s = [].
Proof. done. Qed.

Lemma exec_updatePlayerBySocket sock f s :
  exec (MemStorage.updatePlayerBySocket sock f) s =
  match playersBySocket s !! sock with
  | Some pid => store_with_players s (alter f pid (players s))
  | None => s
  end.
Proof.
  unfold exec at 1. unfold MemStorage.updatePlayerBySocket.
  destruct (playersBySocket s !! sock) as [pid|]; [|done].
  apply exec_updatePlayer.
Qed.

Lemma log_updatePlayerBySocket sock f s :
  log (MemStorage.updatePlayerBySocket sock f) s = [].
Proof.
  unfold log, MemStorage.updatePlayerBySocket.
  by destruct (playersBySocket s !! sock).
Qed.

Lemma exec_updatePlayerBet id d s :
  exec (MemStorage.updatePlayerBet id d) s =
  match players s !! id with
  | Some p =>
      mkStore (rooms_alter (λ r, room_with_pot r (r_pot r + d)) (p_roomId p)
                           (rooms s))
              (<[id := player_add_bet p d]> (players s))
              (playersBySocket s) (playersByRoom s) (nextUuid s)
  | None => s
  end.
Proof.
  unfold exec, MemStorage.updatePlayerBet, rooms_alter.
  destruct (players s !! id) as [p|]; [|done]. simpl.
  by destruct (rooms_get (rooms s) (p_roomId p)).
Qed.

Lemma log_updatePlayerBet id d s :
  log (MemStorage.updatePlayerBet id d) s =
  match players s !! id with
  | Some p =>
      match rooms_get (rooms s) (p_roomId p) with
      | Some _ => [EvBet id (p_roomId p) d]
      | None => []
      end
  | None => []
  end.
Proof.
  unfold log, MemStorage.updatePlayerBet.
  destruct (players s !! id) as [p|]; [|done]. simpl.
  by destruct (rooms_get (rooms s) (p_roomId p)).
Qed.

Create Rewrite HintDb msimp.

#[global] Hint Rewrite @exec_bind @val_bind @log_bind @exec_ret @val_ret @log_ret
  @exec_gets @val_gets @log_gets exec_modify log_modify exec_emit log_emit
  exec_randomUUID val_randomUUID log_randomUUID
  exec_updatePlayer log_updatePlayer exec_updateRoom log_updateRoom
  exec_updatePlayerBySocket log_updatePlayerBySocket
  exec_updatePlayerBet log_updatePlayerBet : msimp.

Lemma val_unit (m : M unit) s : val m s = tt.
Proof. by destruct (val m s). Qed.



(** The reads of the store. *)
Lemma exec_getRoomById id s : exec (MemStorage.getRoomById id) s = s.
Proof. done. Qed.
Lemma val_getRoomById id s :
  val (MemStorage.getRoomById id) s = rooms_get (rooms s) id.
Proof. done. Qed.
Lemma log_getRoomById id s : log (MemStorage.getRoomById id) s = [].
Proof. done. Qed.
Lemma exec_getRoomByCode c s : exec (MemStorage.getRoomByCode c) s = s.
Proof. done. Qed.
Lemma val_getRoomByCode c s :
  val (MemStorage.getRoomByCode c) s = rooms_find_code (rooms s) c.
Proof. done. Qed.
Lemma log_getRoomByCode c s : log (MemStorage.getRoomByCode c) s = [].
Proof. done. Qed.
Lemma exec_getPlayerBySocketId sock s :
  exec (MemStorage.getPlayerBySocketId sock) s = s.
Proof. done. Qed.
Lemma log_getPlayerBySocketId sock s :
  log (MemStorage.getPlayerBySocketId sock) s = [].
Proof. done. Qed.
Lemma exec_getPlayersByRoomId rid s :
  exec (MemStorage.getPlayersByRoomId rid) s = s.
Proof. done. Qed.
Lemma val_getPlayersByRoomId rid s :
  val (MemStorage.getPlayersByRoomId rid) s = seated s rid.
Proof. done. Qed.
Lemma log_getPlayersByRoomId rid s :
  log (MemStorage.getPlayersByRoomId rid) s = [].
Proof. done. Qed.

Create Rewrite HintDb mread.

#[global] Hint Rewrite exec_getRoomById val_getRoomById log_getRoomById
  exec_getRoomByCode val_getRoomByCode log_getRoomByCode
  exec_getPlayerBySocketId log_getPlayerBySocketId
  exec_getPlayersByRoomId val_getPlayersByRoomId log_getPlayersByRoomId
  @exec_bind @val_bind @log_bind @exec_ret @val_ret @log_ret
  exec_emit log_emit : mread.
(** ** Relations that every step of a computation respects *)

#[global] Instance keeps_preorder I : PreOrder (keeps I).
Proof.
  split.
  - intros s Hs. exact Hs.
  - intros s1 s2 s3 H1 H2 Hs. apply H2, H1, Hs.
Qed.

Section Stays.
Context (R : relation Store) `{!PreOrder R}.

Lemma stays_ret {A} (a : A) : stays R (ret a).
Proof. by intros s. Qed.

Lemma stays_gets {A} (f : Store → A) : stays R (gets f).
Proof. by intros s. Qed.

Lemma stays_emit e : stays R (emit e).
Proof. by intros s. Qed.

Lemma stays_bind {A B} (m : M A) (k : A → M B) :
  stays R m → (∀ a, stays R (k a)) → stays R (bind m k).
Proof.
  intros Hm Hk s. rewrite exec_bind. etrans; [apply Hm | apply Hk].
Qed.

Lemma stays_updatePlayerBySocket sock f :
  (∀ id, stays R (MemStorage.updatePlayer id f)) →
  stays R (MemStorage.updatePlayerBySocket sock f).
Proof.
  intros Hf s. unfold exec, MemStorage.updatePlayerBySocket.
  destruct (playersBySocket s !! sock) as [pid|]; [apply Hf | done].
Qed.

Lemma stays_uniqueRoomCode draws :
  stays R (PokerGameManager.uniqueRoomCode draws).
Proof.
  induction draws as [|c draws IH]; simpl; [apply stays_ret|].
  apply stays_bind; [apply stays_gets|]. intros [r|]; [done | apply stays_ret].
Qed.

Hypothesis R_uuid : stays R randomUUID.
Hypothesis R_hand : ∀ id cards, stays R (MemStorage.setPlayerHand id cards).

Lemma stays_pushValues suit vs deck :
  stays R (PokerGameManager.pushValues suit vs deck).
Proof.
  revert deck. induction vs as [|v vs IH]; intros deck; simpl.
  - apply stays_ret.
  - apply stays_bind; [apply R_uuid | intros u; apply IH].
Qed.

Lemma stays_pushSuits ss deck :
  stays R (PokerGameManager.pushSuits ss deck).
Proof.
  revert deck.
  induction ss as [|x ss IH]; intros deck; cbn [PokerGameManager.pushSuits].
  - apply stays_ret.
  - apply stays_bind; [apply stays_pushValues | intros d; apply IH].
Qed.

Lemma stays_createDeck rnd : stays R (PokerGameManager.createDeck rnd).
Proof.
  apply stays_bind; [apply stays_pushSuits | intros d; apply stays_ret].
Qed.

Lemma stays_dealLoop ps deck :
  stays R (PokerGameManager.dealLoop ps deck).
Proof.
  revert deck. induction ps as [|p ps IH]; intros deck; simpl.
  - apply stays_ret.
  - apply stays_bind; [apply R_hand | intros _; apply IH].
Qed.

End Stays.

(** The steps that are the same for every relation. *)
Ltac stays_common :=
  lazymatch goal with
  | |- stays _ (ret _) => apply stays_ret; apply _
  | |- stays _ (gets _) => apply stays_gets; apply _
  | |- stays _ (emit _) => apply stays_emit; apply _
  | |- stays _ (bind _ _) => apply stays_bind; [apply _ | | intros ?]
  | |- stays _ (PokerGameManager.uniqueRoomCode _) =>
      apply stays_uniqueRoomCode; apply _
  | |- stays _ (match ?x with _ => _ end) => destruct x
  end.

Ltac unfold_storage :=
  unfold MemStorage.getRoomById, MemStorage.getRoomByCode,
    MemStorage.updateRoomPlayerCount, MemStorage.updateRoomGameState,
    MemStorage.updateRoomCurrentBet, MemStorage.getPlayerById,
    MemStorage.getPlayerBySocketId, MemStorage.getPlayersByRoomId,
    MemStorage.setPlayerConnected, MemStorage.setPlayerReady,
    MemStorage.setPlayerHasActed, MemStorage.setPlayerFolded,
    MemStorage.setPlayerHand, derefPlayer, derefRoom in *.

Ltac msimp := unfold_storage; autorewrite with msimp in *.

(** ** Field updates keep the shape of the store *)

Lemma evolves_refl s : evolves s s.
Proof.
  split; try done.
  - intros k. by destruct (rooms_get (rooms s) k); constructor.
  - intros pid. by destruct (players s !! pid); constructor.
Qed.

Lemma evolves_trans s1 s2 s3 : evolves s1 s2 → evolves s2 s3 → evolves s1 s3.
Proof.
  intros [a1 b1 c1 d1 e1 f1] [a2 b2 c2 d2 e2 f2]. split.
  - congruence.
  - congruence.
  - lia.
  - congruence.
  - intros k. specialize (e1 k). specialize (e2 k).
    destruct e1 as [r1 r2 H1|]; inversion e2 as [? r3 H2|]; subst; constructor.
    unfold room_shape in *. intuition congruence.
  - intros k. specialize (f1 k). specialize (f2 k).
    destruct f1 as [p1 p2 H1|]; inversion f2 as [? p3 H2|]; subst; constructor.
    unfold player_shape in *. intuition congruence.
Qed.

Lemma wf_struct_evolves s s' : wf_struct s → evolves s s' → wf_struct s'.
Proof.
  intros [Hnd Hroom Hcodes Hplayer Hsock] [Es El En Ek Er Ep].
  assert (Hr : ∀ k r', rooms_get (rooms s') k = Some r' →
            ∃ r, rooms_get (rooms s) k = Some r ∧ room_shape r r').
  { intros k r' Hk. specialize (Er k). rewrite Hk in Er.
    inversion Er; subst. eauto. }
  assert (Hp : ∀ pid p', players s' !! pid = Some p' →
            ∃ p, players s !! pid = Some p ∧ player_shape p p').
  { intros k p' Hk. specialize (Ep k). rewrite Hk in Ep.
    inversion Ep; subst. eauto. }
  assert (Hp' : ∀ pid p, players s !! pid = Some p →
            ∃ p', players s' !! pid = Some p' ∧ player_shape p p').
  { intros k p Hk. specialize (Ep k). rewrite Hk in Ep.
    inversion Ep; subst. eauto. }
  split.
  - by rewrite Ek.
  - intros k r' Hk. destruct (Hr _ _ Hk) as (r & Hk0 & S1 & S2 & S3 & S4).
    destruct (Hroom _ _ Hk0) as (I1 & I2 & I3 & l & L1 & L2 & L3 & L4 & L5).
    split_and!; [congruence | lia | congruence |].
    exists l. rewrite El. split_and!; [done | done | congruence | lia |].
    intros pid Hin. destruct (L5 _ Hin) as (p & P1 & P2).
    destruct (Hp' _ _ P1) as (p' & P1' & _ & S5 & _).
    exists p'. split; [done | congruence].
  - intros k1 r1 k2 r2 H1 H2 Hc.
    destruct (Hr _ _ H1) as (r1' & H1' & _ & C1 & _).
    destruct (Hr _ _ H2) as (r2' & H2' & _ & C2 & _).
    eapply Hcodes; [done | done | congruence].
  - intros pid p' Hk. destruct (Hp _ _ Hk) as (p & Hk0 & S1 & S2 & S3).
    destruct (Hplayer _ _ Hk0) as (I1 & I2 & I3 & I4).
    split_and!; [congruence | lia | rewrite S2; lia |].
    rewrite S2, El. intros [r' Hsome]. apply I4.
    destruct (Hr _ _ Hsome) as (r & ? & _). eauto.
  - intros sock pid Hs. rewrite Es in Hs.
    destruct (Hsock _ _ Hs) as (p & P1 & P2).
    destruct (Hp' _ _ P1) as (p' & P1' & _ & _ & S3).
    exists p'. split; [done | congruence].
Qed.

#[global] Instance evolves_preorder : PreOrder evolves.
Proof. split; [exact evolves_refl | exact evolves_trans]. Qed.

Lemma evolves_randomUUID : stays evolves randomUUID.
Proof.
  intros s. rewrite exec_randomUUID. split; simpl; try done; [lia | |].
  - intros k. by destruct (rooms_get (rooms s) k); constructor.
  - intros pid. by destruct (players s !! pid); constructor.
Qed.

Lemma evolves_updatePlayer id f :
  (∀ p, player_shape p (f p)) → stays evolves (MemStorage.updatePlayer id f).
Proof.
  intros Hf s. rewrite exec_updatePlayer. split; simpl; try done.
  - intros k. by destruct (rooms_get (rooms s) k); constructor.
  - intros pid. rewrite lookup_alter. destruct (decide (id = pid)) as [<-|Hne].
    + destruct (players s !! id); constructor. apply Hf.
    + by destruct (players s !! pid); constructor.
Qed.

Lemma evolves_updateRoom id f :
  (∀ r, room_shape r (f r)) → stays evolves (MemStorage.updateRoom id f).
Proof.
  intros Hf s. rewrite exec_updateRoom. split; simpl; try done.
  - by rewrite rooms_alter_keys.
  - intros k. rewrite rooms_get_alter. destruct (decide (id = k)) as [<-|Hne].
    + destruct (rooms_get (rooms s) id); constructor. apply Hf.
    + by destruct (rooms_get (rooms s) k); constructor.
  - intros pid. by destruct (players s !! pid); constructor.
Qed.

Lemma evolves_updatePlayerBet id d : stays evolves (MemStorage.updatePlayerBet id d).
Proof.
  intros s. rewrite exec_updatePlayerBet.
  destruct (players s !! id) as [p|] eqn:Hp; [|done].
  split; simpl; try done.
  - by rewrite rooms_alter_keys.
  - intros k. rewrite rooms_get_alter.
    destruct (decide (p_roomId p = k)) as [<-|Hne].
    + by destruct (rooms_get (rooms s) (p_roomId p)); constructor.
    + by destruct (rooms_get (rooms s) k); constructor.
  - intros pid. rewrite lookup_insert. destruct (decide (id = pid)) as [<-|Hne].
    + rewrite Hp. by constructor.
    + by destruct (players s !! pid); constructor.
Qed.

Ltac evolves_step :=
  lazymatch goal with
  | |- stays _ randomUUID => apply evolves_randomUUID
  | |- stays _ (MemStorage.updatePlayerBet _ _) => apply evolves_updatePlayerBet
  | |- stays _ (MemStorage.updatePlayer _ _) =>
      apply evolves_updatePlayer; intros ?; by repeat split
  | |- stays _ (MemStorage.updatePlayerBySocket _ _) =>
      apply stays_updatePlayerBySocket; [apply _|]; intros ?;
      apply evolves_updatePlayer; intros ?; by repeat split
  | |- stays _ (MemStorage.updateRoom _ _) =>
      apply evolves_updateRoom; intros ?; by repeat split
  | |- stays _ (PokerGameManager.createDeck _) =>
      apply stays_createDeck; [apply _ | apply evolves_randomUUID]
  | |- stays _ (PokerGameManager.dealLoop _ _) =>
      apply stays_dealLoop;
      [apply _ | intros ? ?; apply evolves_updatePlayer; intros ?; by repeat split]
  | |- _ => stays_common
  end.

Lemma evolves_handlePlayerAction sock action amount :
  stays evolves (PokerGameManager.handlePlayerAction sock action amount).
Proof.
  unfold PokerGameManager.handlePlayerAction. unfold_storage.
  repeat evolves_step.
Qed.

Lemma evolves_setPlayerReady sock b :
  stays evolves (PokerGameManager.setPlayerReady sock b).
Proof.
  unfold PokerGameManager.setPlayerReady. unfold_storage. repeat evolves_step.
Qed.

Lemma evolves_setPlayerConnected sock b :
  stays evolves (PokerGameManager.setPlayerConnected sock b).
Proof.
  unfold PokerGameManager.setPlayerConnected. unfold_storage.
  repeat evolves_step.
Qed.

Lemma evolves_dealCards rid rnd :
  stays evolves (PokerGameManager.dealCards rid rnd).
Proof.
  unfold PokerGameManager.dealCards. unfold_storage. repeat evolves_step.
Qed.

(** ** Amounts stay non-negative *)

Lemma num_randomUUID : stays (keeps wf_num) randomUUID.
Proof. intros s [Hc Hb]. by split. Qed.

Lemma num_updatePlayer id f :
  (∀ p, 0 <= p_chips p ∧ 0 <= p_currentBet p →
        0 <= p_chips (f p) ∧ 0 <= p_currentBet (f p)) →
  stays (keeps wf_num) (MemStorage.updatePlayer id f).
Proof.
  intros Hf s [Hc Hb]. rewrite exec_updatePlayer. split; simpl; [|done].
  intros pid p. rewrite lookup_alter. destruct (decide (id = pid)) as [<-|Hne].
  - destruct (players s !! id) as [p0|] eqn:E; [|done].
    intros [= <-]. apply Hf. by eapply Hc.
  - apply Hc.
Qed.

Lemma num_updateRoom id f :
  (∀ r, 0 <= r_currentBet r → 0 <= r_currentBet (f r)) →
  stays (keeps wf_num) (MemStorage.updateRoom id f).
Proof.
  intros Hf s [Hc Hb]. rewrite exec_updateRoom. split; simpl; [done|].
  intros k r Hin. apply elem_rooms_alter in Hin as [Hin|(r0 & Hin & -> & ->)].
  - by eapply Hb.
  - apply Hf. by eapply Hb.
Qed.

Lemma num_createRoom code host maxPlayers :
  stays (keeps wf_num) (MemStorage.createRoom code host maxPlayers).
Proof.
  intros s [Hc Hb]. unfold MemStorage.createRoom. msimp. split; simpl; [done|].
  intros k r Hin. apply elem_rooms_set in Hin as [[= -> ->]|Hin]; [done|].
  by eapply Hb.
Qed.

Lemma num_createPlayer rid sock name chips :
  0 <= chips →
  stays (keeps wf_num) (MemStorage.createPlayer rid sock name chips).
Proof.
  intros Hchips s [Hc Hb]. unfold MemStorage.createPlayer. msimp.
  split; simpl; [|done].
  intros pid p. rewrite lookup_insert.
  destruct (decide (nextUuid s = pid)) as [<-|Hne]; [|apply Hc].
  by intros [= <-].
Qed.

Lemma num_removePlayer id : stays (keeps wf_num) (MemStorage.removePlayer id).
Proof.
  intros s [Hc Hb]. unfold MemStorage.removePlayer. msimp.
  destruct (players s !! id) as [p0|] eqn:E; [|done].
  split; simpl; [|done].
  intros pid p Hl. apply lookup_delete_Some in Hl as [_ Hl]. by eapply Hc.
Qed.

Lemma num_deleteRoom id : stays (keeps wf_num) (MemStorage.deleteRoom id).
Proof.
  intros s [Hc Hb]. unfold MemStorage.deleteRoom. msimp. split; simpl; [done|].
  intros k r Hin. apply elem_rooms_delete in Hin. by eapply Hb.
Qed.

Ltac num_step :=
  lazymatch goal with
  | |- stays _ randomUUID => apply num_randomUUID
  | |- stays _ (MemStorage.updatePlayer _ _) =>
      apply num_updatePlayer; intros ? ?; done
  | |- stays _ (MemStorage.updatePlayerBySocket _ _) =>
      apply stays_updatePlayerBySocket; [apply _|]; intros ?;
      apply num_updatePlayer; intros ? ?; done
  | |- stays _ (MemStorage.updateRoom _ _) =>
      apply num_updateRoom; intros ? ?; done
  | |- stays _ (MemStorage.createRoom _ _ _) => apply num_createRoom
  | |- stays _ (MemStorage.createPlayer _ _ _ _) => by apply num_createPlayer
  | |- stays _ (MemStorage.removePlayer _) => apply num_removePlayer
  | |- stays _ (MemStorage.deleteRoom _) => apply num_deleteRoom
  | |- stays _ (PokerGameManager.createDeck _) =>
      apply stays_createDeck; [apply _ | apply num_randomUUID]
  | |- stays _ (PokerGameManager.dealLoop _ _) =>
      apply stays_dealLoop;
      [apply _ | intros ? ?; apply num_updatePlayer; intros ? ?; done]
  | |- _ => stays_common
  end.

Lemma num_createRoom_op draws sock name :
  stays (keeps wf_num) (PokerGameManager.createRoom draws sock name).
Proof.
  unfold PokerGameManager.createRoom. unfold_storage. repeat num_step.
Qed.

Lemma num_joinRoom sock name code :
  stays (keeps wf_num) (PokerGameManager.joinRoom sock name code).
Proof.
  unfold PokerGameManager.joinRoom. unfold_storage. cbv zeta.
  repeat num_step.
Qed.

Lemma num_leaveRoom sock : stays (keeps wf_num) (PokerGameManager.leaveRoom sock).
Proof.
  unfold PokerGameManager.leaveRoom. unfold_storage. repeat num_step.
Qed.

Lemma num_dealCards rid rnd :
  stays (keeps wf_num) (PokerGameManager.dealCards rid rnd).
Proof.
  unfold PokerGameManager.dealCards. unfold_storage. repeat num_step.
Qed.

Lemma num_setPlayerReady sock b :
  stays (keeps wf_num) (PokerGameManager.setPlayerReady sock b).
Proof.
  unfold PokerGameManager.setPlayerReady. unfold_storage. repeat num_step.
Qed.

Lemma num_setPlayerConnected sock b :
  stays (keeps wf_num) (PokerGameManager.setPlayerConnected sock b).
Proof.
  unfold PokerGameManager.setPlayerConnected. unfold_storage. repeat num_step.
Qed.

(** ** The shape of the store under the room life cycle *)

Lemma length_filter_ne (l : list uuid) (x : uuid) :
  NoDup l → x ∈ l → S (length (filter (λ y, y ≠ x) l)) = length l.
Proof.
  induction l as [|a l IH]; intros Hnd Hin.
  - by apply elem_of_nil in Hin.
  - apply NoDup_cons in Hnd as [Ha Hnd].
    destruct (decide (a = x)) as [->|Hne].
    + rewrite filter_cons_False by (intros Hx; by apply Hx).
      simpl. f_equal. clear IH Hin Hnd.
      induction l as [|b l IH]; [done|].
      apply not_elem_of_cons in Ha as [Hb Ha].
      rewrite filter_cons_True by done. simpl. f_equal. by apply IH.
    + rewrite filter_cons_True by done. simpl. f_equal. apply IH; [done|].
      apply elem_of_cons in Hin as [->|Hin]; done.
Qed.

Lemma wf_no_room_at_next s : wf_struct s → rooms_get (rooms s) (nextUuid s) = None.
Proof.
  intros Hs. destruct (rooms_get (rooms s) (nextUuid s)) as [r|] eqn:E; [|done].
  destruct (wf_room s Hs _ _ E) as (_ & Hlt & _). lia.
Qed.

Lemma wf_no_player_at_next s : wf_struct s → players s !! nextUuid s = None.
Proof.
  intros Hs. destruct (players s !! nextUuid s) as [p|] eqn:E; [|done].
  destruct (wf_player s Hs _ _ E) as (_ & Hlt & _). lia.
Qed.

Lemma wf_struct_deleteRoom s rid :
  wf_struct s → wf_struct (exec (MemStorage.deleteRoom rid) s).
Proof.
  intros Hs. destruct Hs as [Hnd Hroom Hcodes Hplayer Hsock].
  unfold MemStorage.deleteRoom. msimp. unfold room_ok, player_ok in *.
  split; unfold room_ok, player_ok; simpl.
  - by apply rooms_delete_NoDup.
  - intros k r. rewrite rooms_get_delete by done.
    destruct (decide (rid = k)) as [<-|Hne]; [done|]. intros Hk.
    destruct (Hroom _ _ Hk) as (I1 & I2 & I3 & l & L1 & L2 & L3 & L4 & L5).
    split_and!; try done. exists l. rewrite lookup_delete_ne by done. done.
  - intros k1 r1 k2 r2. rewrite !rooms_get_delete by done.
    destruct (decide (rid = k1)); [done|]. destruct (decide (rid = k2)); [done|].
    apply Hcodes.
  - intros pid p Hp. destruct (Hplayer _ _ Hp) as (I1 & I2 & I3 & I4).
    split_and!; try done. rewrite rooms_get_delete by done.
    destruct (decide (rid = p_roomId p)) as [E|Hne]; [by intros [? ?]|].
    rewrite lookup_delete_ne by done. done.
  - done.
Qed.

Lemma wf_struct_createRoom s code host :
  wf_struct s → rooms_find_code (rooms s) code = None →
  wf_struct (exec (MemStorage.createRoom code host 6) s).
Proof.
  intros Hs Hcode. pose proof (wf_no_room_at_next s Hs) as Hfresh.
  destruct Hs as [Hnd Hroom Hcodes Hplayer Hsock].
  unfold MemStorage.createRoom. msimp. unfold room_ok, player_ok in *.
  split; unfold room_ok, player_ok; simpl.
  - by apply rooms_set_NoDup.
  - intros k r. rewrite rooms_get_set.
    destruct (decide (nextUuid s = k)) as [<-|Hne].
    + intros [= <-]. split_and!; simpl; try done; [lia|].
      exists []. rewrite lookup_insert_eq. split_and!; try done.
      * apply NoDup_nil_2.
      * intros pid Hin. by apply elem_of_nil in Hin.
    + intros Hk.
      destruct (Hroom _ _ Hk) as (I1 & I2 & I3 & l & L1 & L2 & L3 & L4 & L5).
      split_and!; try done; [lia|]. exists l.
      rewrite lookup_insert_ne by done. done.
  - assert (Hnew : ∀ k r, rooms_get (rooms s) k = Some r → r_code r ≠ code).
    { intros k r Hk. eapply rooms_find_code_None; [done|].
      by apply rooms_get_Some_elem. }
    intros k1 r1 k2 r2. rewrite !rooms_get_set.
    destruct (decide (nextUuid s = k1)) as [<-|N1];
      destruct (decide (nextUuid s = k2)) as [<-|N2]; try done.
    + intros [= <-] H2 Hc. simpl in Hc. exfalso. by eapply Hnew.
    + intros H1 [= <-] Hc. simpl in Hc. exfalso. by eapply Hnew.
    + apply Hcodes.
  - intros pid p Hp. destruct (Hplayer _ _ Hp) as (I1 & I2 & I3 & I4).
    split_and!; try done; try lia. rewrite rooms_get_set.
    rewrite decide_False by lia. rewrite lookup_insert_ne by lia. done.
  - done.
Qed.

Lemma wf_struct_seat s rid room sock name chips :
  wf_struct s → rooms_get (rooms s) rid = Some room →
  r_currentPlayers room < 6 →
  wf_struct
    (exec (MemStorage.updateRoomPlayerCount rid (r_currentPlayers room + 1))
          (exec (MemStorage.createPlayer rid sock name chips) s)).
Proof.
  intros Hs Hrid Hlt. pose proof (wf_no_player_at_next s Hs) as Hfresh.
  destruct Hs as [Hnd Hroom Hcodes Hplayer Hsock].
  unfold room_ok, player_ok in *.
  destruct (Hroom _ _ Hrid) as (J1 & J2 & J3 & l & K1 & K2 & K3 & K4 & K5).
  assert (Hold : ∀ pid p, players s !! pid = Some p → pid ≠ nextUuid s).
  { intros pid p Hp ->. by rewrite Hfresh in Hp. }
  unfold MemStorage.createPlayer. msimp. simpl. rewrite K1. simpl.
  split; unfold room_ok, player_ok; simpl.
  - by rewrite rooms_alter_keys.
  - intros k r. rewrite rooms_get_alter.
    destruct (decide (rid = k)) as [<-|Hne].
    + rewrite Hrid. intros [= <-]. split_and!; simpl; try done; [lia|].
      exists (l ++ [nextUuid s]). rewrite lookup_insert_eq. split_and!; try done.
      * apply NoDup_app. split_and!; [done | | apply NoDup_singleton].
        intros x Hx Hx'. apply list_elem_of_singleton in Hx' as ->.
        destruct (K5 _ Hx) as (p & Hp & _). by eapply Hold.
      * rewrite length_app. simpl. lia.
      * lia.
      * intros pid Hin. apply elem_of_app in Hin as [Hin|Hin].
        -- destruct (K5 _ Hin) as (p & Hp & Hr). exists p.
           rewrite lookup_insert_ne; [done|]. intros E. by eapply Hold.
        -- apply list_elem_of_singleton in Hin as ->.
           rewrite lookup_insert_eq. eauto.
    + intros Hk.
      destruct (Hroom _ _ Hk) as (I1 & I2 & I3 & l' & L1 & L2 & L3 & L4 & L5).
      split_and!; try done; [lia|]. exists l'.
      rewrite lookup_insert_ne by done. split_and!; try done.
      intros pid Hin. destruct (L5 _ Hin) as (p & Hp & Hr). exists p.
      rewrite lookup_insert_ne; [done|]. intros E. by eapply Hold.
  - intros k1 r1 k2 r2. rewrite !rooms_get_alter. intros H1 H2 Hc.
    assert (∃ r1', rooms_get (rooms s) k1 = Some r1' ∧ r_code r1' = r_code r1)
      as (r1' & H1' & C1).
    { destruct (decide (rid = k1)) as [<-|]; [|eauto].
      rewrite Hrid in H1. injection H1 as <-. eauto. }
    assert (∃ r2', rooms_get (rooms s) k2 = Some r2' ∧ r_code r2' = r_code r2)
      as (r2' & H2' & C2).
    { destruct (decide (rid = k2)) as [<-|]; [|eauto].
      rewrite Hrid in H2. injection H2 as <-. eauto. }
    eapply Hcodes; [done | done | congruence].
  - intros pid p. rewrite lookup_insert.
    destruct (decide (nextUuid s = pid)) as [<-|Hne].
    + intros [= <-]. split_and!; simpl; try done; try lia.
      intros _. exists (l ++ [nextUuid s]). rewrite lookup_insert_eq.
      split; [done|]. apply elem_of_app. right. left.
    + intros Hp. destruct (Hplayer _ _ Hp) as (I1 & I2 & I3 & I4).
      split_and!; try done; try lia. rewrite rooms_get_alter.
      destruct (decide (rid = p_roomId p)) as [E|Hne'].
      * intros _. rewrite <- E, lookup_insert_eq.
        exists (l ++ [nextUuid s]). split; [done|].
        destruct I4 as (l0 & Hl0 & Hin0); [rewrite <- E; eauto|].
        rewrite <- E, K1 in Hl0. injection Hl0 as <-.
        apply elem_of_app. by left.
      * rewrite lookup_insert_ne by done. done.
  - intros sock' pid. rewrite lookup_insert.
    destruct (decide (sock = sock')) as [<-|Hne].
    + intros [= <-]. rewrite lookup_insert_eq. eauto.
    + intros Hs'. destruct (Hsock _ _ Hs') as (p & Hp & Hsk). exists p.
      rewrite lookup_insert_ne; [done|]. intros E. by eapply Hold.
Qed.

Lemma wf_struct_unseat s sock pid player room :
  wf_struct s → playersBySocket s !! sock = Some pid →
  players s !! pid = Some player →
  rooms_get (rooms s) (p_roomId player) = Some room →
  wf_struct
    (exec (MemStorage.updateRoomPlayerCount
             (r_id room) (Z.max 0 (r_currentPlayers room - 1)))
          (exec (MemStorage.removePlayer (p_id player)) s)).
Proof.
  intros Hs Hsk Hp Hr.
  destruct Hs as [Hnd Hroom Hcodes Hplayer Hsock].
  unfold room_ok, player_ok in *.
  destruct (Hroom _ _ Hr) as (J1 & J2 & J3 & l & K1 & K2 & K3 & K4 & K5).
  destruct (Hplayer _ _ Hp) as (P1 & P2 & P3 & P4).
  destruct P4 as (l' & Hl' & Hin); [eauto|].
  rewrite K1 in Hl'. injection Hl' as <-.
  destruct (Hsock _ _ Hsk) as (p' & Hp' & Hsid).
  rewrite Hp in Hp'. injection Hp' as <-.
  pose proof (length_filter_ne l pid K2 Hin) as Hlen.
  unfold MemStorage.removePlayer. msimp. rewrite P1, Hp, J1. simpl.
  rewrite K1. simpl.
  split; unfold room_ok, player_ok; simpl.
  - by rewrite rooms_alter_keys.
  - intros k r. rewrite rooms_get_alter.
    destruct (decide (p_roomId player = k)) as [<-|Hne].
    + rewrite Hr. intros [= <-]. split_and!; simpl; try done.
      exists (filter (λ y, y ≠ pid) l). rewrite lookup_insert_eq.
      split_and!; try done.
      * by apply NoDup_filter.
      * lia.
      * lia.
      * intros x Hx. apply list_elem_of_filter in Hx as [Hx1 Hx2].
        destruct (K5 _ Hx2) as (q & Hq & Hqr). exists q.
        by rewrite lookup_delete_ne.
    + intros Hk.
      destruct (Hroom _ _ Hk) as (I1 & I2 & I3 & l' & L1 & L2 & L3 & L4 & L5).
      split_and!; try done. exists l'.
      rewrite lookup_insert_ne by done. split_and!; try done.
      intros x Hx. destruct (L5 _ Hx) as (q & Hq & Hqr). exists q.
      rewrite lookup_delete_ne; [done|]. intros <-.
      rewrite Hp in Hq. injection Hq as <-. done.
  - intros k1 r1 k2 r2. rewrite !rooms_get_alter. intros H1 H2 Hc.
    assert (∃ r1', rooms_get (rooms s) k1 = Some r1' ∧ r_code r1' = r_code r1)
      as (r1' & H1' & C1).
    { destruct (decide (p_roomId player = k1)) as [<-|]; [|eauto].
      rewrite Hr in H1. injection H1 as <-. eauto. }
    assert (∃ r2', rooms_get (rooms s) k2 = Some r2' ∧ r_code r2' = r_code r2)
      as (r2' & H2' & C2).
    { destruct (decide (p_roomId player = k2)) as [<-|]; [|eauto].
      rewrite Hr in H2. injection H2 as <-. eauto. }
    eapply Hcodes; [done | done | congruence].
  - intros x q Hq. apply lookup_delete_Some in Hq as [Hx Hq].
    destruct (Hplayer _ _ Hq) as (I1 & I2 & I3 & I4).
    split_and!; try done. rewrite rooms_get_alter.
    destruct (decide (p_roomId player = p_roomId q)) as [E|Hne].
    + intros _. rewrite <- E, lookup_insert_eq.
      exists (filter (λ y, y ≠ pid) l). split; [done|].
      destruct I4 as (l0 & Hl0 & Hin0); [rewrite <- E; eauto|].
      rewrite <- E, K1 in Hl0. injection Hl0 as <-.
      apply list_elem_of_filter. split; [congruence | done].
    + rewrite lookup_insert_ne by done. done.
  - intros sock' x Hx. apply lookup_delete_Some in Hx as [Hne Hx].
    destruct (Hsock _ _ Hx) as (q & Hq & Hqs). exists q.
    rewrite lookup_delete_ne; [done|]. intros <-.
    rewrite Hp in Hq. injection Hq as <-. congruence.
Qed.

(** Lookups in a well-formed store. *)
Lemma wf_lookup_player s sock player :
  wf_struct s →
  val (MemStorage.getPlayerBySocketId sock) s = Some player →
  playersBySocket s !! sock = Some (p_id player) ∧
  players s !! p_id player = Some player ∧ p_socketId player = sock.
Proof.
  intros Hs. msimp.
  destruct (playersBySocket s !! sock) as [pid|] eqn:Hsk; [|done].
  intros Hp. destruct (wf_player s Hs _ _ Hp) as (<- & _).
  destruct (wf_socket s Hs _ _ Hsk) as (q & Hq & Hqs).
  rewrite Hp in Hq. injection Hq as <-. done.
Qed.

Lemma wf_lookup_code s code room :
  wf_struct s → rooms_find_code (rooms s) code = Some room →
  rooms_get (rooms s) (r_id room) = Some room ∧ r_code room = code.
Proof.
  intros Hs Hf. apply rooms_find_code_Some in Hf as [Hc [k Hin]].
  apply rooms_elem_get in Hin; [|apply Hs].
  destruct (wf_room s Hs _ _ Hin) as (-> & _). done.
Qed.

Lemma wf_code_lookup s k room :
  wf_struct s → rooms_get (rooms s) k = Some room →
  rooms_find_code (rooms s) (r_code room) = Some room.
Proof.
  intros Hs Hk.
  destruct (rooms_find_code (rooms s) (r_code room)) as [r|] eqn:Hf.
  - destruct (wf_lookup_code s _ _ Hs Hf) as [Hr Hc].
    pose proof (wf_codes s Hs _ _ _ _ Hr Hk Hc) as E.
    rewrite E in Hr. congruence.
  - exfalso. eapply rooms_find_code_None; [done | | done].
    by apply rooms_get_Some_elem.
Qed.

Lemma uniqueRoomCode_exec draws s :
  exec (PokerGameManager.uniqueRoomCode draws) s = s.
Proof.
  induction draws as [|c draws IH]; simpl; [done|]. msimp.
  by destruct (rooms_find_code (rooms s) c).
Qed.

Lemma uniqueRoomCode_log draws s :
  log (PokerGameManager.uniqueRoomCode draws) s = [].
Proof.
  induction draws as [|c draws IH]; simpl; [done|]. msimp.
  by destruct (rooms_find_code (rooms s) c).
Qed.

Lemma uniqueRoomCode_val draws s c :
  val (PokerGameManager.uniqueRoomCode draws) s = Some c →
  rooms_find_code (rooms s) c = None.
Proof.
  induction draws as [|c0 draws IH]; simpl; [done|]. msimp.
  destruct (rooms_find_code (rooms s) c0) eqn:E; [done|].
  msimp. by intros [= <-].
Qed.

(** *** Every operation keeps the shape *)

Lemma wf_struct_createRoom_op s draws sock name :
  wf_struct s → wf_struct (exec (PokerGameManager.createRoom draws sock name) s).
Proof.
  intros Hs. unfold PokerGameManager.createRoom.
  rewrite exec_bind, uniqueRoomCode_exec.
  destruct (val (PokerGameManager.uniqueRoomCode draws) s) as [c|] eqn:Hc; [|done].
  apply uniqueRoomCode_val in Hc.
  pose proof (wf_struct_createRoom s c sock Hs Hc) as HA.
  rewrite !exec_bind, exec_ret.
  set (sA := exec (MemStorage.createRoom c sock 6) s) in *.
  set (room := val (MemStorage.createRoom c sock 6) s).
  assert (Hroom : rooms_get (rooms sA) (r_id room) = Some room).
  { unfold sA, room, MemStorage.createRoom. msimp. simpl.
    by rewrite rooms_get_set, decide_True. }
  apply (wf_struct_seat sA (r_id room) room sock name 1000 HA Hroom).
  by unfold room, MemStorage.createRoom; msimp.
Qed.

Lemma wf_struct_joinRoom s sock name code :
  wf_struct s → wf_struct (exec (PokerGameManager.joinRoom sock name code) s).
Proof.
  intros Hs. unfold PokerGameManager.joinRoom. cbv zeta.
  rewrite exec_bind. unfold MemStorage.getRoomByCode at 1 2.
  rewrite exec_gets, val_gets.
  destruct (rooms_find_code (rooms s) code) as [room|] eqn:Hf; [|done].
  destruct (wf_lookup_code s _ _ Hs Hf) as [Hr Hc].
  destruct (wf_room s Hs _ _ Hr) as (_ & _ & Hmax & _).
  destruct (r_currentPlayers room >=? r_maxPlayers room) eqn:Hfull; [done|].
  assert (Hlt : r_currentPlayers room < 6) by lia.
  assert (Hnew : wf_struct
    (exec (let! player := MemStorage.createPlayer (r_id room) sock name 1000 in
           MemStorage.updateRoomPlayerCount (r_id room)
                                            (r_currentPlayers room + 1) ;;
           ret (Ok (p_id player, PokerGameManager.mapToPlayerState player))) s)).
  { rewrite !exec_bind, exec_ret. by apply wf_struct_seat. }
  rewrite exec_bind. unfold MemStorage.getPlayerBySocketId at 1 2.
  rewrite exec_gets, val_gets.
  destruct (playersBySocket s !! sock) as [pid|]; [|done].
  destruct (players s !! pid) as [existing|]; [|done].
  destruct (decide (p_roomId existing = r_id room)); [|done].
  apply (wf_struct_evolves s _ Hs).
  generalize s. change (stays evolves
    (MemStorage.setPlayerConnected sock true ;;
     let! existingPlayer' := derefPlayer existing in
     ret (Ok (p_id existing, PokerGameManager.mapToPlayerState existingPlayer')))).
  unfold_storage. repeat evolves_step.
Qed.

Lemma wf_struct_leaveRoom s sock :
  wf_struct s → wf_struct (exec (PokerGameManager.leaveRoom sock) s).
Proof.
  intros Hs. unfold PokerGameManager.leaveRoom.
  rewrite exec_bind.
  destruct (val (MemStorage.getPlayerBySocketId sock) s) as [player|] eqn:Hp;
    [|done].
  destruct (wf_lookup_player s _ _ Hs Hp) as (Hsk & Hpl & Hsid).
  unfold MemStorage.getPlayerBySocketId at 1. rewrite exec_gets, exec_bind.
  unfold MemStorage.getRoomById at 1 2. rewrite exec_gets, val_gets.
  destruct (rooms_get (rooms s) (p_roomId player)) as [room|] eqn:Hr; [|done].
  pose proof (wf_struct_unseat s sock _ player room Hs Hsk Hpl Hr) as HC.
  rewrite !exec_bind, exec_ret.
  set (s2 := exec (MemStorage.updateRoomPlayerCount _ _) _) in *.
  unfold derefRoom at 1 2. rewrite exec_gets, val_gets.
  destruct (r_currentPlayers _ <=? 1); [|done].
  by apply wf_struct_deleteRoom.
Qed.
(** ** Failed actions change nothing *)

Lemma handlePlayerAction_failure sock action amount s e :
  val (PokerGameManager.handlePlayerAction sock action amount) s = Err e →
  exec (PokerGameManager.handlePlayerAction sock action amount) s = s ∧
  log (PokerGameManager.handlePlayerAction sock action amount) s = [].
Proof.
  unfold PokerGameManager.handlePlayerAction. msimp.
  destruct (playersBySocket s !! sock) as [pid|]; [|by msimp].
  destruct (players s !! pid) as [player|]; [|by msimp].
  msimp.
  destruct (rooms_get (rooms s) (p_roomId player)) as [room|]; [|by msimp].
  repeat match goal with
         | |- context [if ?b then _ else _] => destruct b; msimp; try done
         end.
Qed.

(** ** What an action does *)

Section Action.
Variables (s : Store) (sock : string) (pid : uuid) (player : Player) (room : Room).
Hypothesis Hsock : playersBySocket s !! sock = Some pid.
Hypothesis Hplayer : players s !! pid = Some player.
Hypothesis Hpid : p_id player = pid.
Hypothesis Hroom : rooms_get (rooms s) (p_roomId player) = Some room.
Hypothesis Hrid : r_id room = p_roomId player.

Lemma handlePlayerAction_run action amount :
  PokerGameManager.handlePlayerAction sock action amount s =
  if String.eqb action "fold" then
    (Ok tt, markPlayer s player (λ p, player_with_isFolded p true), [])
  else if String.eqb action "check" then
    if r_currentBet room >? p_currentBet player
    then (Err "Cannot check when there is a bet to call", s, [])
    else (Ok tt, markPlayer s player (λ p, player_with_hasActed p true), [])
  else if String.eqb action "call" then
    let callAmount := r_currentBet room - p_currentBet player in
    if callAmount >? p_chips player
    then (Err "Insufficient chips to call", s, [])
    else (Ok tt, placeBet s player room callAmount (r_currentBet room),
          [EvBet pid (r_id room) callAmount])
  else if String.eqb action "raise" then
    if PokerGameManager.raiseRejected amount (r_currentBet room)
    then (Err "Raise amount must be greater than current bet", s, [])
    else
      let amount' := default 0 amount in
      if amount' >? p_chips player
      then (Err "Insufficient chips to raise", s, [])
      else (Ok tt, placeBet s player room (amount' - p_currentBet player) amount',
            [EvBet pid (r_id room) (amount' - p_currentBet player)])
  else if String.eqb action "all-in" then
    (Ok tt,
     placeBet s player room (p_chips player)
              (if 0 >? r_currentBet room then 0 else r_currentBet room),
     [EvBet pid (r_id room) (p_chips player)])
  else (Err "Invalid action", s, []).
Proof.
  rewrite run_eq. unfold markPlayer, placeBet.
  unfold PokerGameManager.handlePlayerAction. msimp.
  rewrite Hsock, Hplayer. msimp. rewrite Hroom.
  destruct (String.eqb action "fold").
  { msimp. rewrite Hpid, <- (insert_as_alter _ _ _ _ Hplayer). done. }
  destruct (String.eqb action "check").
  { destruct (r_currentBet room >? p_currentBet player); msimp; [done|].
    rewrite Hpid, <- (insert_as_alter _ _ _ _ Hplayer). done. }
  destruct (String.eqb action "call").
  { cbv zeta.
    destruct (r_currentBet room - p_currentBet player >? p_chips player);
      msimp; [done|].
    rewrite Hpid, Hplayer, Hroom, Hrid. simpl.
    rewrite alter_insert_eq, ?app_nil_r.
    rewrite (rooms_alter_Some _ _ _ _ Hroom).
    done. }
  destruct (String.eqb action "raise").
  { destruct (PokerGameManager.raiseRejected amount (r_currentBet room));
      msimp; [done|]. cbv zeta.
    destruct (default 0 amount >? p_chips player); msimp; [done|].
    rewrite Hpid, Hplayer, Hroom, Hrid. simpl.
    rewrite alter_insert_eq, ?app_nil_r.
    rewrite (rooms_alter_Some _ _ _ _ Hroom).
    unfold rooms_alter. rewrite rooms_get_set, decide_True by done.
    rewrite rooms_set_set. done. }
  destruct (String.eqb action "all-in"); msimp; [|done].
  rewrite Hpid, Hplayer, Hroom, Hrid. simpl.
  rewrite alter_insert_eq, lookup_insert_eq. simpl.
  rewrite (rooms_alter_Some _ _ _ _ Hroom).
  rewrite rooms_get_set, decide_True by done. simpl.
  replace (p_chips player - p_chips player) with 0 by lia.
  destruct (0 >? r_currentBet room); msimp; simpl.
  - unfold rooms_alter. rewrite rooms_get_set, decide_True by done.
    rewrite rooms_set_set, ?app_nil_r. done.
  - rewrite ?app_nil_r. done.
Qed.

End Action.

(** ** Reachable stores are well formed *)

Lemma handlePlayerAction_lookup s sock action amount :
  wf_struct s →
  (∃ e, PokerGameManager.handlePlayerAction sock action amount s = (Err e, s, []))
  ∨ (∃ pid player room,
       playersBySocket s !! sock = Some pid ∧ players s !! pid = Some player ∧
       p_id player = pid ∧ rooms_get (rooms s) (p_roomId player) = Some room ∧
       r_id room = p_roomId player).
Proof.
  intros Hs.
  destruct (playersBySocket s !! sock) as [pid|] eqn:Hsk.
  - destruct (players s !! pid) as [player|] eqn:Hp.
    + destruct (rooms_get (rooms s) (p_roomId player)) as [room|] eqn:Hr.
      * right. exists pid, player, room.
        destruct (wf_player s Hs _ _ Hp) as (? & _).
        destruct (wf_room s Hs _ _ Hr) as (? & _). done.
      * left. eexists. rewrite run_eq.
        unfold PokerGameManager.handlePlayerAction. msimp.
        rewrite Hsk, Hp. msimp. rewrite Hr. msimp. done.
    + left. eexists. rewrite run_eq.
      unfold PokerGameManager.handlePlayerAction. msimp.
      rewrite Hsk, Hp. msimp. done.
  - left. eexists. rewrite run_eq.
    unfold PokerGameManager.handlePlayerAction. msimp.
    rewrite Hsk. msimp. done.
Qed.

Lemma wf_num_markPlayer s player f :
  wf_num s →
  (0 <= p_chips player ∧ 0 <= p_currentBet player →
   0 <= p_chips (f player) ∧ 0 <= p_currentBet (f player)) →
  players s !! p_id player = Some player →
  wf_num (markPlayer s player f).
Proof.
  intros [Hc Hb] Hf Hp. split; simpl; [|done].
  intros pid p. rewrite lookup_insert.
  destruct (decide (p_id player = pid)) as [<-|Hne]; [|apply Hc].
  intros [= <-]. apply Hf. by eapply Hc.
Qed.

Lemma wf_num_placeBet s player room d roomBet :
  wf_num s → d <= p_chips player → 0 <= p_currentBet player + d →
  0 <= roomBet → wf_num (placeBet s player room d roomBet).
Proof.
  intros [Hc Hb] H1 H2 H3. split; simpl.
  - intros pid p. rewrite lookup_insert.
    destruct (decide (p_id player = pid)) as [<-|Hne]; [|apply Hc].
    intros [= <-]. simpl. lia.
  - intros k r Hin. apply elem_rooms_set in Hin as [[= -> ->]|Hin]; [done|].
    by eapply Hb.
Qed.

Lemma wf_num_handlePlayerAction s sock action amount :
  wf_struct s → wf_num s →
  wf_num (exec (PokerGameManager.handlePlayerAction sock action amount) s).
Proof.
  intros Hs Hn. unfold exec.
  destruct (handlePlayerAction_lookup s sock action amount Hs)
    as [[e ->]|(pid & player & room & Hsk & Hp & Hid & Hr & Hrid)]; [done|].
  rewrite (handlePlayerAction_run s sock pid player room Hsk Hp Hid Hr Hrid).
  destruct (wf_chips s Hn _ _ Hp) as [Hchips Hbet].
  pose proof (wf_bet s Hn _ _ (rooms_get_Some_elem _ _ _ Hr)) as Hrb.
  rewrite <- Hid in Hp.
  destruct (String.eqb action "fold"); simpl.
  { by apply wf_num_markPlayer. }
  destruct (String.eqb action "check"); simpl.
  { destruct (r_currentBet room >? p_currentBet player); simpl; [done|].
    by apply wf_num_markPlayer. }
  destruct (String.eqb action "call"); simpl.
  { destruct (r_currentBet room - p_currentBet player >? p_chips player) eqn:E;
      simpl; [done|].
    apply wf_num_placeBet; [done | lia | lia | done]. }
  destruct (String.eqb action "raise"); simpl.
  { destruct (PokerGameManager.raiseRejected amount (r_currentBet room)) eqn:E1;
      simpl; [done|].
    destruct (default 0 amount >? p_chips player) eqn:E2; simpl; [done|].
    destruct amount as [a|]; [|done]. simpl in *.
    apply wf_num_placeBet; [done | lia | lia | lia]. }
  destruct (String.eqb action "all-in"); simpl; [|done].
  apply wf_num_placeBet; [done | lia | lia |].
  destruct (0 >? r_currentBet room); lia.
Qed.

Lemma step_eq op s :
  step op s =
  match op with
  | OpCreateRoom draws sock name =>
      match val (PokerGameManager.createRoom draws sock name) s with
      | Some _ => Some (exec (PokerGameManager.createRoom draws sock name) s,
                        log (PokerGameManager.createRoom draws sock name) s)
      | None => None
      end
  | OpJoinRoom sock name code =>
      Some (exec (PokerGameManager.joinRoom sock name code) s,
            log (PokerGameManager.joinRoom sock name code) s)
  | OpLeaveRoom sock =>
      Some (exec (PokerGameManager.leaveRoom sock) s,
            log (PokerGameManager.leaveRoom sock) s)
  | OpDealCards rid rnd =>
      Some (exec (PokerGameManager.dealCards rid rnd) s,
            log (PokerGameManager.dealCards rid rnd) s)
  | OpPlayerAction sock action amount =>
      Some (exec (PokerGameManager.handlePlayerAction sock action amount) s,
            log (PokerGameManager.handlePlayerAction sock action amount) s)
  | OpSetPlayerReady sock b =>
      Some (exec (PokerGameManager.setPlayerReady sock b) s,
            log (PokerGameManager.setPlayerReady sock b) s)
  | OpSetPlayerConnected sock b =>
      Some (exec (PokerGameManager.setPlayerConnected sock b) s,
            log (PokerGameManager.setPlayerConnected sock b) s)
  end.
Proof.
  destruct op; unfold step;
    match goal with |- context [?m s] => rewrite (run_eq m s) end; done.
Qed.

Lemma wf_step op s s' ev : wf s → step op s = Some (s', ev) → wf s'.
Proof.
  intros [Hs Hn]. rewrite step_eq. destruct op.
  - destruct (val _ s); [|done]. intros [= <- <-]. split.
    + by apply wf_struct_createRoom_op.
    + by apply num_createRoom_op.
  - intros [= <- <-]. split; [by apply wf_struct_joinRoom | by apply num_joinRoom].
  - intros [= <- <-]. split; [by apply wf_struct_leaveRoom | by apply num_leaveRoom].
  - intros [= <- <-]. split; [|by apply num_dealCards].
    eapply wf_struct_evolves; [done | apply evolves_dealCards].
  - intros [= <- <-]. split; [|by apply wf_num_handlePlayerAction].
    eapply wf_struct_evolves; [done | apply evolves_handlePlayerAction].
  - intros [= <- <-]. split; [|by apply num_setPlayerReady].
    eapply wf_struct_evolves; [done | apply evolves_setPlayerReady].
  - intros [= <- <-]. split; [|by apply num_setPlayerConnected].
    eapply wf_struct_evolves; [done | apply evolves_setPlayerConnected].
Qed.

Lemma run_cons op ops s s' ev :
  run (op :: ops) s = Some (s', ev) →
  ∃ s1 e1 e2, step op s = Some (s1, e1) ∧ run ops s1 = Some (s', e2) ∧
              ev = e1 ++ e2.
Proof.
  simpl. destruct (step op s) as [[s1 e1]|]; [|done].
  destruct (run ops s1) as [[s2 e2]|] eqn:E2; [|done].
  intros [= <- <-]. by exists s1, e1, e2.
Qed.

Lemma wf_run ops s s' ev : wf s → run ops s = Some (s', ev) → wf s'.
Proof.
  revert s ev. induction ops as [|op ops IH]; intros s ev Hs.
  - by intros [= <- <-].
  - intros Hr. apply run_cons in Hr as (s1 & e1 & e2 & H1 & H2 & _).
    eapply IH; [|done]. by eapply wf_step.
Qed.

Lemma wf_empty : wf emptyStore.
Proof.
  split; split; simpl; try done.
  - apply NoDup_nil_2.
  - intros k r Hin. by apply elem_of_nil in Hin.
Qed.

Lemma wf_reachable s : reachable s → wf s.
Proof. intros (ops & ev & Hr). eapply wf_run; [apply wf_empty | done]. Qed.

Lemma reachable_step op s s' ev :
  reachable s → step op s = Some (s', ev) → reachable s'.
Proof.
  intros (ops & ev0 & Hr) Hst. exists (ops ++ [op]), (ev0 ++ ev).
  revert Hr. generalize emptyStore. revert ev0.
  induction ops as [|o ops IH]; intros ev0 s0.
  - intros [= -> <-]. simpl. rewrite Hst. by rewrite app_nil_r.
  - intros Hr. apply run_cons in Hr as (s1 & e1 & e2 & H1 & H2 & ->).
    simpl. rewrite H1. rewrite (IH _ _ H2). by rewrite app_assoc.
Qed.

(** ** The claims *)

Lemma reachable_after ops :
  is_Some (run ops emptyStore) → reachable (after ops).
Proof.
  unfold after, reachable. intros [[s ev] E]. rewrite E. by exists ops, ev.
Qed.

(** *** Failed actions *)

(** C8. Whenever [handlePlayerAction] returns a failure (player or room
    lookup miss, illegal check, insufficient chips to call or raise,
    invalid raise amount, unknown action), the store it leaves is the
    store it started from, field for field, and no bet was applied. *)
Theorem handlePlayerAction_failure_atomic s sock action amount e s' ev :
  PokerGameManager.handlePlayerAction sock action amount s = (Err e, s', ev) →
  s' = s ∧ ev = [].
Proof.
  rewrite run_eq. intros [= Hv <- <-].
  by apply handlePlayerAction_failure in Hv.
Qed.

Lemma handlePlayerAction_failure_atomic_witness :
  PokerGameManager.handlePlayerAction "sb" "check" None (after raised) =
    (Err "Cannot check when there is a bet to call", after raised, []) ∧
  (after raised = after raised ∧ @nil Event = []).
Proof.
  assert (H : PokerGameManager.handlePlayerAction "sb" "check" None (after raised)
              = (Err "Cannot check when there is a bet to call", after raised, []))
    by (vm_compute; reflexivity).
  split; [exact H|].
  exact (handlePlayerAction_failure_atomic _ _ _ _ _ _ _ H).
Defined.

(** *** Chips never go negative *)

(** C5. In every store the server can reach, every operation (creating,
    joining and leaving a room, dealing, the ready and connected
    setters, and every [handlePlayerAction], whatever the action text and
    the amount, accepted or refused) leaves every player's chips
    non-negative. *)
Theorem chips_never_negative s op s' ev pid p' :
  reachable s → step op s = Some (s', ev) →
  players s' !! pid = Some p' → 0 <= p_chips p'.
Proof.
  intros Hr Hst Hp. apply wf_reachable in Hr.
  destruct (wf_step _ _ _ _ Hr Hst) as [_ Hn].
  by destruct (wf_chips s' Hn _ _ Hp).
Qed.

Lemma chips_never_negative_witness :
  reachable (after raised) ∧
  step (OpPlayerAction "sb" "all-in" None) (after raised) =
    Some (bob_all_in_late, [EvBet 2%nat 0%nat 1000]) ∧
  (p_chips <$> players bob_all_in_late !! 2%nat) = Some 0 ∧
  ∀ p', players bob_all_in_late !! 2%nat = Some p' → 0 <= p_chips p'.
Proof.
  assert (Hr : reachable (after raised)).
  { apply reachable_after. vm_compute. eauto. }
  assert (Hst : step (OpPlayerAction "sb" "all-in" None) (after raised) =
                Some (bob_all_in_late, [EvBet 2%nat 0%nat 1000])).
  { vm_compute. reflexivity. }
  split_and!; [exact Hr | exact Hst | vm_compute; reflexivity |].
  intros p' Hp. exact (chips_never_negative _ _ _ _ _ _ Hr Hst Hp).
Defined.

(** *** All-in *)

(** In a reachable store an all-in that finds its player and room bets
    the whole stack and marks the player, and leaves the room's current
    bet where it was: the test that would raise it reads the stack
    through the alias, after [updatePlayerBet] has emptied it. *)
Lemma all_in_run s sock amount :
  reachable s →
  (∃ e, PokerGameManager.handlePlayerAction sock "all-in" amount s = (Err e, s, []))
  ∨ (∃ player room,
       val (MemStorage.getPlayerBySocketId sock) s = Some player ∧
       rooms_get (rooms s) (p_roomId player) = Some room ∧
       PokerGameManager.handlePlayerAction sock "all-in" amount s =
       (Ok tt, placeBet s player room (p_chips player) (r_currentBet room),
        [EvBet (p_id player) (r_id room) (p_chips player)])).
Proof.
  intros Hr. apply wf_reachable in Hr as [Hs Hn].
  destruct (handlePlayerAction_lookup s sock "all-in" amount Hs)
    as [?|(pid & player & room & Hsk & Hp & Hid & Hroom & Hrid)]; [by left|].
  right. exists player, room. split_and!.
  - msimp. by rewrite Hsk.
  - done.
  - rewrite (handlePlayerAction_run s sock pid player room Hsk Hp Hid Hroom Hrid).
    simpl. rewrite Hid.
    pose proof (wf_bet s Hn _ _ (rooms_get_Some_elem _ _ _ Hroom)) as Hb.
    destruct (0 >? r_currentBet room) eqn:E; [lia | done].
Qed.

(** C2 (the code departs from the claim). Bob sits in room 0 with 1000
    chips, the room's current bet is 0, and Bob goes all-in: the action
    succeeds, his 1000 chips move into his current bet and into the pot,
    he is marked as having acted, and the room's current bet is still 0,
    not 1000. *)
Theorem all_in_leaves_room_bet :
  (p_chips <$> players (after dealt) !! 2%nat) = Some 1000 ∧
  (r_currentBet <$> rooms_get (rooms (after dealt)) 0%nat) = Some 0 ∧
  val (PokerGameManager.handlePlayerAction "sb" "all-in" None) (after dealt)
    = Ok tt ∧
  (p_chips <$> players bob_all_in !! 2%nat) = Some 0 ∧
  (p_currentBet <$> players bob_all_in !! 2%nat) = Some 1000 ∧
  (p_hasActed <$> players bob_all_in !! 2%nat) = Some true ∧
  (r_pot <$> rooms_get (rooms bob_all_in) 0%nat) = Some 1000 ∧
  (r_currentBet <$> rooms_get (rooms bob_all_in) 0%nat) = Some 0.
Proof. vm_compute. repeat split. Qed.

(** *** Joining again *)

(** C3 (as stated it fails). Ann sits in the full room ABC123 and joins
    it again with the same connection: the call is refused. *)
Lemma joinRoom_again_counterexample :
  (p_roomId <$> val (MemStorage.getPlayerBySocketId "sa") (after six_seated))
    = Some 0%nat ∧
  (r_id <$> val (MemStorage.getRoomByCode "ABC123") (after six_seated))
    = Some 0%nat ∧
  val (PokerGameManager.joinRoom "sa" "Ann" "ABC123") (after six_seated)
    = Err "Room is full".
Proof. vm_compute. repeat split. Qed.

(** C3 (amended). When a connection id maps to a player seated in the
    room with the given code and that room is not full, joining again
    succeeds, returns the existing player's id, and changes neither a
    room (so not its player count) nor a seat list nor the set of
    players. *)
Theorem joinRoom_again s sock name code room p :
  val (MemStorage.getRoomByCode code) s = Some room →
  r_currentPlayers room < r_maxPlayers room →
  val (MemStorage.getPlayerBySocketId sock) s = Some p →
  p_roomId p = r_id room →
  ∃ snapshot s',
    PokerGameManager.joinRoom sock name code s =
      (Ok (p_id p, snapshot), s', []) ∧
    rooms s' = rooms s ∧ playersByRoom s' = playersByRoom s ∧
    playersBySocket s' = playersBySocket s ∧
    ∀ pid, is_Some (players s' !! pid) ↔ is_Some (players s !! pid).
Proof.
  intros Hroom Hlt Hp Hrid. rewrite run_eq.
  unfold PokerGameManager.joinRoom. cbv zeta. msimp.
  rewrite Hroom. destruct (r_currentPlayers room >=? r_maxPlayers room) eqn:E;
    [lia|]. msimp.
  destruct (playersBySocket s !! sock) as [pid|] eqn:Hsk; [|done].
  rewrite Hp. rewrite decide_True by done. msimp. rewrite Hsk.
  do 2 eexists. split; [reflexivity|]. simpl. split_and!; try done.
  intros pid'. rewrite lookup_alter.
  destruct (decide (pid = pid')) as [<-|]; [|done].
  by rewrite fmap_is_Some.
Qed.

Lemma joinRoom_again_witness :
  ∃ room p,
    val (MemStorage.getRoomByCode "ABC123") (after two_seated) = Some room ∧
    r_currentPlayers room < r_maxPlayers room ∧
    val (MemStorage.getPlayerBySocketId "sb") (after two_seated) = Some p ∧
    p_roomId p = r_id room ∧
    ∃ snapshot s',
      PokerGameManager.joinRoom "sb" "Bob" "ABC123" (after two_seated) =
        (Ok (p_id p, snapshot), s', []) ∧
      rooms s' = rooms (after two_seated) ∧
      playersByRoom s' = playersByRoom (after two_seated) ∧
      playersBySocket s' = playersBySocket (after two_seated) ∧
      ∀ pid, is_Some (players s' !! pid) ↔
             is_Some (players (after two_seated) !! pid).
Proof.
  assert (H1 : ∃ room, val (MemStorage.getRoomByCode "ABC123") (after two_seated)
                       = Some room ∧ r_currentPlayers room = 2 ∧
                       r_maxPlayers room = 6 ∧ r_id room = 0%nat).
  { vm_compute. eexists. repeat split. }
  assert (H2 : ∃ p, val (MemStorage.getPlayerBySocketId "sb") (after two_seated)
                    = Some p ∧ p_roomId p = 0%nat).
  { vm_compute. eexists. repeat split. }
  destruct H1 as (room & R1 & R2 & R3 & R4).
  destruct H2 as (p & P1 & P2).
  assert (Hlt : r_currentPlayers room < r_maxPlayers room) by lia.
  assert (Hid : p_roomId p = r_id room) by congruence.
  exists room, p. split_and!; try done.
  exact (joinRoom_again _ "sb" "Bob" "ABC123" room p R1 Hlt P1 Hid).
Defined.

(** *** Dealing and the betting fields *)

#[global] Instance bets_kept_preorder : PreOrder bets_kept.
Proof.
  split.
  - intros s pid p Hp. by exists p.
  - intros s1 s2 s3 H12 H23 pid p3 Hp3.
    destruct (H23 _ _ Hp3) as (p2 & Hp2 & A1 & A2 & A3 & A4).
    destruct (H12 _ _ Hp2) as (p1 & Hp1 & B1 & B2 & B3 & B4).
    exists p1. split_and!; [done | congruence..].
Qed.

Lemma bets_kept_randomUUID : stays bets_kept randomUUID.
Proof. intros s pid p Hp. by exists p. Qed.

Lemma bets_kept_updateRoom id f : stays bets_kept (MemStorage.updateRoom id f).
Proof. intros s pid p. rewrite exec_updateRoom. simpl. intros Hp. by exists p. Qed.

Lemma bets_kept_setPlayerHand id cards :
  stays bets_kept (MemStorage.setPlayerHand id cards).
Proof.
  intros s pid p'. unfold MemStorage.setPlayerHand. rewrite exec_updatePlayer.
  simpl. rewrite lookup_alter. destruct (decide (id = pid)) as [<-|Hne].
  - destruct (players s !! id) as [p|]; [|done]. intros [= <-]. by exists p.
  - intros Hp. by exists p'.
Qed.

Lemma bets_kept_dealCards rid rnd :
  stays bets_kept (PokerGameManager.dealCards rid rnd).
Proof.
  unfold PokerGameManager.dealCards.
  unfold MemStorage.getRoomById, MemStorage.getPlayersByRoomId,
    MemStorage.updateRoomGameState.
  repeat lazymatch goal with
    | |- stays _ (MemStorage.updateRoom _ _) => apply bets_kept_updateRoom
    | |- stays _ (PokerGameManager.createDeck _) =>
        apply stays_createDeck; [apply _ | apply bets_kept_randomUUID]
    | |- stays _ (PokerGameManager.dealLoop _ _) =>
        apply stays_dealLoop; [apply _ | apply bets_kept_setPlayerHand]
    | |- _ => stays_common
    end.
Qed.

(** C1 (as stated it fails). Ann has raised to 100 and Bob has folded;
    the cards are dealt again, successfully; afterwards Bob is still
    folded, and Ann has still acted and still has a current bet of
    100. *)
Lemma dealCards_resets_counterexample :
  val (PokerGameManager.dealCards 0%nat (λ i, i)) (after folded) = Ok tt ∧
  (p_id <$> seated dealt_again 0%nat) = [1%nat; 2%nat] ∧
  (p_isFolded <$> players dealt_again !! 2%nat) = Some true ∧
  (p_hasActed <$> players dealt_again !! 1%nat) = Some true ∧
  (p_currentBet <$> players dealt_again !! 1%nat) = Some 100.
Proof. vm_compute. repeat split. Qed.

(** C1 (amended). Dealing resets none of the three fields: every player
    in the store after a deal was there before it, with the same
    [hasActed], [isFolded], [currentBet] and chips. *)
Theorem dealCards_keeps_bets s rid rnd s' ev pid p' :
  PokerGameManager.dealCards rid rnd s = (Ok tt, s', ev) →
  players s' !! pid = Some p' →
  ∃ p, players s !! pid = Some p ∧ p_hasActed p' = p_hasActed p ∧
       p_isFolded p' = p_isFolded p ∧ p_currentBet p' = p_currentBet p ∧
       p_chips p' = p_chips p.
Proof.
  rewrite run_eq. intros [= _ <- _]. apply bets_kept_dealCards.
Qed.

Lemma dealCards_keeps_bets_witness :
  PokerGameManager.dealCards 0%nat (λ i, i) (after folded) =
    (Ok tt, dealt_again, [EvDeal 0%nat]) ∧
  (p_isFolded <$> players dealt_again !! 2%nat) = Some true ∧
  ∀ p', players dealt_again !! 2%nat = Some p' →
    ∃ p, players (after folded) !! 2%nat = Some p ∧
         p_hasActed p' = p_hasActed p ∧ p_isFolded p' = p_isFolded p ∧
         p_currentBet p' = p_currentBet p ∧ p_chips p' = p_chips p.
Proof.
  assert (H : PokerGameManager.dealCards 0%nat (λ i, i) (after folded) =
              (Ok tt, dealt_again, [EvDeal 0%nat])).
  { vm_compute. reflexivity. }
  split_and!; [exact H | vm_compute; reflexivity |].
  intros p' Hp. exact (dealCards_keeps_bets _ _ _ _ _ _ _ H Hp).
Defined.

(** *** Chip conservation *)

Lemma sum_chips_insert (m : gmap uuid Player) pid p p' (l : list uuid) :
  NoDup l → m !! pid = Some p →
  sumZ (p_chips <$> omap (λ id, <[pid := p']> m !! id) l) =
  sumZ (p_chips <$> omap (λ id, m !! id) l) +
  (if decide (pid ∈ l) then p_chips p' - p_chips p else 0).
Proof.
  intros Hnd Hp. induction l as [|a l IH].
  - destruct (decide (pid ∈ [])) as [Hin|_]; [|done].
    by apply elem_of_nil in Hin.
  - apply NoDup_cons in Hnd as [Ha Hnd]. specialize (IH Hnd).
    assert (Hcons : ∀ f : uuid → option Player,
      sumZ (p_chips <$> omap f (a :: l)) =
      match f a with Some q => p_chips q | None => 0 end +
      sumZ (p_chips <$> omap f l)).
    { intros f. simpl. by destruct (f a). }
    rewrite !Hcons, IH, lookup_insert.
    destruct (decide (pid = a)) as [->|Hne].
    + rewrite Hp. rewrite (decide_False (P := a ∈ l)) by done.
      rewrite decide_True by left. lia.
    + destruct (decide (pid ∈ l)) as [Hin|Hnin].
      * rewrite decide_True by (by right). lia.
      * rewrite decide_False; [lia|].
        intros Hin. apply elem_of_cons in Hin as [?|?]; done.
Qed.

Lemma seated_eq s rid :
  seated s rid =
  omap (λ id, players s !! id) (default [] (playersByRoom s !! rid)).
Proof. done. Qed.

Lemma roomChips_update s s' player p' rid room :
  wf_struct s → players s !! p_id player = Some player →
  rooms_get (rooms s) rid = Some room →
  playersByRoom s' = playersByRoom s →
  players s' = <[p_id player := p']> (players s) →
  roomChips s' rid =
  roomChips s rid +
  (if decide (rid = p_roomId player) then p_chips p' - p_chips player else 0).
Proof.
  intros Hs Hp Hr El Ep.
  destruct (wf_room s Hs _ _ Hr) as (_ & _ & _ & l & L1 & L2 & _ & _ & L5).
  destruct (wf_player s Hs _ _ Hp) as (_ & _ & _ & P4).
  unfold roomChips. rewrite !seated_eq, El, Ep, L1. simpl.
  rewrite (sum_chips_insert _ _ player) by done. f_equal.
  destruct (decide (rid = p_roomId player)) as [->|Hne].
  - destruct P4 as (l' & L1' & Hin); [eauto|].
    rewrite L1 in L1'. injection L1' as <-. by rewrite decide_True.
  - rewrite decide_False; [done|]. intros Hin.
    destruct (L5 _ Hin) as (q & Hq & Hqr). rewrite Hp in Hq.
    injection Hq as <-. done.
Qed.

Lemma conserve_markPlayer s player f rid room :
  wf_struct s → players s !! p_id player = Some player →
  p_chips (f player) = p_chips player →
  rooms_get (rooms s) rid = Some room →
  ∃ room', rooms_get (rooms (markPlayer s player f)) rid = Some room' ∧
           r_pot room' + roomChips (markPlayer s player f) rid =
           r_pot room + roomChips s rid.
Proof.
  intros Hs Hp Hf Hr. exists room. split; [done|].
  rewrite (roomChips_update s _ player (f player) rid room) by done.
  destruct (decide (rid = p_roomId player)); lia.
Qed.

Lemma conserve_placeBet s player room0 d roomBet rid room :
  wf_struct s → players s !! p_id player = Some player →
  rooms_get (rooms s) (p_roomId player) = Some room0 →
  r_id room0 = p_roomId player →
  rooms_get (rooms s) rid = Some room →
  ∃ room', rooms_get (rooms (placeBet s player room0 d roomBet)) rid = Some room' ∧
           r_pot room' + roomChips (placeBet s player room0 d roomBet) rid =
           r_pot room + roomChips s rid.
Proof.
  intros Hs Hp Hr0 Hid Hr.
  rewrite (roomChips_update s _ player
             (player_with_hasActed (player_add_bet player d) true) rid room)
    by done.
  simpl. rewrite rooms_get_set, Hid.
  destruct (decide (p_roomId player = rid)) as [<-|Hne].
  - rewrite decide_True by done. eexists. split; [done|]. simpl.
    rewrite Hr0 in Hr. injection Hr as <-. lia.
  - rewrite decide_False by done. exists room. split; [done | lia].
Qed.

(** Conservation on integer amounts.  As long as every amount is an
    integer, a successful [updatePlayerBet] leaves the player's chips plus
    current bet unchanged (the bet grows by the delta, the stack shrinks
    by it) and adds exactly the delta to the pot of the player's room, and
    in every reachable store a successful [handlePlayerAction] leaves, for
    every room, the pot plus the chips of the players seated in the room
    unchanged.  This is what the code sets out to do; on the amounts the
    gateway admits it does not hold, see
    [chip_conservation_fails_on_doubles]. *)
Theorem chip_conservation s :
  (∀ id d p r,
     players s !! id = Some p → rooms_get (rooms s) (p_roomId p) = Some r →
     ∃ p' r',
       players (exec (MemStorage.updatePlayerBet id d) s) !! id = Some p' ∧
       p_chips p' + p_currentBet p' = p_chips p + p_currentBet p ∧
       p_currentBet p' = p_currentBet p + d ∧
       rooms_get (rooms (exec (MemStorage.updatePlayerBet id d) s)) (p_roomId p)
         = Some r' ∧
       r_pot r' = r_pot r + d) ∧
  (reachable s →
   ∀ sock action amount s' ev,
     PokerGameManager.handlePlayerAction sock action amount s = (Ok tt, s', ev) →
     ∀ rid room, rooms_get (rooms s) rid = Some room →
       ∃ room', rooms_get (rooms s') rid = Some room' ∧
                r_pot room' + roomChips s' rid = r_pot room + roomChips s rid).
Proof.
  split.
  - intros id d p r Hp Hr. rewrite exec_updatePlayerBet, Hp. simpl.
    rewrite lookup_insert_eq, rooms_get_alter, decide_True, Hr by done.
    do 2 eexists. split_and!; try done. simpl. lia.
  - intros Hreach sock action amount s' ev Hrun rid room Hroom.
    apply wf_reachable in Hreach as [Hs Hn].
    destruct (handlePlayerAction_lookup s sock action amount Hs)
      as [[e He]|(pid & player & room0 & Hsk & Hp & Hid & Hr0 & Hrid)];
      [congruence|].
    rewrite (handlePlayerAction_run s sock pid player room0 Hsk Hp Hid Hr0 Hrid)
      in Hrun.
    rewrite <- Hid in Hp. cbv zeta in Hrun.
    destruct (String.eqb action "fold").
    { injection Hrun as <- _. by apply conserve_markPlayer. }
    destruct (String.eqb action "check").
    { destruct (r_currentBet room0 >? p_currentBet player); [discriminate|].
      injection Hrun as <- _. by apply conserve_markPlayer. }
    destruct (String.eqb action "call").
    { destruct (r_currentBet room0 - p_currentBet player >? p_chips player);
        [discriminate|].
      injection Hrun as <- _. by apply conserve_placeBet. }
    destruct (String.eqb action "raise").
    { destruct (PokerGameManager.raiseRejected amount (r_currentBet room0));
        [discriminate|].
      destruct (default 0 amount >? p_chips player); [discriminate|].
      injection Hrun as <- _. by apply conserve_placeBet. }
    destruct (String.eqb action "all-in"); [|discriminate].
    injection Hrun as <- _. by apply conserve_placeBet.
Qed.

Lemma chip_conservation_witness :
  (p_chips <$> players (after dealt) !! 1%nat) = Some 1000 ∧
  (r_pot <$> rooms_get (rooms (after dealt)) 0%nat) = Some 0 ∧
  reachable (after dealt) ∧
  PokerGameManager.handlePlayerAction "sa" "raise" (Some 100) (after dealt) =
    (Ok tt, ann_raised, [EvBet 1%nat 0%nat 100]) ∧
  (∃ p' r',
     players (exec (MemStorage.updatePlayerBet 1%nat 100) (after dealt)) !! 1%nat
       = Some p' ∧
     p_chips p' + p_currentBet p' = 1000 + 0 ∧ r_pot r' = 0 + 100) ∧
  (∃ room', rooms_get (rooms ann_raised) 0%nat = Some room' ∧
            r_pot room' + roomChips ann_raised 0%nat = 0 + 2000).
Proof.
  assert (Hp : ∃ p, players (after dealt) !! 1%nat = Some p ∧ p_chips p = 1000 ∧
                    p_currentBet p = 0 ∧ p_roomId p = 0%nat).
  { vm_compute. eexists. repeat split. }
  assert (Hr : ∃ r, rooms_get (rooms (after dealt)) 0%nat = Some r ∧ r_pot r = 0).
  { vm_compute. eexists. repeat split. }
  assert (Hc : roomChips (after dealt) 0%nat = 2000) by (vm_compute; reflexivity).
  assert (Hreach : reachable (after dealt)).
  { apply reachable_after. vm_compute. eauto. }
  assert (Hrun : PokerGameManager.handlePlayerAction "sa" "raise" (Some 100)
                   (after dealt) = (Ok tt, ann_raised, [EvBet 1%nat 0%nat 100])).
  { vm_compute. reflexivity. }
  destruct Hp as (p & P1 & P2 & P3 & P4). destruct Hr as (r & R1 & R2).
  destruct (chip_conservation (after dealt)) as [Ha Hb].
  split; [rewrite P1; simpl; rewrite P2; reflexivity|].
  split; [rewrite R1; simpl; rewrite R2; reflexivity|].
  split; [exact Hreach|]. split; [exact Hrun|]. split.
  - rewrite <- P4 in R1.
    destruct (Ha 1%nat 100 p r P1 R1) as (p' & r' & A1 & A2 & A3 & A4 & A5).
    exists p', r'. split; [exact A1|]. split; lia.
  - destruct (Hb Hreach _ _ _ _ _ Hrun 0%nat r R1) as (room' & B1 & B2).
    exists room'. split; [exact B1 | lia].
Defined.

(** C10 (the code departs from the claim).  Ann has opened a room: she
    holds 1000 chips and no bet, the pot is empty.  She raises to 0.2 and
    then to 0.9, two amounts the gateway lets through, and both raises
    are accepted.  After the first raise her chips and current bet add up
    to 1000, and so do the pot and her chips.  The second raise calls
    [updatePlayerBet] with 0.9 - 0.2; after it her chips and current bet
    add up to 999.9999999999999, and so do the pot and her chips, and her
    current bet is 0.8999999999999999 under a room bet of 0.9.  The sums
    are the ones JavaScript computes, that is, the real sums rounded to
    the nearest double; as they differ, the real sums differ, too. *)
Lemma chip_conservation_fails_on_doubles :
  Doubles.handlePlayerAction "raise" (Some 0.2%float)
      Doubles.host Doubles.opened =
    Ok (Doubles.mkPlayer 999.8 0.2 true false, Doubles.mkRoom 0.2 0.2) ∧
  Doubles.handlePlayerAction "raise" (Some 0.9%float)
      (Doubles.mkPlayer 999.8 0.2 true false) (Doubles.mkRoom 0.2 0.2) =
    Ok (Doubles.mkPlayer 999.0999999999999 0.8999999999999999 true false,
        Doubles.mkRoom 0.8999999999999999 0.9) ∧
  Doubles.updatePlayerBet
      (Doubles.mkPlayer 999.8 0.2 true false) (Doubles.mkRoom 0.2 0.2)
      (0.9 - 0.2)%float =
    (Doubles.mkPlayer 999.0999999999999 0.8999999999999999 true false,
     Doubles.mkRoom 0.8999999999999999 0.2) ∧
  (999.8 + 0.2 = 1000)%float ∧
  (999.0999999999999 + 0.8999999999999999 = 999.9999999999999)%float ∧
  (0.2 + 999.8 = 1000)%float ∧
  (0.8999999999999999 + 999.0999999999999 = 999.9999999999999)%float ∧
  PrimFloat.ltb 999.9999999999999 1000 = true.
Proof. vm_compute. repeat split. Qed.

(** *** Leaving a room *)

Lemma length_omap_total {A B} (f : A → option B) (l : list A) :
  (∀ x, x ∈ l → is_Some (f x)) → length (omap f l) = length l.
Proof.
  induction l as [|a l IH]; intros Hf; [done|]. simpl.
  destruct (Hf a) as [b Hb]; [left|]. rewrite Hb. simpl. f_equal.
  apply IH. intros x Hx. apply Hf. by right.
Qed.

Lemma length_seated s rid room :
  wf_struct s → rooms_get (rooms s) rid = Some room →
  Z.of_nat (length (seated s rid)) = r_currentPlayers room ∧
  r_currentPlayers room <= 6.
Proof.
  intros Hs Hr.
  destruct (wf_room s Hs _ _ Hr) as (_ & _ & _ & l & L1 & L2 & L3 & L4 & L5).
  rewrite seated_eq, L1. simpl. rewrite length_omap_total; [done|].
  intros x Hx. destruct (L5 _ Hx) as (p & Hp & _). eauto.
Qed.

(** What [leaveRoom] leaves when it finds its player and room: the
    player is unseated, and the room is deleted when the count written
    back is at most 1. *)
Lemma leaveRoom_run s sock player room :
  wf_struct s →
  val (MemStorage.getPlayerBySocketId sock) s = Some player →
  rooms_get (rooms s) (p_roomId player) = Some room →
  let unseated :=
    exec (MemStorage.updateRoomPlayerCount
            (r_id room) (Z.max 0 (r_currentPlayers room - 1)))
         (exec (MemStorage.removePlayer (p_id player)) s) in
  1 <= r_currentPlayers room ∧
  PokerGameManager.leaveRoom sock s =
  (Ok tt,
   if r_currentPlayers room - 1 <=? 1
   then exec (MemStorage.deleteRoom (p_roomId player)) unseated
   else unseated,
   []).
Proof.
  intros Hs Hp Hr unseated.
  destruct (wf_lookup_player s _ _ Hs Hp) as (Hsk & Hpl & Hsid).
  destruct (wf_room s Hs _ _ Hr) as (Hrid & _ & _ & l & L1 & L2 & L3 & L4 & L5).
  destruct (wf_player s Hs _ _ Hpl) as (_ & _ & _ & P4).
  destruct P4 as (l' & L1' & Hin); [eauto|].
  rewrite L1 in L1'. injection L1' as <-.
  assert (Hpos : 1 <= r_currentPlayers room).
  { destruct l; [by apply elem_of_nil in Hin | simpl in L3; lia]. }
  split; [done|].
  clear Hp. rewrite run_eq. subst unseated.
  unfold PokerGameManager.leaveRoom, MemStorage.removePlayer,
    MemStorage.deleteRoom.
  msimp. rewrite Hsk, Hpl. msimp. rewrite Hr. msimp. rewrite Hpl. simpl.
  rewrite rooms_get_alter, decide_True by done. rewrite Hrid, Hr. simpl.
  replace (0 `max` (r_currentPlayers room - 1)) with (r_currentPlayers room - 1)
    by lia.
  destruct (r_currentPlayers room - 1 <=? 1); msimp; done.
Qed.

Lemma leaveRoom_lookup s sock :
  (∃ e, PokerGameManager.leaveRoom sock s = (Err e, s, []))
  ∨ (∃ player room,
       val (MemStorage.getPlayerBySocketId sock) s = Some player ∧
       rooms_get (rooms s) (p_roomId player) = Some room).
Proof.
  destruct (val (MemStorage.getPlayerBySocketId sock) s) as [player|] eqn:Hp.
  - destruct (rooms_get (rooms s) (p_roomId player)) as [room|] eqn:Hr.
    + right. by exists player, room.
    + left. eexists. rewrite run_eq. unfold PokerGameManager.leaveRoom.
      rewrite val_bind, exec_bind, log_bind, Hp.
      unfold MemStorage.getPlayerBySocketId, MemStorage.getRoomById.
      msimp. rewrite Hr. msimp. done.
  - left. eexists. rewrite run_eq. unfold PokerGameManager.leaveRoom.
    rewrite val_bind, exec_bind, log_bind, Hp.
    unfold MemStorage.getPlayerBySocketId. msimp. done.
Qed.

Lemma rooms_unseated s player room c :
  players s !! p_id player = Some player →
  rooms (exec (MemStorage.updateRoomPlayerCount (r_id room) c)
              (exec (MemStorage.removePlayer (p_id player)) s)) =
  rooms_alter (λ r, room_with_currentPlayers r c) (r_id room) (rooms s).
Proof.
  intros Hp. unfold MemStorage.removePlayer, MemStorage.updateRoomPlayerCount.
  msimp. by rewrite Hp.
Qed.

(** C6. In a reachable store, when [leaveRoom] succeeds for a room in
    which exactly 2 players were seated, the room is deleted and a
    lookup by its former code finds nothing; when 3 or more players were
    seated, the room stays and its code still finds it. *)
Theorem leaveRoom_teardown s sock s' ev :
  reachable s → PokerGameManager.leaveRoom sock s = (Ok tt, s', ev) →
  ∃ player room,
    val (MemStorage.getPlayerBySocketId sock) s = Some player ∧
    rooms_get (rooms s) (p_roomId player) = Some room ∧
    (length (seated s (p_roomId player)) = 2%nat →
     rooms_get (rooms s') (p_roomId player) = None ∧
     val (MemStorage.getRoomByCode (r_code room)) s' = None) ∧
    ((3 <= length (seated s (p_roomId player)))%nat →
     ∃ room', rooms_get (rooms s') (p_roomId player) = Some room' ∧
              val (MemStorage.getRoomByCode (r_code room)) s' = Some room').
Proof.
  intros Hreach Hrun. apply wf_reachable in Hreach as [Hs _].
  destruct (leaveRoom_lookup s sock) as [[e He]|(player & room & Hp & Hr)];
    [congruence|].
  exists player, room. split; [done|]. split; [done|].
  destruct (wf_lookup_player s _ _ Hs Hp) as (Hsk & Hpl & Hsid).
  destruct (wf_room s Hs _ _ Hr) as (Hrid & _).
  destruct (length_seated s _ _ Hs Hr) as [Hlen _].
  pose proof (wf_struct_unseat s sock _ player room Hs Hsk Hpl Hr) as Hun.
  pose proof (rooms_unseated s player room
                (Z.max 0 (r_currentPlayers room - 1)) Hpl) as Hrooms.
  destruct (leaveRoom_run s sock player room Hs Hp Hr) as [Hpos Heq].
  rewrite Heq in Hrun. clear Heq. injection Hrun as <- _.
  set (unseated := exec (MemStorage.updateRoomPlayerCount _ _) _) in *.
  split.
  - intros H2. rewrite H2 in Hlen.
    destruct (r_currentPlayers room - 1 <=? 1) eqn:E; [|lia].
    pose proof (wf_struct_deleteRoom unseated (p_roomId player) Hun) as Hdel.
    assert (Hget : ∀ k, rooms_get
              (rooms (exec (MemStorage.deleteRoom (p_roomId player)) unseated)) k =
              if decide (p_roomId player = k) then None
              else rooms_get (rooms s) k).
    { intros k. unfold MemStorage.deleteRoom. msimp. simpl.
      rewrite rooms_get_delete by apply Hun.
      destruct (decide (p_roomId player = k)) as [|Hne]; [done|].
      rewrite Hrooms, rooms_get_alter, Hrid. by rewrite decide_False. }
    split; [by rewrite Hget, decide_True|].
    unfold MemStorage.getRoomByCode. rewrite val_gets.
    destruct (rooms_find_code _ (r_code room)) as [r|] eqn:Hf; [|done].
    exfalso. destruct (wf_lookup_code _ _ _ Hdel Hf) as [Hk Hc].
    rewrite Hget in Hk.
    destruct (decide (p_roomId player = r_id r)) as [|Hne]; [done|].
    apply Hne. symmetry. by eapply (wf_codes s Hs).
  - intros H3. destruct (r_currentPlayers room - 1 <=? 1) eqn:E; [lia|].
    assert (Hk : rooms_get (rooms unseated) (p_roomId player) =
                 Some (room_with_currentPlayers room
                         (Z.max 0 (r_currentPlayers room - 1)))).
    { by rewrite Hrooms, rooms_get_alter, Hrid, decide_True, Hr. }
    eexists. split; [exact Hk|].
    unfold MemStorage.getRoomByCode. rewrite val_gets.
    by rewrite <- (wf_code_lookup unseated _ _ Hun Hk).
Qed.

Lemma leaveRoom_teardown_witness :
  reachable (after two_seated) ∧ reachable (after three_seated) ∧
  PokerGameManager.leaveRoom "sa" (after two_seated) = (Ok tt, ann_left, []) ∧
  length (seated (after two_seated) 0%nat) = 2%nat ∧
  val (MemStorage.getRoomByCode "ABC123") ann_left = None ∧
  length (seated (after three_seated) 0%nat) = 3%nat ∧
  (r_id <$> val (MemStorage.getRoomByCode "ABC123")
              (exec (PokerGameManager.leaveRoom "sa") (after three_seated)))
    = Some 0%nat.
Proof.
  assert (R2 : reachable (after two_seated)).
  { apply reachable_after. vm_compute. eauto. }
  assert (R3 : reachable (after three_seated)).
  { apply reachable_after. vm_compute. eauto. }
  assert (E2 : PokerGameManager.leaveRoom "sa" (after two_seated) =
               (Ok tt, ann_left, [])) by (vm_compute; reflexivity).
  assert (E3 : PokerGameManager.leaveRoom "sa" (after three_seated) =
               (Ok tt, exec (PokerGameManager.leaveRoom "sa") (after three_seated),
                [])) by (vm_compute; reflexivity).
  assert (L2 : length (seated (after two_seated) 0%nat) = 2%nat)
    by (vm_compute; reflexivity).
  assert (L3 : length (seated (after three_seated) 0%nat) = 3%nat)
    by (vm_compute; reflexivity).
  split; [exact R2|]. split; [exact R3|]. split; [exact E2|].
  split; [exact L2|]. split; [|split; [exact L3|]].
  - destruct (leaveRoom_teardown _ _ _ _ R2 E2)
      as (player & room & Hp & Hr & Hdel & _).
    assert (Hid : p_roomId player = 0%nat).
    { revert Hp. vm_compute. by intros [= <-]. }
    rewrite Hid in Hr, Hdel. destruct (Hdel L2) as [_ Hnone].
    assert (Hc : r_code room = "ABC123").
    { revert Hr. vm_compute. by intros [= <-]. }
    by rewrite Hc in Hnone.
  - destruct (leaveRoom_teardown _ _ _ _ R3 E3)
      as (player & room & Hp & Hr & _ & Hkeep).
    assert (Hid : p_roomId player = 0%nat).
    { revert Hp. vm_compute. by intros [= <-]. }
    rewrite Hid in Hr, Hkeep. destruct Hkeep as (room' & Hk & Hf); [lia|].
    assert (Hc : r_code room = "ABC123").
    { revert Hr. vm_compute. by intros [= <-]. }
    rewrite Hc in Hf. rewrite Hf. simpl. f_equal.
    revert Hk. vm_compute. by intros [= <-].
Defined.

(** C7 (the code departs from the claim).  Ann and Bob sit in room 0,
    whose player count is 2, and Ann leaves.  [removePlayer] takes Ann
    out and leaves Bob seated; the count written back is 1.  The test
    that follows, announced by the comment "If room is empty, delete it",
    reads [room.currentPlayers] from the stored object after that write,
    finds 1 <= 1 and deletes the room with Bob in it.  Bob is not
    evicted: his record is still in the store, found by his connection
    id, and names room 0, which no longer exists under its id or its
    code. *)
Lemma leaveRoom_deletes_occupied_room :
  (r_currentPlayers <$> rooms_get (rooms (after two_seated)) 0%nat) = Some 2 ∧
  (p_name <$> seated (exec (MemStorage.removePlayer 1%nat) (after two_seated))
                     0%nat) = ["Bob"] ∧
  (r_currentPlayers <$>
     rooms_get (rooms (exec (MemStorage.updateRoomPlayerCount 0%nat 1)
                        (exec (MemStorage.removePlayer 1%nat)
                              (after two_seated)))) 0%nat) = Some 1 ∧
  PokerGameManager.leaveRoom "sa" (after two_seated) = (Ok tt, ann_left, []) ∧
  rooms_get (rooms ann_left) 0%nat = None ∧
  val (MemStorage.getRoomByCode "ABC123") ann_left = None ∧
  (p_name <$> val (MemStorage.getPlayerBySocketId "sb") ann_left) = Some "Bob" ∧
  (p_roomId <$> val (MemStorage.getPlayerBySocketId "sb") ann_left) = Some 0%nat.
Proof. vm_compute. repeat split. Qed.

(** The teardown in general.  In a reachable store, when [leaveRoom]
    tears a room down because the count after the removal is at most 1,
    it deletes the room and its seat list and nothing else: the record of
    every other connection's player, in particular of the player who
    stays behind, is still returned, unchanged, by a lookup by connection
    id. *)
Theorem leaveRoom_keeps_others s sock player room sock' q :
  reachable s →
  val (MemStorage.getPlayerBySocketId sock) s = Some player →
  rooms_get (rooms s) (p_roomId player) = Some room →
  r_currentPlayers room - 1 <= 1 →
  sock' ≠ sock →
  val (MemStorage.getPlayerBySocketId sock') s = Some q →
  rooms_get (rooms (exec (PokerGameManager.leaveRoom sock) s)) (p_roomId player)
    = None ∧
  playersByRoom (exec (PokerGameManager.leaveRoom sock) s) !! p_roomId player
    = None ∧
  val (MemStorage.getPlayerBySocketId sock')
      (exec (PokerGameManager.leaveRoom sock) s) = Some q.
Proof.
  intros Hreach Hp Hr Hlow Hne Hq. apply wf_reachable in Hreach as [Hs _].
  destruct (wf_lookup_player s _ _ Hs Hp) as (Hsk & Hpl & Hsid).
  destruct (wf_lookup_player s _ _ Hs Hq) as (Hsk' & Hpl' & Hsid').
  pose proof (wf_struct_unseat s sock _ player room Hs Hsk Hpl Hr) as Hun.
  destruct (leaveRoom_run s sock player room Hs Hp Hr) as [_ Heq].
  unfold exec at 1 2 3. rewrite Heq. simpl. clear Heq.
  destruct (r_currentPlayers room - 1 <=? 1) eqn:E; [|lia].
  set (unseated := exec (MemStorage.updateRoomPlayerCount _ _) _) in *.
  assert (Hpl2 : players unseated = delete (p_id player) (players s)).
  { unfold unseated, MemStorage.removePlayer, MemStorage.updateRoomPlayerCount.
    msimp. by rewrite Hpl. }
  assert (Hsk2 : playersBySocket unseated =
                 delete (p_socketId player) (playersBySocket s)).
  { unfold unseated, MemStorage.removePlayer, MemStorage.updateRoomPlayerCount.
    msimp. by rewrite Hpl. }
  unfold MemStorage.deleteRoom. msimp. simpl. split_and!.
  - rewrite rooms_get_delete by apply Hun. by rewrite decide_True.
  - apply lookup_delete_eq.
  - rewrite Hsk2, Hpl2, Hsid, lookup_delete_ne, Hsk' by done.
    rewrite lookup_delete_ne; [done|]. intros E'.
    rewrite <- E', Hpl in Hpl'. injection Hpl' as <-. congruence.
Qed.

Lemma leaveRoom_keeps_others_witness :
  reachable (after two_seated) ∧
  (r_currentPlayers <$> rooms_get (rooms (after two_seated)) 0%nat) = Some 2 ∧
  (p_name <$> val (MemStorage.getPlayerBySocketId "sb") ann_left) = Some "Bob".
Proof.
  assert (R2 : reachable (after two_seated)).
  { apply reachable_after. vm_compute. eauto. }
  assert (Hp : ∃ p, val (MemStorage.getPlayerBySocketId "sa") (after two_seated)
                    = Some p ∧ p_roomId p = 0%nat).
  { vm_compute. eexists. repeat split. }
  assert (Hr : ∃ r, rooms_get (rooms (after two_seated)) 0%nat = Some r ∧
                    r_currentPlayers r = 2).
  { vm_compute. eexists. repeat split. }
  assert (Hq : ∃ q, val (MemStorage.getPlayerBySocketId "sb") (after two_seated)
                    = Some q ∧ p_name q = "Bob").
  { vm_compute. eexists. repeat split. }
  destruct Hp as (p & P1 & P2). destruct Hr as (r & R1 & R3).
  destruct Hq as (q & Q1 & Q2).
  split_and!; [done | by rewrite R1; simpl; rewrite R3 |].
  rewrite <- P2 in R1.
  assert (Hlow : r_currentPlayers r - 1 <= 1) by lia.
  assert (Hne : "sb" ≠ "sa") by done.
  destruct (leaveRoom_keeps_others _ "sa" p r "sb" q R2 P1 R1 Hlow Hne Q1)
    as (_ & _ & Hkept).
  unfold ann_left. rewrite Hkept. simpl. by rewrite Q2.
Defined.

(** *** Dealing *)

#[global] Instance only_uuid_preorder : PreOrder only_uuid.
Proof.
  split; [by intros s|].
  intros s1 s2 s3 (A1 & A2 & A3 & A4) (B1 & B2 & B3 & B4).
  split_and!; congruence.
Qed.

#[global] Instance only_players_preorder : PreOrder only_players.
Proof.
  split; [by intros s|].
  intros s1 s2 s3 (A1 & A2 & A3) (B1 & B2 & B3). split_and!; congruence.
Qed.

Lemma createDeck_only_uuid rnd s :
  only_uuid s (exec (PokerGameManager.createDeck rnd) s).
Proof. by apply (stays_createDeck only_uuid). Qed.

Lemma dealLoop_only_players ps deck s :
  only_players s (exec (PokerGameManager.dealLoop ps deck) s).
Proof.
  apply (stays_dealLoop only_players). intros id cards s0.
  unfold MemStorage.setPlayerHand. by rewrite exec_updatePlayer.
Qed.

Lemma pushValues_log suit vs deck s :
  log (PokerGameManager.pushValues suit vs deck) s = [].
Proof.
  revert deck s. induction vs as [|v vs IH]; intros deck s; simpl; [done|].
  by rewrite log_bind, log_randomUUID, IH.
Qed.

Lemma pushSuits_log ss deck s : log (PokerGameManager.pushSuits ss deck) s = [].
Proof.
  revert deck s.
  induction ss as [|x ss IH]; intros deck s; cbn [PokerGameManager.pushSuits];
    [done|].
  by rewrite log_bind, pushValues_log, IH.
Qed.

Lemma createDeck_log rnd s : log (PokerGameManager.createDeck rnd) s = [].
Proof.
  unfold PokerGameManager.createDeck. by rewrite log_bind, pushSuits_log, log_ret.
Qed.

Lemma dealLoop_log ps deck s : log (PokerGameManager.dealLoop ps deck) s = [].
Proof.
  revert deck s. induction ps as [|p ps IH]; intros deck s; simpl; [done|].
  unfold MemStorage.setPlayerHand. by rewrite log_bind, log_updatePlayer, IH.
Qed.

Lemma pushValues_length suit vs deck s :
  length (val (PokerGameManager.pushValues suit vs deck) s) =
  (length deck + length vs)%nat.
Proof.
  revert deck s. induction vs as [|v vs IH]; intros deck s; simpl.
  - rewrite val_ret. lia.
  - rewrite val_bind, IH, length_app. simpl. lia.
Qed.

Lemma pushSuits_length ss deck s :
  length (val (PokerGameManager.pushSuits ss deck) s) =
  (length deck + 13 * length ss)%nat.
Proof.
  revert deck s.
  induction ss as [|x ss IH]; intros deck s; cbn [PokerGameManager.pushSuits].
  - rewrite val_ret. simpl. lia.
  - rewrite val_bind, IH, pushValues_length. simpl. lia.
Qed.

Lemma swap_length l i j : length (PokerGameManager.swap l i j) = length l.
Proof.
  unfold PokerGameManager.swap.
  destruct (l !! i); [|done]. destruct (l !! j); [|done].
  by rewrite !length_insert.
Qed.

Lemma shuffleLoop_length rnd i l :
  length (PokerGameManager.shuffleLoop rnd i l) = length l.
Proof.
  revert l. induction i as [|i IH]; intros l; simpl; [done|].
  by rewrite IH, swap_length.
Qed.

Lemma createDeck_length rnd s :
  length (val (PokerGameManager.createDeck rnd) s) = 52%nat.
Proof.
  unfold PokerGameManager.createDeck, PokerGameManager.shuffleDeck.
  rewrite val_bind, val_ret, shuffleLoop_length, pushSuits_length. done.
Qed.

Lemma dealLoop_val ps deck s :
  val (PokerGameManager.dealLoop ps deck) s = drop (4 * length ps) deck.
Proof.
  revert deck s. induction ps as [|p ps IH]; intros deck s.
  - done.
  - cbn [PokerGameManager.dealLoop]. rewrite val_bind, IH, drop_drop.
    f_equal. simpl. lia.
Qed.

Lemma dealLoop_keeps_four ps deck s pid :
  (4 * length ps <= length deck)%nat →
  (∀ q, players s !! pid = Some q → four_cards q) →
  ∀ q', players (exec (PokerGameManager.dealLoop ps deck) s) !! pid = Some q' →
        four_cards q'.
Proof.
  revert deck s. induction ps as [|p ps IH]; intros deck s Hlen Hq; [done|].
  cbn [PokerGameManager.dealLoop]. rewrite exec_bind.
  apply IH.
  - rewrite length_drop. simpl in Hlen. lia.
  - unfold MemStorage.setPlayerHand. rewrite exec_updatePlayer. simpl.
    intros q. rewrite lookup_alter.
    destruct (decide (p_id p = pid)) as [E|Hne]; [|apply Hq].
    destruct (players s !! p_id p) as [q0|]; [|done]. intros [= <-].
    exists (take 4 deck). split; [done|]. rewrite length_take.
    simpl in Hlen. lia.
Qed.

Lemma dealLoop_deals_four ps deck s pid :
  (4 * length ps <= length deck)%nat → pid ∈ (p_id <$> ps) →
  ∀ q', players (exec (PokerGameManager.dealLoop ps deck) s) !! pid = Some q' →
        four_cards q'.
Proof.
  revert deck s. induction ps as [|p ps IH]; intros deck s Hlen Hin.
  - by apply elem_of_nil in Hin.
  - cbn [PokerGameManager.dealLoop]. rewrite exec_bind.
    assert (Hlen' : (4 * length ps <= length (drop 4 deck))%nat).
    { rewrite length_drop. simpl in Hlen. lia. }
    rewrite fmap_cons in Hin. apply elem_of_cons in Hin as [->|Hin].
    + apply dealLoop_keeps_four; [done|].
      unfold MemStorage.setPlayerHand. rewrite exec_updatePlayer. simpl.
      intros q. rewrite lookup_alter_eq.
      destruct (players s !! p_id p) as [q0|]; [|done]. intros [= <-].
      exists (take 4 deck). split; [done|]. rewrite length_take.
      simpl in Hlen. lia.
    + by apply IH.
Qed.

(** What [dealCards] does to a room that exists. *)
Lemma dealCards_run s rid rnd room :
  rooms_get (rooms s) rid = Some room → r_id room = rid →
  let ps := seated s rid in
  let deck := val (PokerGameManager.createDeck rnd) s in
  let s1 := exec (PokerGameManager.createDeck rnd) s in
  let s2 := exec (PokerGameManager.dealLoop ps deck) s1 in
  PokerGameManager.dealCards rid rnd s =
  if Z.of_nat (length ps) <? 2
  then (Err "Need at least 2 players to deal cards", s, [])
  else
    (Ok tt,
     store_with_rooms s2
       (rooms_set (rooms s) rid
          (room_assign room
             (mkRoomUpdates (Some playing) (Some pre_flop) (Some 0) (Some 0)
                            (Some (drop (4 * length ps) deck)) (Some [])))),
     [EvDeal rid]).
Proof.
  intros Hr Hid ps deck s1 s2. rewrite run_eq.
  unfold PokerGameManager.dealCards.
  autorewrite with mread. rewrite Hr. autorewrite with mread. fold ps.
  destruct (Z.of_nat (length ps) <? 2); [done|].
  autorewrite with mread. fold deck. fold s1. fold s2.
  rewrite createDeck_log, dealLoop_log, dealLoop_val.
  unfold MemStorage.updateRoomGameState.
  rewrite exec_updateRoom, log_updateRoom, Hid. simpl.
  destruct (createDeck_only_uuid rnd s) as (R1 & _).
  destruct (dealLoop_only_players ps deck s1) as (R2 & _).
  fold s1 in R1. fold s2 in R2.
  rewrite R2, R1, (rooms_alter_Some _ _ _ _ Hr). done.
Qed.

Lemma dealCards_lookup s rid rnd :
  rooms_get (rooms s) rid = None →
  PokerGameManager.dealCards rid rnd s = (Err "Room not found", s, []).
Proof.
  intros Hr. rewrite run_eq. unfold PokerGameManager.dealCards.
  unfold MemStorage.getRoomById. msimp. rewrite Hr. by msimp.
Qed.

(** C9. In a reachable store, when [dealCards] succeeds on a room with
    [n] seated players: [n] is at least 2; the fresh deck has 52 cards;
    afterwards the same [n] players are seated and each holds exactly 4
    cards; the room's stored deck is the fresh deck without its first
    [4 * n] cards, which are [4 * n] cards indeed, and so has
    [52 - 4 * n] cards. *)
Theorem dealCards_hands_and_deck s rid rnd s' ev :
  reachable s → PokerGameManager.dealCards rid rnd s = (Ok tt, s', ev) →
  let n := length (seated s rid) in
  let deck := val (PokerGameManager.createDeck rnd) s in
  (2 <= n)%nat ∧ length deck = 52%nat ∧
  length (seated s' rid) = n ∧
  (∀ p', p' ∈ seated s' rid → ∃ h, p_hand p' = Some h ∧ length h = 4%nat) ∧
  length (take (4 * n) deck) = (4 * n)%nat ∧
  ∃ room', rooms_get (rooms s') rid = Some room' ∧
           r_deck room' = Some (drop (4 * n) deck) ∧
           length (drop (4 * n) deck) = (52 - 4 * n)%nat.
Proof.
  intros Hreach Hrun. cbv zeta. apply wf_reachable in Hreach as [Hs _].
  destruct (rooms_get (rooms s) rid) as [room|] eqn:Hr;
    [|rewrite (dealCards_lookup s rid rnd Hr) in Hrun; discriminate].
  destruct (wf_room s Hs _ _ Hr) as (Hid & _ & _ & l & L1 & L2 & L3 & L4 & L5).
  destruct (length_seated s _ _ Hs Hr) as [Hlen Hmax].
  assert (Hs' : wf_struct s').
  { replace s' with (exec (PokerGameManager.dealCards rid rnd) s)
      by (unfold exec; by rewrite Hrun).
    eapply wf_struct_evolves; [done | apply evolves_dealCards]. }
  pose proof (createDeck_length rnd s) as Hdeck.
  destruct (createDeck_only_uuid rnd s) as (_ & U2 & _ & U4).
  rewrite (dealCards_run s rid rnd room Hr Hid) in Hrun. cbv zeta in Hrun.
  remember (val (PokerGameManager.createDeck rnd) s) as deck eqn:Edeck.
  remember (exec (PokerGameManager.createDeck rnd) s) as s1 eqn:Es1.
  remember (length (seated s rid)) as n eqn:En.
  destruct (Z.of_nat n <? 2) eqn:E; [discriminate|].
  destruct (dealLoop_only_players (seated s rid) deck s1) as (_ & _ & V3).
  remember (exec (PokerGameManager.dealLoop (seated s rid) deck) s1) as s2 eqn:Es2.
  injection Hrun as <- _.
  assert (Hk : rooms_get (rooms (store_with_rooms s2
                 (rooms_set (rooms s) rid
                    (room_assign room
                       (mkRoomUpdates (Some playing) (Some pre_flop) (Some 0)
                          (Some 0) (Some (drop (4 * n) deck)) (Some [])))))) rid
               = Some (room_assign room
                       (mkRoomUpdates (Some playing) (Some pre_flop) (Some 0)
                          (Some 0) (Some (drop (4 * n) deck)) (Some [])))).
  { simpl. by rewrite rooms_get_set, decide_True. }
  split; [lia|]. split; [exact Hdeck|]. split.
  { destruct (length_seated _ _ _ Hs' Hk) as [Hlen' _]. simpl in Hlen'. lia. }
  split.
  { intros p' Hin. rewrite seated_eq in Hin. simpl in Hin.
    rewrite V3, U4, L1 in Hin. simpl in Hin.
    apply list_elem_of_omap in Hin as (pid & Hpid & Hp').
    rewrite Es2 in Hp'. clear Es2 Es1 Edeck Hk.
    apply (dealLoop_deals_four (seated s rid) deck s1 pid);
      [lia | | exact Hp'].
    destruct (L5 _ Hpid) as (p & Hp & _).
    destruct (wf_player s Hs _ _ Hp) as (Hpid' & _).
    apply list_elem_of_fmap. exists p. split; [by symmetry|].
    rewrite seated_eq, L1. simpl. apply list_elem_of_omap.
    exists pid. split; assumption. }
  split; [rewrite length_take; lia|].
  eexists. split; [exact Hk|]. split; [reflexivity|]. rewrite length_drop. lia.
Qed.

Lemma dealCards_hands_and_deck_witness :
  reachable (after two_seated) ∧
  PokerGameManager.dealCards 0%nat (λ i, i) (after two_seated) =
    (Ok tt, after dealt, [EvDeal 0%nat]) ∧
  length (seated (after two_seated) 0%nat) = 2%nat ∧
  (∀ p', p' ∈ seated (after dealt) 0%nat →
         ∃ h, p_hand p' = Some h ∧ length h = 4%nat) ∧
  ∃ room', rooms_get (rooms (after dealt)) 0%nat = Some room' ∧
           (length <$> r_deck room') = Some 44%nat.
Proof.
  assert (R2 : reachable (after two_seated)).
  { apply reachable_after. vm_compute. eauto. }
  assert (E : PokerGameManager.dealCards 0%nat (λ i, i) (after two_seated) =
              (Ok tt, after dealt, [EvDeal 0%nat])) by (vm_compute; reflexivity).
  assert (L : length (seated (after two_seated) 0%nat) = 2%nat)
    by (vm_compute; reflexivity).
  destruct (dealCards_hands_and_deck _ _ _ _ _ R2 E)
    as (_ & _ & _ & H4 & _ & room' & Hk & Hd & Hl).
  split; [exact R2|]. split; [exact E|]. split; [exact L|]. split; [exact H4|].
  exists room'. split; [exact Hk|]. rewrite Hd.
  unfold fmap, option_fmap, option_map. rewrite Hl, L. reflexivity.
Defined.

(** *** The pot and the ledger *)

#[global] Instance pots_kept_preorder : PreOrder pots_kept.
Proof.
  split.
  - intros s Hnd. split; [done|]. intros k r Hk. by exists r.
  - intros s1 s2 s3 H12 H23 Hnd. destruct (H12 Hnd) as [Hnd2 A].
    destruct (H23 Hnd2) as [Hnd3 B]. split; [done|].
    intros k r3 Hk. destruct (B _ _ Hk) as (r2 & Hk2 & E2).
    destruct (A _ _ Hk2) as (r1 & Hk1 & E1). exists r1. split; [done|congruence].
Qed.

#[global] Instance uuid_mono_preorder : PreOrder uuid_mono.
Proof.
  split; [intros s; unfold uuid_mono; lia|].
  intros s1 s2 s3. unfold uuid_mono. lia.
Qed.

Lemma pots_kept_same_rooms s s' : rooms s' = rooms s → pots_kept s s'.
Proof. intros E Hnd. rewrite E. split; [done|]. intros k r Hk. by exists r. Qed.

Lemma pots_kept_randomUUID : stays pots_kept randomUUID.
Proof. intros s. by apply pots_kept_same_rooms. Qed.

Lemma pots_kept_updatePlayer id f : stays pots_kept (MemStorage.updatePlayer id f).
Proof. intros s. rewrite exec_updatePlayer. by apply pots_kept_same_rooms. Qed.

Lemma pots_kept_createPlayer rid sock name chips :
  stays pots_kept (MemStorage.createPlayer rid sock name chips).
Proof.
  intros s. unfold MemStorage.createPlayer. msimp. by apply pots_kept_same_rooms.
Qed.

Lemma pots_kept_removePlayer id : stays pots_kept (MemStorage.removePlayer id).
Proof.
  intros s. unfold MemStorage.removePlayer. msimp. apply pots_kept_same_rooms.
  by destruct (players s !! id).
Qed.

Lemma pots_kept_updateRoom id f :
  (∀ r, r_pot (f r) = r_pot r) → stays pots_kept (MemStorage.updateRoom id f).
Proof.
  intros Hf s Hnd. rewrite exec_updateRoom. simpl. rewrite rooms_alter_keys.
  split; [done|]. intros k r'. rewrite rooms_get_alter.
  destruct (decide (id = k)) as [<-|Hne]; [|by intros Hk; exists r'].
  destruct (rooms_get (rooms s) id) as [r|]; [|done]. intros [= <-].
  exists r. by rewrite Hf.
Qed.

Lemma pots_kept_deleteRoom id : stays pots_kept (MemStorage.deleteRoom id).
Proof.
  intros s Hnd. unfold MemStorage.deleteRoom. msimp. simpl.
  split; [by apply rooms_delete_NoDup|]. intros k r'.
  rewrite rooms_get_delete by done.
  destruct (decide (id = k)); [done|]. intros Hk. by exists r'.
Qed.

Ltac pots_step :=
  lazymatch goal with
  | |- stays _ randomUUID => apply pots_kept_randomUUID
  | |- stays _ (MemStorage.updatePlayer _ _) => apply pots_kept_updatePlayer
  | |- stays _ (MemStorage.updatePlayerBySocket _ _) =>
      apply stays_updatePlayerBySocket; [apply _|]; intros ?;
      apply pots_kept_updatePlayer
  | |- stays _ (MemStorage.updateRoom _ _) =>
      apply pots_kept_updateRoom; intros ?; done
  | |- stays _ (MemStorage.createPlayer _ _ _ _) => apply pots_kept_createPlayer
  | |- stays _ (MemStorage.removePlayer _) => apply pots_kept_removePlayer
  | |- stays _ (MemStorage.deleteRoom _) => apply pots_kept_deleteRoom
  | |- _ => stays_common
  end.

Lemma mono_randomUUID : stays uuid_mono randomUUID.
Proof. intros s. unfold uuid_mono. simpl. lia. Qed.

Lemma mono_same_uuid {A} (m : M A) :
  (∀ s, nextUuid (exec m s) = nextUuid s) → stays uuid_mono m.
Proof. intros H s. unfold uuid_mono. rewrite H. lia. Qed.

Lemma mono_updatePlayer id f : stays uuid_mono (MemStorage.updatePlayer id f).
Proof. apply mono_same_uuid. intros s. by rewrite exec_updatePlayer. Qed.

Lemma mono_updateRoom id f : stays uuid_mono (MemStorage.updateRoom id f).
Proof. apply mono_same_uuid. intros s. by rewrite exec_updateRoom. Qed.

Lemma mono_createRoom code host maxPlayers :
  stays uuid_mono (MemStorage.createRoom code host maxPlayers).
Proof.
  intros s. unfold MemStorage.createRoom, uuid_mono. msimp. simpl. lia.
Qed.

Lemma mono_createPlayer rid sock name chips :
  stays uuid_mono (MemStorage.createPlayer rid sock name chips).
Proof.
  intros s. unfold MemStorage.createPlayer, uuid_mono. msimp. simpl. lia.
Qed.

Lemma mono_removePlayer id : stays uuid_mono (MemStorage.removePlayer id).
Proof.
  apply mono_same_uuid. intros s. unfold MemStorage.removePlayer. msimp.
  by destruct (players s !! id).
Qed.

Lemma mono_deleteRoom id : stays uuid_mono (MemStorage.deleteRoom id).
Proof. apply mono_same_uuid. intros s. unfold MemStorage.deleteRoom. by msimp. Qed.

Ltac mono_step :=
  lazymatch goal with
  | |- stays _ randomUUID => apply mono_randomUUID
  | |- stays _ (MemStorage.updatePlayer _ _) => apply mono_updatePlayer
  | |- stays _ (MemStorage.updatePlayerBySocket _ _) =>
      apply stays_updatePlayerBySocket; [apply _|]; intros ?;
      apply mono_updatePlayer
  | |- stays _ (MemStorage.updateRoom _ _) => apply mono_updateRoom
  | |- stays _ (MemStorage.createRoom _ _ _) => apply mono_createRoom
  | |- stays _ (MemStorage.createPlayer _ _ _ _) => apply mono_createPlayer
  | |- stays _ (MemStorage.removePlayer _) => apply mono_removePlayer
  | |- stays _ (MemStorage.deleteRoom _) => apply mono_deleteRoom
  | |- _ => stays_common
  end.

Lemma silent_ret {A} (a : A) : silent (ret a).
Proof. by intros s. Qed.

Lemma silent_gets {A} (f : Store → A) : silent (gets f).
Proof. by intros s. Qed.

Lemma silent_bind {A B} (m : M A) (k : A → M B) :
  silent m → (∀ a, silent (k a)) → silent (bind m k).
Proof. intros Hm Hk s. by rewrite log_bind, Hm, Hk. Qed.

Lemma silent_createRoom code host maxPlayers :
  silent (MemStorage.createRoom code host maxPlayers).
Proof. intros s. unfold MemStorage.createRoom. by msimp. Qed.

Lemma silent_createPlayer rid sock name chips :
  silent (MemStorage.createPlayer rid sock name chips).
Proof. intros s. unfold MemStorage.createPlayer. by msimp. Qed.

Lemma silent_removePlayer id : silent (MemStorage.removePlayer id).
Proof. by intros s. Qed.

Lemma silent_deleteRoom id : silent (MemStorage.deleteRoom id).
Proof. intros s. unfold MemStorage.deleteRoom. by msimp. Qed.

Ltac silent_step :=
  lazymatch goal with
  | |- silent (ret _) => apply silent_ret
  | |- silent (gets _) => apply silent_gets
  | |- silent (bind _ _) => apply silent_bind; [|intros ?]
  | |- silent (MemStorage.updatePlayer _ _) => exact (log_updatePlayer _ _)
  | |- silent (MemStorage.updatePlayerBySocket _ _) =>
      exact (log_updatePlayerBySocket _ _)
  | |- silent (MemStorage.updateRoom _ _) => exact (log_updateRoom _ _)
  | |- silent (MemStorage.createRoom _ _ _) => apply silent_createRoom
  | |- silent (MemStorage.createPlayer _ _ _ _) => apply silent_createPlayer
  | |- silent (MemStorage.removePlayer _) => apply silent_removePlayer
  | |- silent (MemStorage.deleteRoom _) => apply silent_deleteRoom
  | |- silent (PokerGameManager.uniqueRoomCode _) =>
      exact (uniqueRoomCode_log _)
  | |- silent (match ?x with _ => _ end) => destruct x
  end.

Lemma pot_step_quiet s s' :
  NoDup (rooms s).*1 → pots_kept s s' → uuid_mono s s' → pot_step s s' [].
Proof.
  intros Hnd Hk Hm. destruct (Hk Hnd) as [_ Hpots]. split; [done|].
  intros rid. split; [done|]. intros r' Hr'.
  destruct (Hpots _ _ Hr') as (r & Hr & E). simpl. unfold pot_at.
  rewrite Hr. split; [done | by left; eexists].
Qed.

Lemma pot_step_joinRoom s sock name code :
  wf_struct s →
  pot_step s (exec (PokerGameManager.joinRoom sock name code) s)
             (log (PokerGameManager.joinRoom sock name code) s).
Proof.
  intros Hs.
  assert (Hq : silent (PokerGameManager.joinRoom sock name code)).
  { unfold PokerGameManager.joinRoom. unfold_storage. cbv zeta.
    repeat silent_step. }
  rewrite Hq. apply pot_step_quiet; [apply Hs | |].
  - generalize s. change (stays pots_kept
      (PokerGameManager.joinRoom sock name code)).
    unfold PokerGameManager.joinRoom. unfold_storage. cbv zeta.
    repeat pots_step.
  - generalize s. change (stays uuid_mono
      (PokerGameManager.joinRoom sock name code)).
    unfold PokerGameManager.joinRoom. unfold_storage. cbv zeta.
    repeat mono_step.
Qed.

Lemma pot_step_leaveRoom s sock :
  wf_struct s →
  pot_step s (exec (PokerGameManager.leaveRoom sock) s)
             (log (PokerGameManager.leaveRoom sock) s).
Proof.
  intros Hs.
  assert (Hq : silent (PokerGameManager.leaveRoom sock)).
  { unfold PokerGameManager.leaveRoom. unfold_storage. repeat silent_step. }
  rewrite Hq. apply pot_step_quiet; [apply Hs | |].
  - generalize s. change (stays pots_kept (PokerGameManager.leaveRoom sock)).
    unfold PokerGameManager.leaveRoom. unfold_storage. repeat pots_step.
  - generalize s. change (stays uuid_mono (PokerGameManager.leaveRoom sock)).
    unfold PokerGameManager.leaveRoom. unfold_storage. repeat mono_step.
Qed.

Lemma pot_step_setter s sock f :
  wf_struct s →
  pot_step s (exec (MemStorage.updatePlayerBySocket sock f) s)
             (log (MemStorage.updatePlayerBySocket sock f) s).
Proof.
  intros Hs. rewrite log_updatePlayerBySocket.
  apply pot_step_quiet; [apply Hs | |].
  - generalize s. change (stays pots_kept (MemStorage.updatePlayerBySocket sock f)).
    pots_step.
  - generalize s. change (stays uuid_mono (MemStorage.updatePlayerBySocket sock f)).
    mono_step.
Qed.

Lemma pot_step_refl s : pot_step s s [].
Proof.
  split; [done|]. intros rid. split; [done|]. intros r' Hr'. simpl.
  unfold pot_at. rewrite Hr'. split; [done | by left; eexists].
Qed.

Lemma pot_step_same_rooms s s' :
  rooms s' = rooms s → (nextUuid s <= nextUuid s')%nat → pot_step s s' [].
Proof.
  intros E Hn. split; [done|]. intros rid. split; [done|]. rewrite E.
  intros r' Hr'. simpl. unfold pot_at. rewrite Hr'.
  split; [done | by left; eexists].
Qed.

Lemma pot_step_placeBet s player room d roomBet :
  rooms_get (rooms s) (p_roomId player) = Some room →
  r_id room = p_roomId player →
  pot_step s (placeBet s player room d roomBet) [EvBet (p_id player) (r_id room) d].
Proof.
  intros Hr Hid. unfold pot_step, placeBet. simpl. rewrite Hid.
  split; [done|]. intros rid. split.
  - intros Hnone acc. rewrite decide_False; [done|]. intros <-. congruence.
  - intros r'. rewrite rooms_get_set. unfold pot_at.
    destruct (decide (p_roomId player = rid)) as [<-|Hne].
    + intros [= <-]. rewrite Hr. simpl. split; [done | by left; eexists].
    + intros Hr'. rewrite Hr'. split; [done | by left; eexists].
Qed.

Lemma pot_step_handlePlayerAction s sock action amount :
  wf_struct s →
  pot_step s (exec (PokerGameManager.handlePlayerAction sock action amount) s)
             (log (PokerGameManager.handlePlayerAction sock action amount) s).
Proof.
  intros Hs. unfold exec, log.
  destruct (handlePlayerAction_lookup s sock action amount Hs)
    as [[e ->]|(pid & player & room & Hsk & Hp & Hid & Hr & Hrid)];
    [apply pot_step_refl|].
  rewrite (handlePlayerAction_run s sock pid player room Hsk Hp Hid Hr Hrid).
  rewrite <- Hid.
  repeat match goal with
         | |- context [if ?b then _ else _] => destruct b
         | |- context [let _ := _ in _] => cbv zeta
         end; simpl;
    first [ apply pot_step_refl
          | by apply pot_step_same_rooms
          | by apply pot_step_placeBet ].
Qed.

Lemma pot_step_dealCards s rid rnd :
  wf_struct s →
  pot_step s (exec (PokerGameManager.dealCards rid rnd) s)
             (log (PokerGameManager.dealCards rid rnd) s).
Proof.
  intros Hs.
  pose proof (ev_next _ _ (evolves_dealCards rid rnd s)) as Hnext.
  revert Hnext. unfold exec, log.
  destruct (rooms_get (rooms s) rid) as [room|] eqn:Hr;
    [|rewrite (dealCards_lookup s rid rnd Hr); intros _; apply pot_step_refl].
  destruct (wf_room s Hs _ _ Hr) as (Hid & _).
  rewrite (dealCards_run s rid rnd room Hr Hid).
  destruct (Z.of_nat (length (seated s rid)) <? 2);
    [intros _; apply pot_step_refl|].
  simpl. intros Hnext. split; [done|]. intros k. simpl. split.
  - intros Hnone acc. rewrite decide_False; [done|]. intros <-. congruence.
  - intros r'. rewrite rooms_get_set. unfold pot_at.
    destruct (decide (rid = k)) as [<-|Hne].
    + intros [= <-]. rewrite Hr. simpl. split; [done | by left; eexists].
    + intros Hr'. rewrite Hr'. split; [done | by left; eexists].
Qed.

Lemma createRoom_log draws sock name s :
  log (PokerGameManager.createRoom draws sock name) s = [].
Proof.
  revert s. change (silent (PokerGameManager.createRoom draws sock name)).
  unfold PokerGameManager.createRoom. unfold_storage. repeat silent_step.
Qed.

Lemma pot_step_createRoom s draws sock name :
  wf_struct s →
  pot_step s (exec (PokerGameManager.createRoom draws sock name) s)
             (log (PokerGameManager.createRoom draws sock name) s).
Proof.
  intros Hs. rewrite createRoom_log.
  pose proof (wf_no_room_at_next s Hs) as Hfresh.
  unfold PokerGameManager.createRoom. rewrite exec_bind, uniqueRoomCode_exec.
  destruct (val (PokerGameManager.uniqueRoomCode draws) s) as [c|];
    [|apply pot_step_refl].
  unfold MemStorage.createRoom, MemStorage.createPlayer. msimp. simpl.
  rewrite ?val_randomUUID.
  split; simpl; [lia|]. intros rid. split; [done|]. intros r'.
  rewrite rooms_get_alter, rooms_get_set. unfold pot_at, val. simpl.
  destruct (decide (nextUuid s = rid)) as [<-|Hne].
  - rewrite decide_True by done. simpl. intros [= E]. subst r'.
    rewrite Hfresh. simpl. split; [done | right; lia].
  - rewrite ?rooms_get_set, ?decide_False by done.
    intros Hr'. rewrite Hr'. split; [done | by left; eexists].
Qed.

Lemma pot_step_step op s s' ev :
  wf s → step op s = Some (s', ev) → pot_step s s' ev.
Proof.
  intros [Hs _]. rewrite step_eq. destruct op.
  - destruct (val _ s); [|done]. intros [= <- <-]. by apply pot_step_createRoom.
  - intros [= <- <-]. by apply pot_step_joinRoom.
  - intros [= <- <-]. by apply pot_step_leaveRoom.
  - intros [= <- <-]. by apply pot_step_dealCards.
  - intros [= <- <-]. by apply pot_step_handlePlayerAction.
  - intros [= <- <-]. by apply pot_step_setter.
  - intros [= <- <-]. by apply pot_step_setter.
Qed.

Lemma ledger_app rid e1 e2 acc :
  ledger rid (e1 ++ e2) acc = ledger rid e2 (ledger rid e1 acc).
Proof.
  revert acc. induction e1 as [|e e1 IH]; intros acc; [done|].
  destruct e; simpl; apply IH.
Qed.

Lemma ledger_no_deal rid ev acc :
  sinceLastDeal rid ev = None → ledger rid ev acc = acc + sumZ (betDeltas rid ev).
Proof.
  revert acc. induction ev as [|e ev IH]; intros acc; simpl; [lia|].
  destruct (sinceLastDeal rid ev) as [tl|] eqn:E; [done|].
  destruct e as [pid r d|r]; simpl.
  - intros _. rewrite IH by done.
    destruct (decide (r = rid)); simpl; unfold sumZ in *; simpl; lia.
  - destruct (decide (r = rid)); [done|]. intros _. by apply IH.
Qed.

Lemma ledger_since rid ev ev' acc :
  sinceLastDeal rid ev = Some ev' → ledger rid ev acc = sumZ (betDeltas rid ev').
Proof.
  revert acc. induction ev as [|e ev IH]; intros acc; simpl; [done|].
  destruct (sinceLastDeal rid ev) as [tl|] eqn:E.
  - intros [= <-]. destruct e; simpl; by apply IH.
  - destruct e as [pid r d|r]; [done|].
    destruct (decide (r = rid)) as [->|]; [|done]. intros [= <-]. simpl.
    rewrite ledger_no_deal by done. lia.
Qed.

Lemma run_no_rebirth ops s s' ev rid :
  wf s → run ops s = Some (s', ev) →
  rooms_get (rooms s) rid = None → (rid < nextUuid s)%nat →
  rooms_get (rooms s') rid = None.
Proof.
  revert s ev. induction ops as [|op ops IH]; intros s ev Hs.
  - by intros [= <- <-].
  - intros Hr Hnone Hlt.
    apply run_cons in Hr as (s1 & e1 & e2 & H1 & H2 & _).
    destruct (pot_step_step _ _ _ _ Hs H1) as [Hnext Hrid].
    apply (IH s1 e2); [by eapply wf_step | done | | lia].
    destruct (rooms_get (rooms s1) rid) as [r1|] eqn:E1; [|done].
    destruct (Hrid rid) as [_ Hsome]. destruct (Hsome _ E1) as [_ [[r Hr]|Hge]].
    + congruence.
    + lia.
Qed.

Lemma run_pot ops s s' ev rid r' :
  wf s → run ops s = Some (s', ev) → rooms_get (rooms s') rid = Some r' →
  r_pot r' = ledger rid ev (pot_at s rid).
Proof.
  revert s ev. induction ops as [|op ops IH]; intros s ev Hs.
  - intros [= <- <-] Hr'. simpl. unfold pot_at. by rewrite Hr'.
  - intros Hr Hr'. apply run_cons in Hr as (s1 & e1 & e2 & H1 & H2 & ->).
    pose proof (wf_step _ _ _ _ Hs H1) as Hs1.
    rewrite ledger_app, (IH s1 e2 Hs1 H2 Hr'). f_equal.
    destruct (pot_step_step _ _ _ _ Hs H1) as [Hnext Hrid].
    destruct (Hrid rid) as [Hquiet Hsome].
    destruct (rooms_get (rooms s1) rid) as [r1|] eqn:E1.
    + unfold pot_at at 1. rewrite E1. by destruct (Hsome _ eq_refl).
    + unfold pot_at at 1. rewrite E1.
      destruct (rooms_get (rooms s) rid) as [r|] eqn:E.
      * exfalso. destruct Hs as [Hst _].
        destruct (wf_room s Hst _ _ E) as (_ & Hlt & _).
        assert (Hnone : rooms_get (rooms s') rid = None).
        { eapply run_no_rebirth; [exact Hs1 | exact H2 | done | lia]. }
        congruence.
      * unfold pot_at. rewrite E. by rewrite Hquiet.
Qed.

(** C4. At every point of every run of the server, the pot of a room
    that has been dealt equals the sum of the deltas of the bets applied
    (by [updatePlayerBet], to players of that room) since the room's
    last successful deal: the deal resets the pot to 0 and nothing else
    moves it. *)
Theorem pot_is_sum_of_bets ops s ev rid room ev' :
  run ops emptyStore = Some (s, ev) →
  rooms_get (rooms s) rid = Some room →
  sinceLastDeal rid ev = Some ev' →
  r_pot room = sumZ (betDeltas rid ev').
Proof.
  intros Hrun Hroom Hdeal.
  rewrite (run_pot _ _ _ _ _ _ wf_empty Hrun Hroom).
  by apply ledger_since.
Qed.

Lemma pot_is_sum_of_bets_witness :
  ∃ s room,
    run called emptyStore =
      Some (s, [EvDeal 0%nat; EvBet 1%nat 0%nat 100; EvBet 2%nat 0%nat 100]) ∧
    rooms_get (rooms s) 0%nat = Some room ∧
    sinceLastDeal 0%nat [EvDeal 0%nat; EvBet 1%nat 0%nat 100; EvBet 2%nat 0%nat 100]
      = Some [EvBet 1%nat 0%nat 100; EvBet 2%nat 0%nat 100] ∧
    r_pot room = 200.
Proof.
  assert (Hrun : run called emptyStore =
                 Some (after called,
                       [EvDeal 0%nat; EvBet 1%nat 0%nat 100; EvBet 2%nat 0%nat 100])).
  { vm_compute. reflexivity. }
  assert (Hroom : ∃ room, rooms_get (rooms (after called)) 0%nat = Some room).
  { vm_compute. eexists. reflexivity. }
  destruct Hroom as [room Hroom].
  assert (Hdeal : sinceLastDeal 0%nat
                    [EvDeal 0%nat; EvBet 1%nat 0%nat 100; EvBet 2%nat 0%nat 100]
                  = Some [EvBet 1%nat 0%nat 100; EvBet 2%nat 0%nat 100]).
  { vm_compute. reflexivity. }
  exists (after called), room.
  split; [exact Hrun|]. split; [exact Hroom|]. split; [exact Hdeal|].
  exact (pot_is_sum_of_bets _ _ _ _ _ _ Hrun Hroom Hdeal).
Defined.

(** ** Further properties of the code *)

(** *** The deck *)

Lemma insert_head_Permutation (l : list Card) j x y :
  l !! j = Some y → y :: <[j := x]> l ≡ₚ x :: l.
Proof.
  revert j. induction l as [|a l IH]; intros j Hj; [done|].
  destruct j as [|j]; simpl in *.
  - injection Hj as ->. apply Permutation_swap.
  - rewrite (Permutation_swap a y), (IH _ Hj). apply Permutation_swap.
Qed.

Lemma swap_Permutation l i j : PokerGameManager.swap l i j ≡ₚ l.
Proof.
  unfold PokerGameManager.swap.
  destruct (l !! i) as [x|] eqn:Hi; [|done].
  destruct (l !! j) as [y|] eqn:Hj; [|done].
  revert i j Hi Hj. induction l as [|a l IH]; intros i j Hi Hj; [done|].
  destruct i as [|i], j as [|j]; simpl in *.
  - by injection Hi as ->.
  - injection Hi as ->. by apply insert_head_Permutation.
  - injection Hj as ->. by apply insert_head_Permutation.
  - f_equiv. by apply IH.
Qed.

Lemma shuffleLoop_Permutation rnd i l :
  PokerGameManager.shuffleLoop rnd i l ≡ₚ l.
Proof.
  revert l. induction i as [|i IH]; intros l; simpl; [done|].
  by rewrite IH, swap_Permutation.
Qed.

(** X1. Whatever the random draws, [shuffleDeck] returns a permutation
    of the deck it is given: no card is lost, none is duplicated. *)
Theorem shuffleDeck_Permutation rnd deck :
  PokerGameManager.shuffleDeck rnd deck ≡ₚ deck.
Proof. apply shuffleLoop_Permutation. Qed.

Lemma pushValues_next suit vs deck s :
  nextUuid (exec (PokerGameManager.pushValues suit vs deck) s) =
  (nextUuid s + length vs)%nat.
Proof.
  revert deck s. induction vs as [|v vs IH]; intros deck s; simpl.
  - rewrite exec_ret. lia.
  - rewrite exec_bind, IH, exec_randomUUID. simpl. lia.
Qed.

Lemma pushValues_cards suit vs deck s :
  cardPair <$> val (PokerGameManager.pushValues suit vs deck) s =
    (cardPair <$> deck) ++ ((λ v, (suit, v)) <$> vs) ∧
  card_uuid <$> val (PokerGameManager.pushValues suit vs deck) s =
    (card_uuid <$> deck) ++ seq (nextUuid s) (length vs).
Proof.
  revert deck s. induction vs as [|v vs IH]; intros deck s; simpl.
  - rewrite val_ret, !app_nil_r. done.
  - rewrite val_bind. destruct (IH (deck ++ [mkCard suit v (val randomUUID s)])
                                   (exec randomUUID s)) as [-> ->].
    rewrite !fmap_app, <- !app_assoc. done.
Qed.

Lemma pushSuits_next ss deck s :
  nextUuid (exec (PokerGameManager.pushSuits ss deck) s) =
  (nextUuid s + 13 * length ss)%nat.
Proof.
  revert deck s.
  induction ss as [|x ss IH]; intros deck s; cbn [PokerGameManager.pushSuits].
  - rewrite exec_ret. simpl. lia.
  - rewrite exec_bind, IH, pushValues_next. simpl. lia.
Qed.

Lemma pushSuits_cards ss deck s :
  cardPair <$> val (PokerGameManager.pushSuits ss deck) s =
    (cardPair <$> deck) ++ (x ← ss; v ← PokerGameManager.values; [(x, v)]) ∧
  card_uuid <$> val (PokerGameManager.pushSuits ss deck) s =
    (card_uuid <$> deck) ++ seq (nextUuid s) (13 * length ss).
Proof.
  revert deck s.
  induction ss as [|x ss IH]; intros deck s; cbn [PokerGameManager.pushSuits].
  - rewrite val_ret. simpl. rewrite !app_nil_r. done.
  - rewrite val_bind.
    destruct (IH (val (PokerGameManager.pushValues x PokerGameManager.values deck) s)
                 (exec (PokerGameManager.pushValues x PokerGameManager.values deck) s))
      as [-> ->].
    destruct (pushValues_cards x PokerGameManager.values deck s) as [-> ->].
    rewrite pushValues_next, <- !app_assoc. split.
    + f_equal.
    + f_equal. change (length PokerGameManager.values) with 13%nat.
      replace (13 * length (x :: ss))%nat with (13 + 13 * length ss)%nat
        by (simpl; lia).
      by rewrite seq_app.
Qed.

(** X2. Whatever the random draws, the deck that [createDeck] returns
    holds every (suit, value) pair exactly once, 52 cards in all, with
    52 distinct ids, none of which was handed out before; the next id
    handed out afterwards is new, too. *)
Theorem createDeck_cards rnd s :
  cardPair <$> val (PokerGameManager.createDeck rnd) s ≡ₚ allPairs ∧
  NoDup (cardPair <$> val (PokerGameManager.createDeck rnd) s) ∧
  (∀ x v, (x, v) ∈ cardPair <$> val (PokerGameManager.createDeck rnd) s) ∧
  NoDup (card_uuid <$> val (PokerGameManager.createDeck rnd) s) ∧
  (∀ c, c ∈ val (PokerGameManager.createDeck rnd) s →
        (nextUuid s <= card_uuid c < nextUuid s + 52)%nat) ∧
  nextUuid (exec (PokerGameManager.createDeck rnd) s) = (nextUuid s + 52)%nat.
Proof.
  assert (Hnd : NoDup allPairs).
  { apply (bool_decide_unpack _). vm_compute. exact I. }
  assert (Hall : ∀ x v, (x, v) ∈ allPairs).
  { intros x v. apply (bool_decide_unpack _).
    destruct x, v; vm_compute; exact I. }
  unfold PokerGameManager.createDeck. rewrite val_bind, val_ret, exec_bind, exec_ret.
  destruct (pushSuits_cards PokerGameManager.suits [] s) as [Hp Hu].
  remember (val (PokerGameManager.pushSuits PokerGameManager.suits []) s)
    as built eqn:Ebuilt. clear Ebuilt.
  change (cardPair <$> built = allPairs) in Hp.
  change (card_uuid <$> built = seq (nextUuid s) 52) in Hu.
  assert (Hperm : PokerGameManager.shuffleDeck rnd built ≡ₚ built)
    by apply shuffleLoop_Permutation.
  assert (Hpairs : cardPair <$> PokerGameManager.shuffleDeck rnd built ≡ₚ allPairs).
  { rewrite Hperm, Hp. done. }
  split_and!.
  - exact Hpairs.
  - by rewrite Hpairs.
  - intros x v. rewrite Hpairs. apply Hall.
  - rewrite Hperm, Hu. apply NoDup_seq.
  - intros c Hc. rewrite Hperm in Hc.
    assert (Hin : card_uuid c ∈ card_uuid <$> built).
    { apply list_elem_of_fmap. by exists c. }
    rewrite Hu in Hin. apply elem_of_seq in Hin. lia.
  - rewrite pushSuits_next. simpl. lia.
Qed.

(** *** Room codes *)

Lemma randomChar_in_chars r :
  ∃ c, randomChar r = String c EmptyString ∧
       c ∈ String.list_ascii_of_string chars.
Proof.
  unfold randomChar.
  assert (Hlt : (r mod String.length chars < 36)%nat).
  { apply Nat.mod_upper_bound. done. }
  revert Hlt. generalize (r mod String.length chars)%nat. intros i Hi.
  do 36 (destruct i as [|i];
         [eexists; split; [reflexivity|];
          apply (bool_decide_unpack _); vm_compute; exact I|]).
  lia.
Qed.

(** X3. Whatever the random draws, [generateRoomCode] returns exactly
    six characters, each of them a capital letter or a digit. *)
Theorem generateRoomCode_format rnd :
  String.length (generateRoomCode rnd) = 6%nat ∧
  ∀ c, c ∈ String.list_ascii_of_string (generateRoomCode rnd) →
       c ∈ String.list_ascii_of_string chars.
Proof.
  unfold generateRoomCode. simpl.
  destruct (randomChar_in_chars (rnd 0%nat)) as (c0 & -> & H0).
  destruct (randomChar_in_chars (rnd 1%nat)) as (c1 & -> & H1).
  destruct (randomChar_in_chars (rnd 2%nat)) as (c2 & -> & H2).
  destruct (randomChar_in_chars (rnd 3%nat)) as (c3 & -> & H3).
  destruct (randomChar_in_chars (rnd 4%nat)) as (c4 & -> & H4).
  destruct (randomChar_in_chars (rnd 5%nat)) as (c5 & -> & H5).
  simpl. split; [done|]. intros c Hc.
  repeat (apply elem_of_cons in Hc as [->|Hc]; [assumption|]).
  by apply elem_of_nil in Hc.
Qed.

(** *** Dealing, seat by seat *)

Lemma dealLoop_other ps deck s pid :
  pid ∉ (p_id <$> ps) →
  players (exec (PokerGameManager.dealLoop ps deck) s) !! pid = players s !! pid.
Proof.
  revert deck s. induction ps as [|p ps IH]; intros deck s Hnin; [done|].
  rewrite fmap_cons in Hnin. apply not_elem_of_cons in Hnin as [Hne Hnin].
  cbn [PokerGameManager.dealLoop]. rewrite exec_bind, IH by done.
  unfold MemStorage.setPlayerHand. rewrite exec_updatePlayer. simpl.
  by rewrite lookup_alter_ne.
Qed.

Lemma dealLoop_seat ps deck s i p :
  NoDup (p_id <$> ps) → ps !! i = Some p →
  players (exec (PokerGameManager.dealLoop ps deck) s) !! p_id p =
  dealtHand deck i <$> players s !! p_id p.
Proof.
  revert deck s i. induction ps as [|p0 ps IH]; intros deck s i Hnd Hi; [done|].
  rewrite fmap_cons in Hnd. apply NoDup_cons in Hnd as [Hp0 Hnd].
  cbn [PokerGameManager.dealLoop]. rewrite exec_bind.
  unfold MemStorage.setPlayerHand.
  destruct i as [|i]; simpl in Hi.
  - injection Hi as ->. rewrite dealLoop_other by done.
    rewrite exec_updatePlayer. simpl. by rewrite lookup_alter_eq.
  - rewrite (IH _ _ i) by done. rewrite exec_updatePlayer. simpl.
    rewrite lookup_alter_ne.
    + unfold dealtHand. rewrite drop_drop.
      by replace (4 + 4 * i)%nat with (4 * S i)%nat by lia.
    + intros E. apply Hp0. rewrite E. apply list_elem_of_fmap.
      exists p. split; [done|]. by eapply list_elem_of_lookup_2.
Qed.

Lemma dealLoop_seats ps deck s qs k :
  NoDup (p_id <$> ps) →
  (∀ j q, qs !! j = Some q →
          ps !! (k + j)%nat = Some q ∧ players s !! p_id q = Some q) →
  omap (λ id, players (exec (PokerGameManager.dealLoop ps deck) s) !! id)
       (p_id <$> qs) =
  imap (λ j, dealtHand deck (k + j)) qs.
Proof.
  intros Hnd. revert k. induction qs as [|q qs IH]; intros k Hqs; [done|].
  csimpl. destruct (Hqs 0%nat q eq_refl) as [Hq Hpq].
  rewrite (dealLoop_seat ps deck s (k + 0) q Hnd Hq), Hpq. csimpl. f_equal.
  rewrite (IH (S k)).
  - apply imap_ext. intros j x _. simpl. f_equal. lia.
  - intros j x Hx. destruct (Hqs (S j) x Hx) as [H1 H2]. split; [|done].
    by replace (S k + j)%nat with (k + S j)%nat by lia.
Qed.

Lemma seated_ids s rid room :
  wf_struct s → rooms_get (rooms s) rid = Some room →
  p_id <$> seated s rid = default [] (playersByRoom s !! rid) ∧
  NoDup (p_id <$> seated s rid) ∧
  ∀ q, q ∈ seated s rid → players s !! p_id q = Some q ∧ p_roomId q = rid.
Proof.
  intros Hs Hr.
  destruct (wf_room s Hs _ _ Hr) as (_ & _ & _ & l & L1 & L2 & _ & _ & L5).
  rewrite seated_eq, L1. simpl.
  assert (Hq : ∀ q, q ∈ omap (λ id, players s !! id) l →
               players s !! p_id q = Some q ∧ p_roomId q = rid).
  { intros q Hin. apply list_elem_of_omap in Hin as (id & Hid & Hq).
    destruct (wf_player s Hs _ _ Hq) as (E & _).
    destruct (L5 _ Hid) as (q' & Hq' & Hroom). rewrite Hq in Hq'.
    injection Hq' as <-. by rewrite E. }
  assert (Hids : p_id <$> omap (λ id, players s !! id) l = l).
  { clear Hq L1 L2. induction l as [|a l IH]; [done|]. simpl.
    destruct (L5 a) as (q & Hq & _); [left|]. rewrite Hq. simpl.
    destruct (wf_player s Hs _ _ Hq) as (-> & _). f_equal.
    apply IH. intros x Hx. apply L5. by right. }
  split; [done|]. split; [by rewrite Hids | done].
Qed.

(** What a successful deal leaves in a reachable store. *)
Lemma dealCards_seats s rid rnd s' ev :
  wf_struct s → PokerGameManager.dealCards rid rnd s = (Ok tt, s', ev) →
  ∃ room,
    rooms_get (rooms s) rid = Some room ∧
    (2 <= length (seated s rid) <= 6)%nat ∧
    seated s' rid =
      imap (dealtHand (val (PokerGameManager.createDeck rnd) s)) (seated s rid) ∧
    rooms s' =
      rooms_set (rooms s) rid
        (room_assign room
           (mkRoomUpdates (Some playing) (Some pre_flop) (Some 0) (Some 0)
              (Some (drop (4 * length (seated s rid))
                          (val (PokerGameManager.createDeck rnd) s)))
              (Some []))) ∧
    ev = [EvDeal rid].
Proof.
  intros Hs Hrun.
  destruct (rooms_get (rooms s) rid) as [room|] eqn:Hr;
    [|rewrite (dealCards_lookup s rid rnd Hr) in Hrun; discriminate].
  exists room. split; [done|].
  destruct (wf_room s Hs _ _ Hr) as (Hid & _).
  destruct (length_seated s _ _ Hs Hr) as [Hlen Hmax].
  destruct (seated_ids s rid room Hs Hr) as (Hids & Hnd & Hq).
  destruct (createDeck_only_uuid rnd s) as (_ & U2 & _ & U4).
  rewrite (dealCards_run s rid rnd room Hr Hid) in Hrun. cbv zeta in Hrun.
  remember (val (PokerGameManager.createDeck rnd) s) as deck eqn:Edeck.
  remember (exec (PokerGameManager.createDeck rnd) s) as s1 eqn:Es1.
  clear Edeck Es1.
  destruct (Z.of_nat (length (seated s rid)) <? 2) eqn:E; [discriminate|].
  destruct (dealLoop_only_players (seated s rid) deck s1) as (_ & _ & V3).
  injection Hrun as <- <-.
  split; [lia|]. split; [|done].
  rewrite (seated_eq (store_with_rooms _ _)). simpl. rewrite V3, U4, <- Hids.
  apply (dealLoop_seats _ _ _ _ 0 Hnd). intros j q Hj. split; [done|].
  rewrite U2. apply Hq. by eapply list_elem_of_lookup_2.
Qed.

Lemma reachable_wf_struct s : reachable s → wf_struct s.
Proof. intros Hr. by destruct (wf_reachable s Hr). Qed.

(** X4. In a reachable store a successful deal hands the player in seat
    [i] the cards [4i .. 4i+3] of the freshly shuffled deck and changes
    nothing else of any seated player; the seats keep their order. *)
Theorem dealCards_hands_in_seat_order s rid rnd s' ev :
  reachable s → PokerGameManager.dealCards rid rnd s = (Ok tt, s', ev) →
  seated s' rid =
  imap (dealtHand (val (PokerGameManager.createDeck rnd) s)) (seated s rid).
Proof.
  intros Hr Hrun. apply reachable_wf_struct in Hr.
  by destruct (dealCards_seats s rid rnd s' ev Hr Hrun) as (room & _ & _ & H & _).
Qed.

Lemma hands_concat (ps : list Player) deck k :
  mjoin ((λ p, default [] (p_hand p)) <$> imap (λ j, dealtHand deck (k + j)) ps) =
  take (4 * length ps) (drop (4 * k) deck).
Proof.
  revert k. induction ps as [|p ps IH]; intros k; [done|].
  rewrite imap_cons, fmap_cons. cbn [mjoin list_join].
  rewrite (imap_ext _ (λ j, dealtHand deck (S k + j))).
  - rewrite IH. unfold dealtHand at 1. cbn [p_hand player_with_hand default].
    replace (4 * S k)%nat with (4 * k + 4)%nat by lia.
    rewrite <- drop_drop, Nat.add_0_r. unfold id.
    rewrite take_take_drop. f_equal. simpl. lia.
  - intros j x _. simpl. f_equal. lia.
Qed.

(** X5. In a reachable store a successful deal splits the freshly
    shuffled deck: the hands, taken in seat order, followed by the deck
    stored on the room, are the shuffled deck again, card for card. *)
Theorem dealCards_partition s rid rnd s' ev :
  reachable s → PokerGameManager.dealCards rid rnd s = (Ok tt, s', ev) →
  ∃ room',
    rooms_get (rooms s') rid = Some room' ∧
    mjoin ((λ p, default [] (p_hand p)) <$> seated s' rid) ++
      default [] (r_deck room') =
    val (PokerGameManager.createDeck rnd) s.
Proof.
  intros Hr Hrun. apply reachable_wf_struct in Hr.
  destruct (dealCards_seats s rid rnd s' ev Hr Hrun)
    as (room & Hroom & Hn & Hseats & Hrooms & _).
  eexists. split.
  - rewrite Hrooms, rooms_get_set. by rewrite decide_True.
  - rewrite Hseats. simpl.
    rewrite (hands_concat (seated s rid) _ 0).
    change (4 * 0)%nat with 0%nat. rewrite drop_0.
    apply (take_drop (4 * length (seated s rid))).

Qed.

Lemma dealCards_partition_witness :
  reachable (after two_seated) ∧
  PokerGameManager.dealCards 0%nat (λ i, i) (after two_seated) =
    (Ok tt, after dealt, [EvDeal 0%nat]) ∧
  ∃ room',
    rooms_get (rooms (after dealt)) 0%nat = Some room' ∧
    length (mjoin ((λ p, default [] (p_hand p)) <$> seated (after dealt) 0%nat) ++
            default [] (r_deck room')) = 52%nat.
Proof.
  assert (R2 : reachable (after two_seated)).
  { apply reachable_after. vm_compute. eauto. }
  assert (E : PokerGameManager.dealCards 0%nat (λ i, i) (after two_seated) =
              (Ok tt, after dealt, [EvDeal 0%nat])) by (vm_compute; reflexivity).
  split; [exact R2|]. split; [exact E|].
  destruct (dealCards_partition _ _ _ _ _ R2 E) as (room' & Hk & Hdeck).
  exists room'. split; [exact Hk|]. rewrite Hdeck. apply createDeck_length.
Defined.

Lemma dealCards_hands_in_seat_order_witness :
  reachable (after two_seated) ∧
  PokerGameManager.dealCards 0%nat (λ i, i) (after two_seated) =
    (Ok tt, after dealt, [EvDeal 0%nat]) ∧
  seated (after dealt) 0%nat =
  imap (dealtHand (val (PokerGameManager.createDeck (λ i, i)) (after two_seated)))
       (seated (after two_seated) 0%nat).
Proof.
  assert (R2 : reachable (after two_seated)).
  { apply reachable_after. vm_compute. eauto. }
  assert (E : PokerGameManager.dealCards 0%nat (λ i, i) (after two_seated) =
              (Ok tt, after dealt, [EvDeal 0%nat])) by (vm_compute; reflexivity).
  split; [exact R2|]. split; [exact E|].
  exact (dealCards_hands_in_seat_order _ _ _ _ _ R2 E).
Defined.

(** X6. A refused deal changes nothing, and it is refused for one of
    two reasons only: the room does not exist, or fewer than two of its
    seats hold a player. *)
Theorem dealCards_failure s rid rnd e s' ev :
  PokerGameManager.dealCards rid rnd s = (Err e, s', ev) →
  s' = s ∧ ev = [] ∧
  ((e = "Room not found" ∧ rooms_get (rooms s) rid = None) ∨
   (e = "Need at least 2 players to deal cards" ∧
    is_Some (rooms_get (rooms s) rid) ∧ (length (seated s rid) < 2)%nat)).
Proof.
  rewrite run_eq. unfold PokerGameManager.dealCards. autorewrite with mread.
  destruct (rooms_get (rooms s) rid) as [room|] eqn:Hr.
  - autorewrite with mread.
    destruct (Z.of_nat (length (seated s rid)) <? 2) eqn:E.
    + autorewrite with mread. intros [= <- <- <-].
      split; [done|]. split; [done|]. right. split; [done|]. split; [eauto|lia].
    + autorewrite with mread. intros [=].
  - autorewrite with mread. intros [= <- <- <-]. by split_and!; [..|left].
Qed.

Lemma dealCards_failure_witness :
  PokerGameManager.dealCards 0%nat (λ i, i) ann_left =
    (Err "Room not found", ann_left, []) ∧
  rooms_get (rooms ann_left) 0%nat = None.
Proof.
  assert (E : PokerGameManager.dealCards 0%nat (λ i, i) ann_left =
              (Err "Room not found", ann_left, [])) by (vm_compute; reflexivity).
  split; [exact E|].
  destruct (dealCards_failure _ _ _ _ _ _ E) as (_ & _ & [[_ H]|[H _]]);
    [exact H | discriminate H].
Defined.

(** ** What each action does to its player and room *)

Lemma actor_lookup s sock player room :
  wf_struct s →
  val (MemStorage.getPlayerBySocketId sock) s = Some player →
  rooms_get (rooms s) (p_roomId player) = Some room →
  playersBySocket s !! sock = Some (p_id player) ∧
  players s !! p_id player = Some player ∧
  r_id room = p_roomId player.
Proof.
  intros Hs Hp Hr. destruct (wf_lookup_player s _ _ Hs Hp) as (Hsk & Hpl & _).
  by destruct (wf_room s Hs _ _ Hr) as (? & _).
Qed.

Lemma reachable_raised : reachable (after raised).
Proof. apply reachable_after. vm_compute. eauto. Qed.

Lemma reachable_dealt : reachable (after dealt).
Proof. apply reachable_after. vm_compute. eauto. Qed.

Lemma reachable_two_seated : reachable (after two_seated).
Proof. apply reachable_after. vm_compute. eauto. Qed.

(** X9. In a reachable store a raise by a seated player is accepted
    exactly when an amount is given that is above the room's current bet
    and no more than the player's chips. *)
Theorem raise_accepted_iff s sock amount player room :
  reachable s →
  val (MemStorage.getPlayerBySocketId sock) s = Some player →
  rooms_get (rooms s) (p_roomId player) = Some room →
  val (PokerGameManager.handlePlayerAction sock "raise" amount) s = Ok tt ↔
  ∃ a, amount = Some a ∧ r_currentBet room < a <= p_chips player.
Proof.
  intros Hreach Hp Hr. destruct (wf_reachable s Hreach) as [Hs Hn].
  destruct (actor_lookup s sock player room Hs Hp Hr) as (Hsk & Hpl & Hrid).
  pose proof (wf_bet s Hn _ _ (rooms_get_Some_elem _ _ _ Hr)) as Hrb.
  unfold val.
  rewrite (handlePlayerAction_run s sock _ player room Hsk Hpl eq_refl Hr Hrid).
  simpl. destruct amount as [a|]; simpl.
  - destruct (a =? 0) eqn:E0; simpl.
    { split; [done|]. intros (a' & [= <-] & Ha). lia. }
    destruct (a <=? r_currentBet room) eqn:E1; simpl.
    { split; [done|]. intros (a' & [= <-] & Ha). lia. }
    destruct (a >? p_chips player) eqn:E2; simpl.
    { split; [done|]. intros (a' & [= <-] & Ha). lia. }
    split; [|done]. intros _. exists a. split; [done|]. lia.
  - split; [done|]. by intros (a & ? & _).
Qed.

Lemma raise_accepted_iff_witness :
  reachable (after dealt) ∧
  (val (PokerGameManager.handlePlayerAction "sa" "raise" (Some 100))
       (after dealt) = Ok tt ↔
   ∃ a, Some 100 = Some a ∧ 0 < a <= 1000).
Proof.
  split; [exact reachable_dealt|].
  pose (player := mkPlayer 1%nat 0%nat "sa" "Ann" 1000
    (Some (take 4 (val (PokerGameManager.createDeck (λ i, i))
                       (after two_seated))))
    true false false 0 None false).
  assert (Hp : val (MemStorage.getPlayerBySocketId "sa") (after dealt) =
               Some player) by (vm_compute; reflexivity).
  destruct (rooms_get (rooms (after dealt)) (p_roomId player)) as [room|] eqn:Hr;
    [|vm_compute in Hr; discriminate Hr].
  assert (Hb : r_currentBet room = 0).
  { vm_compute in Hr. injection Hr as <-. reflexivity. }
  pose proof (raise_accepted_iff _ _ (Some 100) _ _ reachable_dealt Hp Hr) as H.
  rewrite Hb in H. exact H.
Defined.

(** X11. In a reachable store no action, accepted or refused, lowers
    the current bet of any room or removes a room. *)
Theorem room_bet_never_drops s sock action amount k r :
  reachable s → rooms_get (rooms s) k = Some r →
  ∃ r', rooms_get
          (rooms (exec (PokerGameManager.handlePlayerAction sock action amount) s))
          k = Some r' ∧
        r_currentBet r <= r_currentBet r'.
Proof.
  intros Hreach Hk. destruct (wf_reachable s Hreach) as [Hs Hn]. unfold exec.
  destruct (handlePlayerAction_lookup s sock action amount Hs)
    as [[e ->]|(pid & player & room & Hsk & Hp & Hid & Hr & Hrid)].
  { exists r. split; [done | lia]. }
  rewrite (handlePlayerAction_run s sock pid player room Hsk Hp Hid Hr Hrid).
  pose proof (wf_bet s Hn _ _ (rooms_get_Some_elem _ _ _ Hr)) as Hrb.
  assert (Hsame : ∃ r', rooms_get (rooms s) k = Some r' ∧
                        r_currentBet r <= r_currentBet r').
  { exists r. split; [done | lia]. }
  assert (Hbet : ∀ d roomBet, r_currentBet room <= roomBet →
            ∃ r', rooms_get (rooms (placeBet s player room d roomBet)) k = Some r' ∧
                  r_currentBet r <= r_currentBet r').
  { intros d roomBet Hle. simpl. rewrite rooms_get_set.
    destruct (decide (r_id room = k)) as [E|Hne]; [|done].
    eexists. split; [done|]. simpl.
    rewrite <- Hrid, E, Hk in Hr. injection Hr as <-. lia. }
  destruct (String.eqb action "fold"); [done|].
  destruct (String.eqb action "check").
  { by destruct (r_currentBet room >? p_currentBet player). }
  destruct (String.eqb action "call").
  { cbv zeta.
    destruct (r_currentBet room - p_currentBet player >? p_chips player);
      [done|]. apply Hbet. lia. }
  destruct (String.eqb action "raise").
  { destruct (PokerGameManager.raiseRejected amount (r_currentBet room)) eqn:E1;
      [done|]. cbv zeta.
    destruct (default 0 amount >? p_chips player); [done|].
    apply Hbet. destruct amount as [a|]; [|done].
    apply orb_false_iff in E1 as [_ E1]. apply Z.leb_gt in E1. simpl. lia. }
  destruct (String.eqb action "all-in"); [|done].
  apply Hbet. destruct (0 >? r_currentBet room) eqn:E; lia.
Qed.

Lemma room_bet_never_drops_witness :
  reachable (after raised) ∧
  ∃ r', rooms_get (rooms bob_all_in_late) 0%nat = Some r' ∧
        100 <= r_currentBet r'.
Proof.
  split; [exact reachable_raised|].
  destruct (rooms_get (rooms (after raised)) 0%nat) as [room|] eqn:Hr;
    [|vm_compute in Hr; discriminate Hr].
  assert (Hb : r_currentBet room = 100).
  { vm_compute in Hr. injection Hr as <-. reflexivity. }
  destruct (room_bet_never_drops _ "sb" "all-in" None _ _ reachable_raised Hr)
    as (r' & H1 & H2).
  rewrite Hb in H2. exists r'. split; [exact H1 | exact H2].
Defined.

(** ** Whose turn it is *)

(** X12. [getActivePlayerId] returns the id of the first player of the
    list who is connected, has not folded and has not acted, and nothing
    when the list holds no such player. *)
Theorem getActivePlayerId_first ps :
  match getActivePlayerId ps with
  | Some id =>
      ∃ l1 p l2, ps = l1 ++ p :: l2 ∧ Forall (λ q, canAct q = false) l1 ∧
                 p_isConnected p = true ∧ p_isFolded p = false ∧
                 p_hasActed p = false ∧ p_id p = id
  | None =>
      ∀ q, q ∈ ps →
        p_isConnected q = false ∨ p_isFolded q = true ∨ p_hasActed q = true
  end.
Proof.
  unfold getActivePlayerId. induction ps as [|p ps IH]; simpl.
  - intros q Hq. by apply elem_of_nil in Hq.
  - destruct (canAct p) eqn:E; simpl.
    + exists [], p, ps. split; [done|]. split; [constructor|].
      unfold canAct in E.
      destruct (p_isConnected p), (p_isFolded p), (p_hasActed p); done.
    + destruct (head (List.filter canAct ps)) as [q|]; simpl in *.
      * destruct IH as (l1 & q' & l2 & -> & Hl1 & Hq).
        exists (p :: l1), q', l2. split; [done|]. split; [by constructor|done].
      * intros q Hq. apply elem_of_cons in Hq as [->|Hq]; [|by apply IH].
        unfold canAct in E.
        destruct (p_isConnected p), (p_isFolded p), (p_hasActed p);
          simpl in E; auto; done.
Qed.

Lemma active_is_seated ps id :
  getActivePlayerId ps = Some id →
  ∃ p, p ∈ ps ∧ canAct p = true ∧ p_id p = id.
Proof.
  unfold getActivePlayerId. induction ps as [|p ps IH]; simpl; [done|].
  destruct (canAct p) eqn:E; simpl.
  - intros [= <-]. exists p. split; [left | done].
  - intros H. destruct (IH H) as (q & Hq & Hc). exists q. split; [by right|done].
Qed.

Lemma active_imap_dealtHand deck ps k :
  getActivePlayerId (imap (λ j, dealtHand deck (k + j)) ps) =
  getActivePlayerId ps.
Proof.
  unfold getActivePlayerId. revert k.
  induction ps as [|p ps IH]; intros k; [done|].
  rewrite imap_cons. simpl.
  change (canAct (dealtHand deck (k + 0) p)) with (canAct p).
  destruct (canAct p); [done|].
  rewrite <- (IH (S k)). do 3 f_equal. apply imap_ext. intros j x _. simpl.
  f_equal. lia.
Qed.

(** X13. In a reachable store a successful deal leaves the active
    player of the room as it was: a player who had acted or folded
    before the deal is still passed over after it. *)
Theorem dealCards_keeps_active s rid rnd s' ev :
  reachable s → PokerGameManager.dealCards rid rnd s = (Ok tt, s', ev) →
  getActivePlayerId (seated s' rid) = getActivePlayerId (seated s rid).
Proof.
  intros Hr Hrun. apply reachable_wf_struct in Hr.
  destruct (dealCards_seats s rid rnd s' ev Hr Hrun) as (room & _ & _ & -> & _).
  apply (active_imap_dealtHand _ _ 0).
Qed.

Lemma dealCards_keeps_active_witness :
  reachable (after folded) ∧
  getActivePlayerId (seated dealt_again 0%nat) =
  getActivePlayerId (seated (after folded) 0%nat).
Proof.
  assert (R : reachable (after folded)).
  { apply reachable_after. vm_compute. eauto. }
  split; [exact R|].
  assert (E : PokerGameManager.dealCards 0%nat (λ i, i) (after folded) =
              (Ok tt, dealt_again, [EvDeal 0%nat])) by (vm_compute; reflexivity).
  exact (dealCards_keeps_active _ _ _ _ _ R E).
Defined.

Lemma retired_not_active s s' player p' rid :
  wf_struct s →
  players s' = <[p_id player := p']> (players s) →
  playersByRoom s' = playersByRoom s →
  canAct p' = false →
  getActivePlayerId (seated s' rid) ≠ Some (p_id player).
Proof.
  intros Hs Hpl Hby Hc Hact.
  apply active_is_seated in Hact as (q & Hq & Hcq & Hid).
  rewrite seated_eq in Hq. apply list_elem_of_omap in Hq as (id & _ & Hq).
  rewrite Hpl, lookup_insert in Hq.
  destruct (decide (p_id player = id)) as [E|Hne].
  - injection Hq as <-. congruence.
  - destruct (wf_player s Hs _ _ Hq) as (E & _). congruence.
Qed.

(** X14. In a reachable store the player whose action was accepted is
    never the active player of any room afterwards. *)
Theorem actor_is_retired s sock action amount player s' ev rid :
  reachable s →
  val (MemStorage.getPlayerBySocketId sock) s = Some player →
  PokerGameManager.handlePlayerAction sock action amount s = (Ok tt, s', ev) →
  getActivePlayerId (seated s' rid) ≠ Some (p_id player).
Proof.
  intros Hreach Hpl. destruct (wf_reachable s Hreach) as [Hs Hn].
  destruct (handlePlayerAction_lookup s sock action amount Hs)
    as [[e ->]|(pid & player0 & room & Hsk & Hp & Hid & Hr & Hrid)]; [done|].
  assert (player0 = player) as ->.
  { revert Hpl. msimp. rewrite Hsk, Hp. by intros [= <-]. }
  rewrite (handlePlayerAction_run s sock pid player room Hsk Hp Hid Hr Hrid).
  assert (Hmark : ∀ f, canAct (f player) = false →
            getActivePlayerId (seated (markPlayer s player f) rid) ≠
            Some (p_id player)).
  { intros f Hf. by eapply retired_not_active. }
  assert (Hbet : ∀ d roomBet,
            getActivePlayerId (seated (placeBet s player room d roomBet) rid) ≠
            Some (p_id player)).
  { intros d roomBet. eapply retired_not_active; [done..|].
    unfold canAct. simpl. by rewrite andb_false_r. }
  destruct (String.eqb action "fold").
  { intros [= <- _]. apply Hmark. unfold canAct. simpl.
    by rewrite andb_false_r. }
  destruct (String.eqb action "check").
  { destruct (r_currentBet room >? p_currentBet player); [done|].
    intros [= <- _]. apply Hmark. unfold canAct. simpl.
    by rewrite andb_false_r. }
  destruct (String.eqb action "call").
  { cbv zeta.
    destruct (r_currentBet room - p_currentBet player >? p_chips player);
      [done|]. intros [= <- _]. apply Hbet. }
  destruct (String.eqb action "raise").
  { destruct (PokerGameManager.raiseRejected amount (r_currentBet room));
      [done|]. cbv zeta.
    destruct (default 0 amount >? p_chips player); [done|].
    intros [= <- _]. apply Hbet. }
  destruct (String.eqb action "all-in"); [|done].
  intros [= <- _]. apply Hbet.
Qed.

Lemma actor_is_retired_witness :
  reachable (after dealt) ∧
  getActivePlayerId (seated ann_raised 0%nat) ≠ Some 1%nat.
Proof.
  split; [exact reachable_dealt|].
  pose (player := mkPlayer 1%nat 0%nat "sa" "Ann" 1000
    (Some (take 4 (val (PokerGameManager.createDeck (λ i, i))
                       (after two_seated))))
    true false false 0 None false).
  assert (Hp : val (MemStorage.getPlayerBySocketId "sa") (after dealt) =
               Some player) by (vm_compute; reflexivity).
  assert (E : PokerGameManager.handlePlayerAction "sa" "raise" (Some 100)
                (after dealt) =
              (Ok tt, ann_raised, [EvBet 1%nat 0%nat 100]))
    by (vm_compute; reflexivity).
  exact (actor_is_retired _ _ _ _ _ _ _ 0%nat reachable_dealt Hp E).
Defined.

(** ** Flags that are only ever set *)

#[global] Instance flags_kept_preorder : PreOrder flags_kept.
Proof.
  split.
  - intros s. split; [done|]. intros pid p' _ Hp. by exists p'.
  - intros s1 s2 s3 [N1 H1] [N2 H2]. split; [lia|].
    intros pid p3 Hlt Hp3.
    destruct (H2 pid p3) as (p2 & Hp2 & Ha2 & Hf2); [lia | done |].
    destruct (H1 pid p2) as (p1 & Hp1 & Ha1 & Hf1); [done..|].
    exists p1. split; [done|]. split; auto.
Qed.

Lemma flags_same_players s s' :
  (nextUuid s <= nextUuid s')%nat → players s' = players s → flags_kept s s'.
Proof.
  intros Hn Hp. split; [done|]. intros pid p' _. rewrite Hp. intros H.
  by exists p'.
Qed.

Lemma flags_randomUUID : stays flags_kept randomUUID.
Proof. intros s. apply flags_same_players; simpl; [lia | done]. Qed.

Lemma flags_updatePlayer id f :
  (∀ p, (p_hasActed p = true → p_hasActed (f p) = true) ∧
        (p_isFolded p = true → p_isFolded (f p) = true)) →
  stays flags_kept (MemStorage.updatePlayer id f).
Proof.
  intros Hf s. rewrite exec_updatePlayer. split; simpl; [done|].
  intros pid p' _. rewrite lookup_alter.
  destruct (decide (id = pid)) as [<-|Hne].
  - intros H.
    apply fmap_Some in H as (p0 & Hp0 & ->). exists p0. split; [done | apply Hf].
  - intros H. by exists p'.
Qed.

Lemma flags_updateRoom id f : stays flags_kept (MemStorage.updateRoom id f).
Proof. intros s. rewrite exec_updateRoom. by apply flags_same_players. Qed.

Lemma flags_createRoom code host maxPlayers :
  stays flags_kept (MemStorage.createRoom code host maxPlayers).
Proof.
  intros s. unfold MemStorage.createRoom. msimp.
  apply flags_same_players; simpl; [lia | done].
Qed.

Lemma flags_createPlayer rid sock name chips :
  stays flags_kept (MemStorage.createPlayer rid sock name chips).
Proof.
  intros s. unfold MemStorage.createPlayer. msimp. split; simpl; [lia|].
  intros pid p' Hlt. rewrite lookup_insert_ne by lia. intros H. by exists p'.
Qed.

Lemma flags_removePlayer id : stays flags_kept (MemStorage.removePlayer id).
Proof.
  intros s. unfold MemStorage.removePlayer. msimp.
  destruct (players s !! id) as [p0|] eqn:E; [|reflexivity].
  split; simpl; [done|].
  intros pid p' _ Hl. apply lookup_delete_Some in Hl as [_ Hl]. by exists p'.
Qed.

Lemma flags_deleteRoom id : stays flags_kept (MemStorage.deleteRoom id).
Proof.
  intros s. unfold MemStorage.deleteRoom. msimp. by apply flags_same_players.
Qed.

Ltac flags_side := intros ?; split; intros ?; simpl; done.

Ltac flags_step :=
  lazymatch goal with
  | |- stays _ randomUUID => apply flags_randomUUID
  | |- stays _ (MemStorage.updatePlayer _ _) =>
      apply flags_updatePlayer; flags_side
  | |- stays _ (MemStorage.updatePlayerBySocket _ _) =>
      apply stays_updatePlayerBySocket; [apply _|]; intros ?;
      apply flags_updatePlayer; flags_side
  | |- stays _ (MemStorage.updateRoom _ _) => apply flags_updateRoom
  | |- stays _ (MemStorage.createRoom _ _ _) => apply flags_createRoom
  | |- stays _ (MemStorage.createPlayer _ _ _ _) => apply flags_createPlayer
  | |- stays _ (MemStorage.removePlayer _) => apply flags_removePlayer
  | |- stays _ (MemStorage.deleteRoom _) => apply flags_deleteRoom
  | |- stays _ (PokerGameManager.createDeck _) =>
      apply stays_createDeck; [apply _ | apply flags_randomUUID]
  | |- stays _ (PokerGameManager.dealLoop _ _) =>
      apply stays_dealLoop;
      [apply _ | intros ? ?; apply flags_updatePlayer; flags_side]
  | |- _ => stays_common
  end.

Lemma flags_createRoom_op draws sock name :
  stays flags_kept (PokerGameManager.createRoom draws sock name).
Proof.
  unfold PokerGameManager.createRoom. unfold_storage. repeat flags_step.
Qed.

Lemma flags_joinRoom sock name code :
  stays flags_kept (PokerGameManager.joinRoom sock name code).
Proof.
  unfold PokerGameManager.joinRoom. unfold_storage. cbv zeta.
  repeat flags_step.
Qed.

Lemma flags_leaveRoom sock : stays flags_kept (PokerGameManager.leaveRoom sock).
Proof.
  unfold PokerGameManager.leaveRoom. unfold_storage. repeat flags_step.
Qed.

Lemma flags_dealCards rid rnd :
  stays flags_kept (PokerGameManager.dealCards rid rnd).
Proof.
  unfold PokerGameManager.dealCards. unfold_storage. repeat flags_step.
Qed.

Lemma flags_setPlayerReady sock b :
  stays flags_kept (PokerGameManager.setPlayerReady sock b).
Proof.
  unfold PokerGameManager.setPlayerReady. unfold_storage. repeat flags_step.
Qed.

Lemma flags_setPlayerConnected sock b :
  stays flags_kept (PokerGameManager.setPlayerConnected sock b).
Proof.
  unfold PokerGameManager.setPlayerConnected. unfold_storage. repeat flags_step.
Qed.

Lemma flags_insert s s' player p' :
  nextUuid s' = nextUuid s →
  players s !! p_id player = Some player →
  players s' = <[p_id player := p']> (players s) →
  (p_hasActed player = true → p_hasActed p' = true) →
  (p_isFolded player = true → p_isFolded p' = true) →
  flags_kept s s'.
Proof.
  intros Hn Hp Hpl Ha Hf. split; [lia|]. intros pid q _.
  rewrite Hpl, lookup_insert.
  destruct (decide (p_id player = pid)) as [<-|Hne].
  - intros [= <-]. by exists player.
  - intros H. by exists q.
Qed.

Lemma flags_handlePlayerAction s sock action amount :
  wf_struct s →
  flags_kept s (exec (PokerGameManager.handlePlayerAction sock action amount) s).
Proof.
  intros Hs. unfold exec.
  destruct (handlePlayerAction_lookup s sock action amount Hs)
    as [[e ->]|(pid & player & room & Hsk & Hp & Hid & Hr & Hrid)];
    [reflexivity|].
  rewrite (handlePlayerAction_run s sock pid player room Hsk Hp Hid Hr Hrid).
  rewrite <- Hid in Hp.
  repeat match goal with
         | |- context [if ?b then _ else _] => destruct b
         | |- context [let _ := _ in _] => cbv zeta
         end; simpl;
    first [ reflexivity
          | by eapply flags_insert ].
Qed.

Lemma flags_step_op op s s' ev :
  wf_struct s → step op s = Some (s', ev) → flags_kept s s'.
Proof.
  intros Hs. rewrite step_eq. destruct op.
  - destruct (val _ s); [|done]. intros [= <- <-]. apply flags_createRoom_op.
  - intros [= <- <-]. apply flags_joinRoom.
  - intros [= <- <-]. apply flags_leaveRoom.
  - intros [= <- <-]. apply flags_dealCards.
  - intros [= <- <-]. by apply flags_handlePlayerAction.
  - intros [= <- <-]. apply flags_setPlayerReady.
  - intros [= <- <-]. apply flags_setPlayerConnected.
Qed.

Lemma flags_run ops s s' ev :
  wf s → run ops s = Some (s', ev) → flags_kept s s'.
Proof.
  revert s ev. induction ops as [|op ops IH]; intros s ev Hs.
  - intros [= <- <-]. reflexivity.
  - intros Hr. apply run_cons in Hr as (s1 & e1 & e2 & H1 & H2 & _).
    etrans; [eapply flags_step_op; [apply Hs | done]|].
    eapply IH; [|done]. by eapply wf_step.
Qed.

(** X15. Along every run of operations from a reachable store, a
    player who has acted stays marked as having acted and a player who
    has folded stays folded for as long as the player exists: no
    operation, not even a new deal, clears either flag. *)
Theorem flags_are_permanent ops s s' ev pid p p' :
  reachable s → run ops s = Some (s', ev) →
  players s !! pid = Some p → players s' !! pid = Some p' →
  (p_hasActed p = true → p_hasActed p' = true) ∧
  (p_isFolded p = true → p_isFolded p' = true).
Proof.
  intros Hreach Hrun Hp Hp'. pose proof (wf_reachable s Hreach) as Hwf.
  destruct (flags_run ops s s' ev Hwf Hrun) as [_ H].
  destruct Hwf as [Hs _]. destruct (wf_player s Hs _ _ Hp) as (_ & Hlt & _).
  destruct (H pid p' Hlt Hp') as (p0 & Hp0 & Hflags).
  rewrite Hp in Hp0. by injection Hp0 as <-.
Qed.

Lemma flags_are_permanent_witness :
  reachable (after raised) ∧
  ∀ p p', players (after raised) !! 1%nat = Some p →
          players dealt_again !! 1%nat = Some p' →
          p_hasActed p = true → p_hasActed p' = true.
Proof.
  split; [exact reachable_raised|]. intros p p' Hp Hp'.
  assert (E : run [OpPlayerAction "sb" "fold" None; OpDealCards 0%nat (λ i, i)]
                  (after raised) = Some (dealt_again, [EvDeal 0%nat]))
    by (vm_compute; reflexivity).
  exact (proj1 (flags_are_permanent _ _ _ _ _ _ _ reachable_raised E Hp Hp')).
Defined.

(** ** Creating and joining a room *)

Lemma createPlayer_run rid sock name s :
  MemStorage.createPlayer rid sock name 1000 s =
  (newPlayer (nextUuid s) rid sock name,
   mkStore (rooms s)
           (<[nextUuid s := newPlayer (nextUuid s) rid sock name]> (players s))
           (<[sock := nextUuid s]> (playersBySocket s))
           (<[rid := default [] (playersByRoom s !! rid) ++ [nextUuid s]]>
              (playersByRoom s))
           (S (nextUuid s)),
   []).
Proof. rewrite run_eq. unfold MemStorage.createPlayer. msimp. done. Qed.

Lemma createRoom_run s draws sock name code :
  val (PokerGameManager.uniqueRoomCode draws) s = Some code →
  PokerGameManager.createRoom draws sock name s =
  (Some (Ok (code, S (nextUuid s))),
   mkStore (rooms_set (rooms s) (nextUuid s) (newRoom (nextUuid s) code sock))
           (<[S (nextUuid s) :=
                newPlayer (S (nextUuid s)) (nextUuid s) sock name]> (players s))
           (<[sock := S (nextUuid s)]> (playersBySocket s))
           (<[nextUuid s := [S (nextUuid s)]]> (playersByRoom s))
           (S (S (nextUuid s))),
   []).
Proof.
  intros Hc. rewrite run_eq. unfold PokerGameManager.createRoom.
  rewrite val_bind, exec_bind, log_bind, Hc, uniqueRoomCode_exec,
    uniqueRoomCode_log.
  unfold MemStorage.createRoom, MemStorage.createPlayer. msimp. simpl.
  change (val randomUUID s) with (nextUuid s). unfold rooms_alter.
  rewrite rooms_get_set, decide_True by done. simpl.
  rewrite rooms_set_set, lookup_insert_eq, insert_insert_eq. done.
Qed.

Lemma uniqueRoomCode_first draws s code :
  val (PokerGameManager.uniqueRoomCode draws) s = Some code →
  ∃ taken rest,
    draws = taken ++ code :: rest ∧
    (∀ c, c ∈ taken → is_Some (rooms_find_code (rooms s) c)) ∧
    rooms_find_code (rooms s) code = None.
Proof.
  induction draws as [|c0 draws IH]; simpl; [done|]. msimp.
  destruct (rooms_find_code (rooms s) c0) as [r|] eqn:E.
  - intros H. destruct (IH H) as (taken & rest & -> & Ht & Hn).
    exists (c0 :: taken), rest. split; [done|]. split; [|done].
    intros c Hin. apply elem_of_cons in Hin as [->|Hin]; [by rewrite E | auto].
  - msimp. intros [= <-]. exists [], draws. split; [done|]. split; [|done].
    intros c Hin. by apply elem_of_nil in Hin.
Qed.

Lemma omap_lookup_ext (m m' : gmap uuid Player) (l : list uuid) :
  (∀ pid, pid ∈ l → m' !! pid = m !! pid) →
  omap (λ id, m' !! id) l = omap (λ id, m !! id) l.
Proof.
  induction l as [|a l IH]; intros H; [done|]. csimpl.
  rewrite (H a) by left. rewrite IH; [done|]. intros pid Hin. apply H. by right.
Qed.

Lemma seated_frame s s' k :
  playersByRoom s' !! k = playersByRoom s !! k →
  (∀ pid, pid ∈ default [] (playersByRoom s !! k) →
          players s' !! pid = players s !! pid) →
  seated s' k = seated s k.
Proof.
  intros Hl Hp. rewrite !seated_eq, Hl. by apply omap_lookup_ext.
Qed.

Lemma find_code_frame s s' c :
  wf_struct s → wf_struct s' →
  (∀ k r, r_code r = c →
          rooms_get (rooms s') k = Some r ↔ rooms_get (rooms s) k = Some r) →
  rooms_find_code (rooms s') c = rooms_find_code (rooms s) c.
Proof.
  intros Hs Hs' Hiff.
  destruct (rooms_find_code (rooms s') c) as [r'|] eqn:E'.
  - destruct (wf_lookup_code s' _ _ Hs' E') as [Hr Hc].
    apply Hiff in Hr; [|done]. rewrite <- Hc. symmetry.
    by eapply wf_code_lookup.
  - destruct (rooms_find_code (rooms s) c) as [r|] eqn:E; [|done].
    destruct (wf_lookup_code s _ _ Hs E) as [Hr Hc].
    apply Hiff in Hr; [|done].
    apply (wf_code_lookup s' _ _ Hs') in Hr. congruence.
Qed.

(** X16. In a reachable store, [createRoom] takes the first drawn code
    that no stored room carries, stores a room under that code with the
    caller as host, six seats of which one is taken, in state waiting
    with empty pot, and seats the caller there as a fresh player with
    1000 chips; the caller's connection now maps to that player, rooms
    under other codes and the seats of the other rooms are as before. *)
Theorem createRoom_opens_room s draws sock name res s' ev :
  reachable s →
  PokerGameManager.createRoom draws sock name s = (Some res, s', ev) →
  ∃ code taken rest,
    draws = taken ++ code :: rest ∧
    (∀ c, c ∈ taken → is_Some (val (MemStorage.getRoomByCode c) s)) ∧
    val (MemStorage.getRoomByCode code) s = None ∧
    res = Ok (code, S (nextUuid s)) ∧ ev = [] ∧
    val (MemStorage.getRoomByCode code) s' =
      Some (newRoom (nextUuid s) code sock) ∧
    seated s' (nextUuid s) =
      [newPlayer (S (nextUuid s)) (nextUuid s) sock name] ∧
    val (MemStorage.getPlayerBySocketId sock) s' =
      Some (newPlayer (S (nextUuid s)) (nextUuid s) sock name) ∧
    (∀ c, c ≠ code →
       val (MemStorage.getRoomByCode c) s' = val (MemStorage.getRoomByCode c) s) ∧
    (∀ k r, rooms_get (rooms s) k = Some r → seated s' k = seated s k).
Proof.
  intros Hreach Hrun. apply reachable_wf_struct in Hreach as Hs.
  pose proof (wf_struct_createRoom_op s draws sock name Hs) as Hs'.
  unfold exec in Hs'. rewrite Hrun in Hs'. simpl in Hs'.
  destruct (val (PokerGameManager.uniqueRoomCode draws) s) as [code|] eqn:Hc.
  2: { revert Hrun. rewrite run_eq. unfold PokerGameManager.createRoom.
       rewrite val_bind, Hc. by msimp. }
  rewrite (createRoom_run s draws sock name code Hc) in Hrun.
  injection Hrun as <- <- <-.
  destruct (uniqueRoomCode_first draws s code Hc) as (taken & rest & Hd & Ht & Hn).
  exists code, taken, rest. msimp.
  split; [done|]. split; [done|]. split; [done|]. split; [done|].
  split; [done|]. simpl in *.
  assert (Hnew : rooms_get (rooms_set (rooms s) (nextUuid s)
                              (newRoom (nextUuid s) code sock)) (nextUuid s) =
                 Some (newRoom (nextUuid s) code sock)).
  { by rewrite rooms_get_set, decide_True. }
  split_and!.
  - apply (wf_code_lookup _ _ _ Hs') in Hnew. exact Hnew.
  - rewrite seated_eq. simpl. rewrite lookup_insert_eq. csimpl.
    by rewrite lookup_insert_eq.
  - by rewrite !lookup_insert_eq.
  - intros c Hne. apply (find_code_frame s _ c Hs Hs'). intros k r Hcode. simpl.
    rewrite rooms_get_set. destruct (decide (nextUuid s = k)) as [<-|]; [|done].
    rewrite (wf_no_room_at_next s Hs). split; [|done].
    intros [= <-]. by simpl in Hcode.
  - intros k r Hk.
    destruct (wf_room s Hs _ _ Hk) as (_ & Hlt & _ & l & L1 & _ & _ & _ & L5).
    apply seated_frame; simpl.
    + rewrite lookup_insert_ne; [done | lia].
    + rewrite L1. simpl. intros pid Hin. destruct (L5 _ Hin) as (p & Hp & _).
      destruct (wf_player s Hs _ _ Hp) as (_ & Hlt' & _).
      rewrite lookup_insert_ne; [done | lia].
Qed.

Lemma createRoom_opens_room_witness :
  reachable (after two_seated) ∧
  ∃ code taken rest,
    ["ABC123"; "XYZ789"] = taken ++ code :: rest ∧
    (∀ c, c ∈ taken →
       is_Some (val (MemStorage.getRoomByCode c) (after two_seated))) ∧
    val (MemStorage.getRoomByCode code) (after two_seated) = None.
Proof.
  split; [exact reachable_two_seated|].
  destruct (PokerGameManager.createRoom ["ABC123"; "XYZ789"] "sc" "Cy"
              (after two_seated)) as [[[res|] s'] ev] eqn:E;
    [|vm_compute in E; discriminate E].
  destruct (createRoom_opens_room _ _ _ _ _ _ _ reachable_two_seated E)
    as (code & taken & rest & H1 & H2 & H3 & _).
  exists code, taken, rest. split; [exact H1|]. split; [exact H2 | exact H3].
Defined.

Lemma joinRoom_run_new s sock name code room :
  rooms_find_code (rooms s) code = Some room →
  r_currentPlayers room < r_maxPlayers room →
  (∀ p, val (MemStorage.getPlayerBySocketId sock) s = Some p →
        p_roomId p ≠ r_id room) →
  PokerGameManager.joinRoom sock name code s =
  (Ok (nextUuid s,
       PokerGameManager.mapToPlayerState
         (newPlayer (nextUuid s) (r_id room) sock name)),
   mkStore (rooms_alter
              (λ r, room_with_currentPlayers r (r_currentPlayers room + 1))
              (r_id room) (rooms s))
           (<[nextUuid s := newPlayer (nextUuid s) (r_id room) sock name]>
              (players s))
           (<[sock := nextUuid s]> (playersBySocket s))
           (<[r_id room :=
                default [] (playersByRoom s !! r_id room) ++ [nextUuid s]]>
              (playersByRoom s))
           (S (nextUuid s)),
   []).
Proof.
  intros Hf Hlt Hp. rewrite run_eq. unfold PokerGameManager.joinRoom.
  cbv zeta. revert Hp. msimp. rewrite Hf.
  destruct (r_currentPlayers room >=? r_maxPlayers room) eqn:E; [lia|].
  intros Hp. msimp.
  assert (Hnew :
    ∀ s0, s0 = s →
    (val (let! player := MemStorage.createPlayer (r_id room) sock name 1000 in
          MemStorage.updateRoom (r_id room)
            (λ r, room_with_currentPlayers r (r_currentPlayers room + 1)) ;;
          ret (Ok (p_id player, PokerGameManager.mapToPlayerState player))) s0,
     exec (let! player := MemStorage.createPlayer (r_id room) sock name 1000 in
          MemStorage.updateRoom (r_id room)
            (λ r, room_with_currentPlayers r (r_currentPlayers room + 1)) ;;
          ret (Ok (p_id player, PokerGameManager.mapToPlayerState player))) s0,
     log (let! player := MemStorage.createPlayer (r_id room) sock name 1000 in
          MemStorage.updateRoom (r_id room)
            (λ r, room_with_currentPlayers r (r_currentPlayers room + 1)) ;;
          ret (Ok (p_id player, PokerGameManager.mapToPlayerState player))) s0) =
    (Ok (nextUuid s,
       PokerGameManager.mapToPlayerState
         (newPlayer (nextUuid s) (r_id room) sock name)),
     mkStore (rooms_alter
              (λ r, room_with_currentPlayers r (r_currentPlayers room + 1))
              (r_id room) (rooms s))
           (<[nextUuid s := newPlayer (nextUuid s) (r_id room) sock name]>
              (players s))
           (<[sock := nextUuid s]> (playersBySocket s))
           (<[r_id room :=
                default [] (playersByRoom s !! r_id room) ++ [nextUuid s]]>
              (playersByRoom s))
           (S (nextUuid s)),
     [])).
  { intros s0 ->. unfold MemStorage.createPlayer. msimp. done. }
  destruct (playersBySocket s !! sock) as [pid|] eqn:Hsk; [|by apply Hnew].
  destruct (players s !! pid) as [existing|] eqn:Hex; [|by apply Hnew].
  destruct (decide (p_roomId existing = r_id room)) as [Heq|Hne];
    [|by apply Hnew].
  by destruct (Hp existing eq_refl).
Qed.

(** X17. In a reachable store a refused [joinRoom] changes nothing, and
    it is refused for one of two reasons only: no room carries the code,
    or the room under the code has all six seats taken (also when the
    caller already holds one of them). *)
Theorem joinRoom_failure s sock name code e s' ev :
  reachable s →
  PokerGameManager.joinRoom sock name code s = (Err e, s', ev) →
  s' = s ∧ ev = [] ∧
  ((e = "Room not found" ∧ val (MemStorage.getRoomByCode code) s = None) ∨
   (e = "Room is full" ∧
    ∃ room, val (MemStorage.getRoomByCode code) s = Some room ∧
            length (seated s (r_id room)) = 6%nat)).
Proof.
  intros Hreach. apply reachable_wf_struct in Hreach as Hs.
  rewrite run_eq. unfold PokerGameManager.joinRoom. cbv zeta. msimp.
  destruct (rooms_find_code (rooms s) code) as [room|] eqn:Hf.
  - destruct (wf_lookup_code s _ _ Hs Hf) as [Hr _].
    destruct (wf_room s Hs _ _ Hr) as (_ & _ & Hmax & _).
    destruct (length_seated s _ _ Hs Hr) as [Hlen Hle].
    destruct (r_currentPlayers room >=? r_maxPlayers room) eqn:E.
    + msimp. intros [= <- <- <-]. split; [done|]. split; [done|]. right.
      split; [done|]. exists room. split; [done|]. lia.
    + msimp.
      destruct (playersBySocket s !! sock) as [pid|]; [|by msimp].
      destruct (players s !! pid) as [existing|]; [|by msimp].
      destruct (decide (p_roomId existing = r_id room)); by msimp.
  - msimp. intros [= <- <- <-]. split; [done|]. split; [done|]. by left.
Qed.

Lemma joinRoom_failure_witness :
  reachable (after six_seated) ∧
  PokerGameManager.joinRoom "sg" "Gus" "ABC123" (after six_seated) =
    (Err "Room is full", after six_seated, []) ∧
  ∃ room, val (MemStorage.getRoomByCode "ABC123") (after six_seated) = Some room ∧
          length (seated (after six_seated) (r_id room)) = 6%nat.
Proof.
  assert (R : reachable (after six_seated)).
  { apply reachable_after. vm_compute. eauto. }
  assert (E : PokerGameManager.joinRoom "sg" "Gus" "ABC123" (after six_seated) =
              (Err "Room is full", after six_seated, []))
    by (vm_compute; reflexivity).
  split; [exact R|]. split; [exact E|].
  destruct (joinRoom_failure _ _ _ _ _ _ _ R E) as (_ & _ & [[H _]|[_ H]]);
    [discriminate H | exact H].
Defined.

(** X18. In a reachable store, when [joinRoom] succeeds for a
    connection that holds no seat in the room under the code, it seats a
    fresh player with 1000 chips, no hand and no bet behind the players
    already seated there, raises the room's player count by one, and
    makes the connection map to the new player; no player record is
    removed, so a seat the connection held in another room stays taken,
    and the other rooms and their seats are as before. *)
Theorem joinRoom_takes_seat s sock name code room res s' ev :
  reachable s →
  val (MemStorage.getRoomByCode code) s = Some room →
  (∀ p, val (MemStorage.getPlayerBySocketId sock) s = Some p →
        p_roomId p ≠ r_id room) →
  PokerGameManager.joinRoom sock name code s = (Ok res, s', ev) →
  let player := newPlayer (nextUuid s) (r_id room) sock name in
  res = (nextUuid s, PokerGameManager.mapToPlayerState player) ∧ ev = [] ∧
  seated s' (r_id room) = seated s (r_id room) ++ [player] ∧
  val (MemStorage.getRoomByCode code) s' =
    Some (room_with_currentPlayers room (r_currentPlayers room + 1)) ∧
  val (MemStorage.getPlayerBySocketId sock) s' = Some player ∧
  (∀ pid p, players s !! pid = Some p → players s' !! pid = Some p) ∧
  (∀ k r, rooms_get (rooms s) k = Some r → k ≠ r_id room →
          rooms_get (rooms s') k = Some r ∧ seated s' k = seated s k).
Proof.
  intros Hreach Hf Hp Hrun player.
  apply reachable_wf_struct in Hreach as Hs.
  pose proof (wf_struct_joinRoom s sock name code Hs) as Hs'.
  unfold exec in Hs'. rewrite Hrun in Hs'. simpl in Hs'.
  revert Hf. msimp. intros Hf.
  destruct (wf_lookup_code s _ _ Hs Hf) as [Hr Hc].
  destruct (wf_room s Hs _ _ Hr) as (_ & Hlt & Hmax & l & L1 & _ & _ & _ & L5).
  destruct (r_currentPlayers room >=? r_maxPlayers room) eqn:Hfull.
  { revert Hrun. rewrite run_eq. unfold PokerGameManager.joinRoom. msimp.
    rewrite Hf, Hfull. by msimp. }
  assert (Hold : ∀ pid p, players s !! pid = Some p → pid ≠ nextUuid s).
  { intros pid p Hpl. destruct (wf_player s Hs _ _ Hpl) as (_ & ? & _). lia. }
  rewrite (joinRoom_run_new s sock name code room Hf) in Hrun; [|lia|done].
  injection Hrun as <- <- <-.
  split; [done|]. split; [done|]. simpl in *.
  assert (Hroom' : rooms_get
            (rooms_alter
               (λ r, room_with_currentPlayers r (r_currentPlayers room + 1))
               (r_id room) (rooms s)) (r_id room) =
            Some (room_with_currentPlayers room (r_currentPlayers room + 1))).
  { by rewrite rooms_get_alter, decide_True, Hr. }
  split_and!.
  - rewrite !seated_eq. simpl. rewrite lookup_insert_eq, L1. simpl.
    rewrite omap_app. csimpl. rewrite lookup_insert_eq. f_equal.
    apply omap_lookup_ext. intros pid Hin. destruct (L5 _ Hin) as (p & Hpl & _).
    rewrite lookup_insert_ne; [done|]. intros E. by eapply Hold.
  - apply (wf_code_lookup _ _ _ Hs') in Hroom'. simpl in Hroom'.
    by rewrite Hc in Hroom'.
  - by rewrite !lookup_insert_eq.
  - intros pid p Hpl. rewrite lookup_insert_ne; [done|]. intros E.
    by eapply Hold.
  - intros k r Hk Hne. split.
    + by rewrite rooms_get_alter, decide_False.
    + destruct (wf_room s Hs _ _ Hk) as (_ & _ & _ & l' & L1' & _ & _ & _ & L5').
      apply seated_frame; simpl.
      * by rewrite lookup_insert_ne.
      * rewrite L1'. simpl. intros pid Hin. destruct (L5' _ Hin) as (p & Hpl & _).
        rewrite lookup_insert_ne; [done|]. intros E. by eapply Hold.
Qed.

Lemma joinRoom_takes_seat_witness :
  reachable (after two_seated) ∧
  ∃ room s',
    val (MemStorage.getRoomByCode "ABC123") (after two_seated) = Some room ∧
    seated s' (r_id room) =
    seated (after two_seated) (r_id room) ++
      [newPlayer (nextUuid (after two_seated)) (r_id room) "sc" "Cy"].
Proof.
  split; [exact reachable_two_seated|].
  destruct (val (MemStorage.getRoomByCode "ABC123") (after two_seated))
    as [room|] eqn:Hf; [|vm_compute in Hf; discriminate Hf].
  assert (Hid : r_id room = 0%nat).
  { vm_compute in Hf. injection Hf as <-. reflexivity. }
  assert (Hp : ∀ p, val (MemStorage.getPlayerBySocketId "sc") (after two_seated)
                    = Some p → p_roomId p ≠ r_id room).
  { intros p H. vm_compute in H. discriminate H. }
  destruct (PokerGameManager.joinRoom "sc" "Cy" "ABC123" (after two_seated))
    as [[[res|e] s'] ev] eqn:E; [|vm_compute in E; discriminate E].
  exists room, s'. split; [reflexivity|].
  exact (proj1 (proj2 (proj2
    (joinRoom_takes_seat _ _ _ _ _ _ _ _ reachable_two_seated Hf Hp E)))).
Defined.

(** ** Leaving a room *)

Lemma leaveRoom_store s sock player room :
  wf_struct s →
  val (MemStorage.getPlayerBySocketId sock) s = Some player →
  rooms_get (rooms s) (p_roomId player) = Some room →
  ∃ s',
    PokerGameManager.leaveRoom sock s = (Ok tt, s', []) ∧
    players s' = delete (p_id player) (players s) ∧
    playersBySocket s' = delete sock (playersBySocket s) ∧
    (∀ k, rooms_get (rooms s') k =
       if decide (k = p_roomId player) then
         if r_currentPlayers room - 1 <=? 1 then None
         else Some (room_with_currentPlayers room (r_currentPlayers room - 1))
       else rooms_get (rooms s) k) ∧
    (∀ k, playersByRoom s' !! k =
       if decide (k = p_roomId player) then
         if r_currentPlayers room - 1 <=? 1 then None
         else Some (filter (λ pid, pid ≠ p_id player)
                           (default [] (playersByRoom s !! k)))
       else playersByRoom s !! k).
Proof.
  intros Hs Hp Hr.
  destruct (wf_lookup_player s _ _ Hs Hp) as (Hsk & Hpl & Hsid).
  destruct (wf_room s Hs _ _ Hr) as (Hrid & _).
  pose proof (wf_struct_unseat s sock _ player room Hs Hsk Hpl Hr) as Hun.
  pose proof (rooms_unseated s player room
                (Z.max 0 (r_currentPlayers room - 1)) Hpl) as Hrooms.
  destruct (leaveRoom_run s sock player room Hs Hp Hr) as [Hpos Heq].
  rewrite Heq. clear Heq. eexists. split; [reflexivity|].
  set (unseated := exec (MemStorage.updateRoomPlayerCount _ _) _) in *.
  assert (Hpl2 : players unseated = delete (p_id player) (players s)).
  { unfold unseated, MemStorage.removePlayer, MemStorage.updateRoomPlayerCount.
    msimp. by rewrite Hpl. }
  assert (Hsk2 : playersBySocket unseated = delete sock (playersBySocket s)).
  { unfold unseated, MemStorage.removePlayer, MemStorage.updateRoomPlayerCount.
    msimp. by rewrite Hpl, Hsid. }
  assert (Hby2 : playersByRoom unseated =
                 <[p_roomId player :=
                     filter (λ pid, pid ≠ p_id player)
                            (default [] (playersByRoom s !! p_roomId player))]>
                   (playersByRoom s)).
  { unfold unseated, MemStorage.removePlayer, MemStorage.updateRoomPlayerCount.
    msimp. by rewrite Hpl. }
  assert (Hr2 : ∀ k, rooms_get (rooms unseated) k =
            if decide (k = p_roomId player)
            then Some (room_with_currentPlayers room (r_currentPlayers room - 1))
            else rooms_get (rooms s) k).
  { intros k. rewrite Hrooms, rooms_get_alter, Hrid.
    replace (0 `max` (r_currentPlayers room - 1))
      with (r_currentPlayers room - 1) by lia.
    destruct (decide (p_roomId player = k)) as [<-|Hne].
    - by rewrite decide_True, Hr.
    - by rewrite decide_False. }
  destruct (r_currentPlayers room - 1 <=? 1) eqn:E.
  - unfold MemStorage.deleteRoom. msimp. simpl. split_and!; try done.
    + intros k. rewrite rooms_get_delete by apply Hun. rewrite Hr2.
      destruct (decide (k = p_roomId player)) as [->|Hne].
      * by rewrite decide_True.
      * by rewrite decide_False.
    + intros k. rewrite Hby2.
      destruct (decide (k = p_roomId player)) as [->|Hne].
      * apply lookup_delete_eq.
      * rewrite lookup_delete_ne by done. by rewrite lookup_insert_ne.
  - split_and!; try done.
    intros k. rewrite Hby2.
    destruct (decide (k = p_roomId player)) as [->|Hne].
    + by rewrite lookup_insert_eq.
    + by rewrite lookup_insert_ne.
Qed.

(** X19. A refused [leaveRoom] changes nothing, and it is refused for
    one of two reasons only: the connection maps to no player, or the
    room of its player is no longer stored. *)
Theorem leaveRoom_failure s sock e s' ev :
  PokerGameManager.leaveRoom sock s = (Err e, s', ev) →
  s' = s ∧ ev = [] ∧
  ((e = "Player not found" ∧
    val (MemStorage.getPlayerBySocketId sock) s = None) ∨
   (e = "Room not found" ∧
    ∃ player, val (MemStorage.getPlayerBySocketId sock) s = Some player ∧
              rooms_get (rooms s) (p_roomId player) = None)).
Proof.
  rewrite run_eq. unfold PokerGameManager.leaveRoom.
  rewrite val_bind, exec_bind, log_bind.
  rewrite exec_getPlayerBySocketId, log_getPlayerBySocketId.
  destruct (val (MemStorage.getPlayerBySocketId sock) s) as [player|] eqn:Hp.
  - rewrite val_bind, exec_bind, log_bind. autorewrite with mread.
    destruct (rooms_get (rooms s) (p_roomId player)) as [room|] eqn:Hr.
    + rewrite !val_bind, val_ret. discriminate.
    + rewrite val_ret, exec_ret, log_ret. intros [= <- <- <-].
      split; [done|]. split; [done|]. right. split; [done|]. by exists player.
  - rewrite val_ret, exec_ret, log_ret. intros [= <- <- <-].
    split; [done|]. split; [done|]. by left.
Qed.

Lemma leaveRoom_failure_witness :
  PokerGameManager.leaveRoom "sb" ann_left = (Err "Room not found", ann_left, []) ∧
  ∃ player, val (MemStorage.getPlayerBySocketId "sb") ann_left = Some player ∧
            rooms_get (rooms ann_left) (p_roomId player) = None.
Proof.
  assert (E : PokerGameManager.leaveRoom "sb" ann_left =
              (Err "Room not found", ann_left, [])) by (vm_compute; reflexivity).
  split; [exact E|].
  destruct (leaveRoom_failure _ _ _ _ _ E) as (_ & _ & [[H _]|[_ H]]);
    [discriminate H | exact H].
Defined.

Lemma omap_filter_ids (m : gmap uuid Player) (pid : uuid) (l : list uuid) :
  (∀ id q, m !! id = Some q → p_id q = id) →
  omap (λ id, delete pid m !! id) (filter (λ id, id ≠ pid) l) =
  filter (λ q, p_id q ≠ pid) (omap (λ id, m !! id) l).
Proof.
  intros Hid. induction l as [|a l IH]; [done|].
  rewrite filter_cons. csimpl. destruct (decide (a ≠ pid)) as [Hne|Heq].
  - csimpl. rewrite lookup_delete_ne by done.
    destruct (m !! a) as [q|] eqn:E; csimpl; [|done].
    rewrite filter_cons, decide_True, IH; [done|].
    by rewrite (Hid _ _ E).
  - apply dec_stable in Heq as ->.
    destruct (m !! pid) as [q|] eqn:E; csimpl; [|done].
    rewrite filter_cons, decide_False; [done|].
    rewrite (Hid _ _ E). by intros ?.
Qed.

(** X20. In a reachable store a successful [leaveRoom] removes the
    caller's player record and the mapping of the connection, and leaves
    every other player record as it was; when three or more players were
    seated the room stays, its seats are the earlier seats without the
    leaver, in the same order, and its player count is one less. *)
Theorem leaveRoom_unseats s sock s' ev :
  reachable s → PokerGameManager.leaveRoom sock s = (Ok tt, s', ev) →
  ∃ player room,
    val (MemStorage.getPlayerBySocketId sock) s = Some player ∧
    rooms_get (rooms s) (p_roomId player) = Some room ∧
    val (MemStorage.getPlayerBySocketId sock) s' = None ∧
    players s' !! p_id player = None ∧
    (∀ pid, pid ≠ p_id player → players s' !! pid = players s !! pid) ∧
    ((3 <= length (seated s (p_roomId player)))%nat →
     seated s' (p_roomId player) =
       filter (λ q, p_id q ≠ p_id player) (seated s (p_roomId player)) ∧
     S (length (seated s' (p_roomId player))) =
       length (seated s (p_roomId player)) ∧
     rooms_get (rooms s') (p_roomId player) =
       Some (room_with_currentPlayers room (r_currentPlayers room - 1))).
Proof.
  intros Hreach Hrun. apply reachable_wf_struct in Hreach as Hs.
  pose proof (wf_struct_leaveRoom s sock Hs) as Hs'.
  unfold exec in Hs'. rewrite Hrun in Hs'. simpl in Hs'.
  destruct (leaveRoom_lookup s sock) as [[e He]|(player & room & Hp & Hr)];
    [congruence|].
  exists player, room. split; [done|]. split; [done|].
  destruct (leaveRoom_store s sock player room Hs Hp Hr)
    as (s0 & Heq & Hpl' & Hsk' & Hr' & Hby').
  rewrite Heq in Hrun. injection Hrun as -> _.
  destruct (length_seated s _ _ Hs Hr) as [Hlen _].
  split_and!.
  - msimp. by rewrite Hsk', lookup_delete_eq.
  - by rewrite Hpl', lookup_delete_eq.
  - intros pid Hne. by rewrite Hpl', lookup_delete_ne.
  - intros Hthree.
    assert (E : (r_currentPlayers room - 1 <=? 1) = false) by lia.
    assert (Hroom' : rooms_get (rooms s') (p_roomId player) =
              Some (room_with_currentPlayers room (r_currentPlayers room - 1))).
    { by rewrite Hr', decide_True, E. }
    assert (Hseat : seated s' (p_roomId player) =
              filter (λ q, p_id q ≠ p_id player) (seated s (p_roomId player))).
    { rewrite !seated_eq, Hby', decide_True, E, Hpl' by done. simpl.
      apply omap_filter_ids. intros id q Hq.
      by destruct (wf_player s Hs _ _ Hq) as (? & _). }
    split; [done|]. split; [|done].
    destruct (length_seated s' _ _ Hs' Hroom') as [Hlen' _]. simpl in Hlen'. lia.
Qed.

Lemma leaveRoom_unseats_witness :
  reachable (after three_seated) ∧
  ∃ s' player,
    val (MemStorage.getPlayerBySocketId "sc") (after three_seated) = Some player ∧
    val (MemStorage.getPlayerBySocketId "sc") s' = None ∧
    players s' !! p_id player = None.
Proof.
  assert (R : reachable (after three_seated)).
  { apply reachable_after. vm_compute. eauto. }
  split; [exact R|].
  destruct (PokerGameManager.leaveRoom "sc" (after three_seated))
    as [[[[]|e] s'] ev] eqn:E; [|vm_compute in E; discriminate E].
  destruct (leaveRoom_unseats _ _ _ _ R E) as (player & room & H1 & _ & H3 & H4 & _).
  exists s', player. split; [exact H1|]. split; [exact H3 | exact H4].
Defined.

(** ** A stored player never changes room *)

#[global] Instance seat_kept_preorder : PreOrder seat_kept.
Proof.
  split.
  - intros s. split; [done|]. intros pid p' _ Hp. by exists p'.
  - intros s1 s2 s3 [N1 H1] [N2 H2]. split; [lia|].
    intros pid p3 Hlt Hp3.
    destruct (H2 pid p3) as (p2 & Hp2 & E2); [lia | done |].
    destruct (H1 pid p2) as (p1 & Hp1 & E1); [done..|].
    exists p1. split; [done | congruence].
Qed.

Lemma seat_same_players s s' :
  (nextUuid s <= nextUuid s')%nat → players s' = players s → seat_kept s s'.
Proof.
  intros Hn Hp. split; [done|]. intros pid p' _. rewrite Hp. intros H.
  by exists p'.
Qed.

Lemma seat_randomUUID : stays seat_kept randomUUID.
Proof. intros s. apply seat_same_players; simpl; [lia | done]. Qed.

Lemma seat_updatePlayer id f :
  (∀ p, p_roomId (f p) = p_roomId p) →
  stays seat_kept (MemStorage.updatePlayer id f).
Proof.
  intros Hf s. rewrite exec_updatePlayer. split; simpl; [done|].
  intros pid p' _. rewrite lookup_alter.
  destruct (decide (id = pid)) as [<-|Hne].
  - intros H.
    apply fmap_Some in H as (p0 & Hp0 & ->). exists p0. split; [done | apply Hf].
  - intros H. by exists p'.
Qed.

Lemma seat_updateRoom id f : stays seat_kept (MemStorage.updateRoom id f).
Proof. intros s. rewrite exec_updateRoom. by apply seat_same_players. Qed.

Lemma seat_createRoom code host maxPlayers :
  stays seat_kept (MemStorage.createRoom code host maxPlayers).
Proof.
  intros s. unfold MemStorage.createRoom. msimp.
  apply seat_same_players; simpl; [lia | done].
Qed.

Lemma seat_createPlayer rid sock name chips :
  stays seat_kept (MemStorage.createPlayer rid sock name chips).
Proof.
  intros s. unfold MemStorage.createPlayer. msimp. split; simpl; [lia|].
  intros pid p' Hlt. rewrite lookup_insert_ne by lia. intros H. by exists p'.
Qed.

Lemma seat_removePlayer id : stays seat_kept (MemStorage.removePlayer id).
Proof.
  intros s. unfold MemStorage.removePlayer. msimp.
  destruct (players s !! id) as [p0|] eqn:E; [|reflexivity].
  split; simpl; [done|].
  intros pid p' _ Hl. apply lookup_delete_Some in Hl as [_ Hl]. by exists p'.
Qed.

Lemma seat_deleteRoom id : stays seat_kept (MemStorage.deleteRoom id).
Proof.
  intros s. unfold MemStorage.deleteRoom. msimp. by apply seat_same_players.
Qed.

Ltac seat_side := intros ?; simpl; done.

Ltac seat_step :=
  lazymatch goal with
  | |- stays _ randomUUID => apply seat_randomUUID
  | |- stays _ (MemStorage.updatePlayer _ _) =>
      apply seat_updatePlayer; seat_side
  | |- stays _ (MemStorage.updatePlayerBySocket _ _) =>
      apply stays_updatePlayerBySocket; [apply _|]; intros ?;
      apply seat_updatePlayer; seat_side
  | |- stays _ (MemStorage.updateRoom _ _) => apply seat_updateRoom
  | |- stays _ (MemStorage.createRoom _ _ _) => apply seat_createRoom
  | |- stays _ (MemStorage.createPlayer _ _ _ _) => apply seat_createPlayer
  | |- stays _ (MemStorage.removePlayer _) => apply seat_removePlayer
  | |- stays _ (MemStorage.deleteRoom _) => apply seat_deleteRoom
  | |- stays _ (PokerGameManager.createDeck _) =>
      apply stays_createDeck; [apply _ | apply seat_randomUUID]
  | |- stays _ (PokerGameManager.dealLoop _ _) =>
      apply stays_dealLoop;
      [apply _ | intros ? ?; apply seat_updatePlayer; seat_side]
  | |- _ => stays_common
  end.

Lemma seat_createRoom_op draws sock name :
  stays seat_kept (PokerGameManager.createRoom draws sock name).
Proof.
  unfold PokerGameManager.createRoom. unfold_storage. repeat seat_step.
Qed.

Lemma seat_joinRoom sock name code :
  stays seat_kept (PokerGameManager.joinRoom sock name code).
Proof.
  unfold PokerGameManager.joinRoom. unfold_storage. cbv zeta.
  repeat seat_step.
Qed.

Lemma seat_leaveRoom sock : stays seat_kept (PokerGameManager.leaveRoom sock).
Proof.
  unfold PokerGameManager.leaveRoom. unfold_storage. repeat seat_step.
Qed.

Lemma seat_dealCards rid rnd :
  stays seat_kept (PokerGameManager.dealCards rid rnd).
Proof.
  unfold PokerGameManager.dealCards. unfold_storage. repeat seat_step.
Qed.

Lemma seat_setPlayerReady sock b :
  stays seat_kept (PokerGameManager.setPlayerReady sock b).
Proof.
  unfold PokerGameManager.setPlayerReady. unfold_storage. repeat seat_step.
Qed.

Lemma seat_setPlayerConnected sock b :
  stays seat_kept (PokerGameManager.setPlayerConnected sock b).
Proof.
  unfold PokerGameManager.setPlayerConnected. unfold_storage. repeat seat_step.
Qed.

Lemma seat_insert s s' player p' :
  nextUuid s' = nextUuid s →
  players s !! p_id player = Some player →
  players s' = <[p_id player := p']> (players s) →
  p_roomId p' = p_roomId player →
  seat_kept s s'.
Proof.
  intros Hn Hp Hpl Hf. split; [lia|]. intros pid q _.
  rewrite Hpl, lookup_insert.
  destruct (decide (p_id player = pid)) as [<-|Hne].
  - intros [= <-]. by exists player.
  - intros H. by exists q.
Qed.

Lemma seat_handlePlayerAction s sock action amount :
  wf_struct s →
  seat_kept s (exec (PokerGameManager.handlePlayerAction sock action amount) s).
Proof.
  intros Hs. unfold exec.
  destruct (handlePlayerAction_lookup s sock action amount Hs)
    as [[e ->]|(pid & player & room & Hsk & Hp & Hid & Hr & Hrid)];
    [reflexivity|].
  rewrite (handlePlayerAction_run s sock pid player room Hsk Hp Hid Hr Hrid).
  rewrite <- Hid in Hp.
  repeat match goal with
         | |- context [if ?b then _ else _] => destruct b
         | |- context [let _ := _ in _] => cbv zeta
         end; simpl;
    first [ reflexivity
          | by eapply seat_insert ].
Qed.

Lemma seat_step_op op s s' ev :
  wf_struct s → step op s = Some (s', ev) → seat_kept s s'.
Proof.
  intros Hs. rewrite step_eq. destruct op.
  - destruct (val _ s); [|done]. intros [= <- <-]. apply seat_createRoom_op.
  - intros [= <- <-]. apply seat_joinRoom.
  - intros [= <- <-]. apply seat_leaveRoom.
  - intros [= <- <-]. apply seat_dealCards.
  - intros [= <- <-]. by apply seat_handlePlayerAction.
  - intros [= <- <-]. apply seat_setPlayerReady.
  - intros [= <- <-]. apply seat_setPlayerConnected.
Qed.

Lemma seat_run ops s s' ev :
  wf s → run ops s = Some (s', ev) → seat_kept s s'.
Proof.
  revert s ev. induction ops as [|op ops IH]; intros s ev Hs.
  - intros [= <- <-]. reflexivity.
  - intros Hr. apply run_cons in Hr as (s1 & e1 & e2 & H1 & H2 & _).
    etrans; [eapply seat_step_op; [apply Hs | done]|].
    eapply IH; [|done]. by eapply wf_step.
Qed.

(** X21. In a reachable store, when a player leaves a room in which
    two players were seated, the room is torn down under the player who
    stays.  That player's record is kept, and from then on, through
    every further run of operations and for as long as the connection
    still maps to that player (that is, until [createRoom] or [joinRoom]
    gives the connection a new seat), every action of that player, and
    that player's own [leaveRoom], is refused with the message that the
    room was not found, leaving the store as it is. *)
Theorem leaveRoom_strands_the_other s sock player room sock' q s' ev :
  reachable s →
  val (MemStorage.getPlayerBySocketId sock) s = Some player →
  rooms_get (rooms s) (p_roomId player) = Some room →
  length (seated s (p_roomId player)) = 2%nat →
  sock' ≠ sock →
  val (MemStorage.getPlayerBySocketId sock') s = Some q →
  p_roomId q = p_roomId player →
  PokerGameManager.leaveRoom sock s = (Ok tt, s', ev) →
  val (MemStorage.getPlayerBySocketId sock') s' = Some q ∧
  ∀ ops s'' ev' q'',
    run ops s' = Some (s'', ev') →
    val (MemStorage.getPlayerBySocketId sock') s'' = Some q'' →
    p_id q'' = p_id q →
    PokerGameManager.leaveRoom sock' s'' = (Err "Room not found", s'', []) ∧
    ∀ action amount,
      PokerGameManager.handlePlayerAction sock' action amount s'' =
      (Err "Room not found", s'', []).
Proof.
  intros Hreach Hp Hr Htwo Hne Hq Hsame Hrun.
  apply reachable_wf_struct in Hreach as Hs.
  destruct (leaveRoom_store s sock player room Hs Hp Hr)
    as (s0 & Heq & Hpl' & Hsk' & Hr' & Hby').
  rewrite Heq in Hrun. injection Hrun as -> _.
  destruct (length_seated s _ _ Hs Hr) as [Hlen _].
  assert (E : (r_currentPlayers room - 1 <=? 1) = true) by lia.
  destruct (wf_lookup_player s _ _ Hs Hp) as (Hsk & Hpl & Hsid).
  destruct (wf_lookup_player s _ _ Hs Hq) as (Hskq & Hplq & Hsidq).
  assert (Hpq : p_id q ≠ p_id player).
  { intros Eq. rewrite Eq, Hpl in Hplq. injection Hplq as <-. congruence. }
  assert (Hsq' : playersBySocket s' !! sock' = Some (p_id q)).
  { by rewrite Hsk', lookup_delete_ne. }
  assert (Hplq' : players s' !! p_id q = Some q).
  { by rewrite Hpl', lookup_delete_ne. }
  assert (Hgone : rooms_get (rooms s') (p_roomId q) = None).
  { by rewrite Hr', Hsame, decide_True, E. }
  split; [msimp; by rewrite Hsq'|].
  assert (Hreach' : reachable s').
  { apply (reachable_step (OpLeaveRoom sock) s s' [] Hreach).
    rewrite step_eq. unfold exec, log. by rewrite Heq. }
  pose proof (wf_reachable s' Hreach') as Hwf'.
  destruct (wf_player s' (proj1 Hwf') _ _ Hplq') as (_ & Hlt & Hrlt & _).
  intros ops s'' ev' q'' Hrun' Hq'' Hid''.
  pose proof (wf_run ops s' s'' ev' Hwf' Hrun') as [Hs'' _].
  destruct (wf_lookup_player s'' _ _ Hs'' Hq'') as (Hsk'' & Hpl'' & _).
  destruct (seat_run ops s' s'' ev' Hwf' Hrun') as [_ Hseat].
  destruct (Hseat (p_id q'') q'') as (q0 & Hq0 & Hroom''); [lia | done |].
  rewrite Hid'', Hplq' in Hq0. injection Hq0 as <-.
  assert (Hgone'' : rooms_get (rooms s'') (p_roomId q'') = None).
  { rewrite Hroom''. by apply (run_no_rebirth ops s' s'' ev'). }
  split.
  - rewrite run_eq. unfold PokerGameManager.leaveRoom. msimp.
    rewrite Hsk'', Hpl''. msimp. rewrite Hgone''. by msimp.
  - intros action amount. rewrite run_eq.
    unfold PokerGameManager.handlePlayerAction. msimp.
    rewrite Hsk'', Hpl''. msimp. rewrite Hgone''. by msimp.
Qed.

Lemma leaveRoom_strands_the_other_witness :
  reachable (after two_seated) ∧
  run [OpCreateRoom ["XYZ789"] "sc" "Cy"] ann_left =
    Some (exec (PokerGameManager.createRoom ["XYZ789"] "sc" "Cy") ann_left, []) ∧
  PokerGameManager.handlePlayerAction "sb" "fold" None
    (exec (PokerGameManager.createRoom ["XYZ789"] "sc" "Cy") ann_left) =
  (Err "Room not found",
   exec (PokerGameManager.createRoom ["XYZ789"] "sc" "Cy") ann_left, []).
Proof.
  split; [exact reachable_two_seated|].
  pose (ann := mkPlayer 1%nat 0%nat "sa" "Ann" 1000 None true false false 0 None
                        false).
  pose (bob := mkPlayer 2%nat 0%nat "sb" "Bob" 1000 None true false false 0 None
                        false).
  assert (Hp : val (MemStorage.getPlayerBySocketId "sa") (after two_seated) =
               Some ann) by (vm_compute; reflexivity).
  assert (Hq : val (MemStorage.getPlayerBySocketId "sb") (after two_seated) =
               Some bob) by (vm_compute; reflexivity).
  destruct (rooms_get (rooms (after two_seated)) (p_roomId ann)) as [room|] eqn:Hr;
    [|vm_compute in Hr; discriminate Hr].
  assert (H2 : length (seated (after two_seated) (p_roomId ann)) = 2%nat)
    by (vm_compute; reflexivity).
  assert (Hne : "sb" ≠ "sa") by discriminate.
  assert (E : PokerGameManager.leaveRoom "sa" (after two_seated) =
              (Ok tt, ann_left, [])) by (vm_compute; reflexivity).
  assert (E2 : run [OpCreateRoom ["XYZ789"] "sc" "Cy"] ann_left =
    Some (exec (PokerGameManager.createRoom ["XYZ789"] "sc" "Cy") ann_left, []))
    by (vm_compute; reflexivity).
  assert (Hq2 : val (MemStorage.getPlayerBySocketId "sb")
                  (exec (PokerGameManager.createRoom ["XYZ789"] "sc" "Cy")
                        ann_left) = Some bob) by (vm_compute; reflexivity).
  split; [exact E2|].
  destruct (leaveRoom_strands_the_other _ _ _ _ _ _ _ _ reachable_two_seated
              Hp Hr H2 Hne Hq eq_refl E) as (_ & Hlater).
  destruct (Hlater _ _ _ _ E2 Hq2 eq_refl) as (_ & H4).
  exact (H4 "fold" None).
Defined.

(** ** No stored room is empty *)

Lemma pos_evolves s s' : wf_pos s → evolves s s' → wf_pos s'.
Proof.
  intros Hp [_ _ _ _ Er _] k r' Hk. specialize (Er k). rewrite Hk in Er.
  inversion Er as [r ? Hsh Hsome|]; subst. destruct Hsh as (_ & _ & _ & ->).
  by eapply Hp.
Qed.

Lemma joinRoom_evolves_or_new s sock name code :
  evolves s (exec (PokerGameManager.joinRoom sock name code) s) ∨
  ∃ room, rooms_find_code (rooms s) code = Some room ∧
          r_currentPlayers room < r_maxPlayers room ∧
          ∀ p, val (MemStorage.getPlayerBySocketId sock) s = Some p →
               p_roomId p ≠ r_id room.
Proof.
  unfold PokerGameManager.joinRoom. cbv zeta.
  rewrite exec_bind. unfold MemStorage.getRoomByCode at 1 2.
  rewrite exec_gets, val_gets.
  destruct (rooms_find_code (rooms s) code) as [room|] eqn:Hf;
    [|left; reflexivity].
  destruct (r_currentPlayers room >=? r_maxPlayers room) eqn:Hfull;
    [left; reflexivity|].
  rewrite exec_bind. unfold MemStorage.getPlayerBySocketId at 1 2 3.
  rewrite exec_gets, !val_gets.
  destruct (playersBySocket s !! sock) as [pid|];
    [|right; exists room; split; [done|]; split; [lia | done]].
  destruct (players s !! pid) as [existing|];
    [|right; exists room; split; [done|]; split; [lia | done]].
  destruct (decide (p_roomId existing = r_id room)) as [Heq|Hne].
  - left. generalize s. change (stays evolves
      (MemStorage.setPlayerConnected sock true ;;
       let! existingPlayer' := derefPlayer existing in
       ret (Ok (p_id existing,
                PokerGameManager.mapToPlayerState existingPlayer')))).
    unfold_storage. repeat evolves_step.
  - right. exists room. split; [done|]. split; [lia|]. by intros p [= <-].
Qed.

Lemma pos_step op s s' ev :
  wf_struct s → wf_pos s → step op s = Some (s', ev) → wf_pos s'.
Proof.
  intros Hs Hpos. rewrite step_eq. destruct op
    as [draws sock name|sock name code|sock|rid rnd|sock action amount| |].
  - destruct (val (PokerGameManager.uniqueRoomCode draws) s) as [code|] eqn:Hc.
    + unfold val, exec, log. rewrite (createRoom_run s draws sock name code Hc).
      simpl. intros [= <- <-] k r. simpl. rewrite rooms_get_set.
      destruct (decide (nextUuid s = k)); [by intros [= <-] | apply Hpos].
    + assert (H : val (PokerGameManager.createRoom draws sock name) s = None).
      { unfold PokerGameManager.createRoom. rewrite val_bind, Hc. by msimp. }
      by rewrite H.
  - intros [= <- <-].
    destruct (joinRoom_evolves_or_new s sock name code)
      as [Hev|(room & Hf & Hlt & Hp)]; [by eapply pos_evolves|].
    unfold exec. rewrite (joinRoom_run_new s sock name code room Hf Hlt Hp).
    simpl. intros k r. simpl. rewrite rooms_get_alter.
    destruct (decide (r_id room = k)) as [<-|]; [|apply Hpos].
    destruct (rooms_get (rooms s) (r_id room)) as [r0|] eqn:E; [|done].
    intros [= <-]. simpl.
    destruct (wf_lookup_code s _ _ Hs Hf) as [Hr _]. pose proof (Hpos _ _ Hr). lia.
  - intros [= <- <-].
    destruct (leaveRoom_lookup s sock) as [[e He]|(player & room & Hp & Hr)].
    { unfold exec. by rewrite He. }
    destruct (leaveRoom_store s sock player room Hs Hp Hr)
      as (s0 & Heq & _ & _ & Hr' & _).
    unfold exec. rewrite Heq. simpl. intros k r. rewrite Hr'.
    destruct (decide (k = p_roomId player)); [|apply Hpos].
    destruct (r_currentPlayers room - 1 <=? 1) eqn:E; [done|].
    intros [= <-]. simpl. lia.
  - intros [= <- <-]. eapply pos_evolves; [done | apply evolves_dealCards].
  - intros [= <- <-]. eapply pos_evolves; [done | apply evolves_handlePlayerAction].
  - intros [= <- <-]. eapply pos_evolves; [done | apply evolves_setPlayerReady].
  - intros [= <- <-]. eapply pos_evolves; [done | apply evolves_setPlayerConnected].
Qed.

Lemma pos_run ops s s' ev :
  wf s → wf_pos s → run ops s = Some (s', ev) → wf_pos s'.
Proof.
  revert s ev. induction ops as [|op ops IH]; intros s ev Hs Hc.
  - by intros [= <- <-].
  - intros Hr. apply run_cons in Hr as (s1 & e1 & e2 & H1 & H2 & _).
    eapply IH; [| |done]; [by eapply wf_step|].
    eapply pos_step; [apply Hs | done | done].
Qed.

Lemma pos_reachable s : reachable s → wf_pos s.
Proof.
  intros (ops & ev & Hr). eapply pos_run; [apply wf_empty | | done].
  by intros k r.
Qed.

(** X22. In every reachable store, a stored room is filed under its own
    id, has six seats, and its player count is the number of players
    seated in it, which is at least 1 and at most 6; the seated players
    are pairwise distinct, each is stored under its id and names this
    room as its room; and looking the room up by its code returns this
    room, so no two stored rooms share a code. *)
Theorem room_seats_are_counted s k r :
  reachable s → rooms_get (rooms s) k = Some r →
  r_id r = k ∧ r_maxPlayers r = 6 ∧
  Z.of_nat (length (seated s k)) = r_currentPlayers r ∧
  (1 <= length (seated s k) <= 6)%nat ∧
  NoDup (p_id <$> seated s k) ∧
  (∀ q, q ∈ seated s k → players s !! p_id q = Some q ∧ p_roomId q = k) ∧
  val (MemStorage.getRoomByCode (r_code r)) s = Some r.
Proof.
  intros Hreach Hk. apply reachable_wf_struct in Hreach as Hs.
  pose proof (pos_reachable s Hreach _ _ Hk) as Hpos.
  destruct (wf_room s Hs _ _ Hk) as (Hid & _ & Hmax & _).
  destruct (length_seated s _ _ Hs Hk) as [Hlen Hle].
  destruct (seated_ids s k r Hs Hk) as (_ & Hnd & Hq).
  split; [done|]. split; [done|]. split; [done|]. split; [lia|].
  split; [done|]. split; [done|]. msimp. by eapply wf_code_lookup.
Qed.

Lemma room_seats_are_counted_witness :
  reachable (after three_seated) ∧
  ∃ r, rooms_get (rooms (after three_seated)) 0%nat = Some r ∧
       Z.of_nat (length (seated (after three_seated) 0%nat)) =
       r_currentPlayers r.
Proof.
  assert (R : reachable (after three_seated)).
  { apply reachable_after. vm_compute. eauto. }
  split; [exact R|].
  destruct (rooms_get (rooms (after three_seated)) 0%nat) as [r|] eqn:Hr;
    [|vm_compute in Hr; discriminate Hr].
  exists r. split; [reflexivity|].
  exact (proj1 (proj2 (proj2 (room_seats_are_counted _ _ _ R Hr)))).
Defined.

(** ** The snapshot sent to the clients *)

(** X23. In a reachable store [getGameState] changes nothing. It
    returns nothing exactly when no stored room carries the code.
    Otherwise the snapshot shows the pot, current bet, phase, round and
    cards of the room under the code, and one entry per seated player in
    seat order: as many entries as the room's player count, between 1
    and 6, with pairwise distinct ids and no negative stack; the active
    player it names, if any, is one of the listed players who is
    connected and has neither folded nor acted. *)
Theorem getGameState_snapshot s code :
  reachable s →
  exec (getGameState code) s = s ∧ log (getGameState code) s = [] ∧
  match val (getGameState code) s with
  | None => ∀ k r, rooms_get (rooms s) k = Some r → r_code r ≠ code
  | Some (gs, pss) =>
      ∃ room,
        rooms_get (rooms s) (r_id room) = Some room ∧ r_code room = code ∧
        gs_pot gs = r_pot room ∧ gs_currentBet gs = r_currentBet room ∧
        gs_phase gs = r_gameState room ∧ gs_round gs = r_round room ∧
        gs_deck gs = default [] (r_deck room) ∧
        gs_communityCards gs = default [] (r_communityCards room) ∧
        pss = PokerGameManager.mapToPlayerState <$> seated s (r_id room) ∧
        Z.of_nat (length pss) = r_currentPlayers room ∧
        (1 <= length pss <= 6)%nat ∧
        NoDup (ps_id <$> pss) ∧
        (∀ st, st ∈ pss → 0 <= ps_chips st) ∧
        (∀ id, gs_activePlayerId gs = Some id →
           ∃ st, st ∈ pss ∧ ps_id st = id ∧ ps_isConnected st = true ∧
                 ps_isFolded st = false ∧ ps_hasActed st = false)
  end.
Proof.
  intros Hreach. apply reachable_wf_struct in Hreach as Hs.
  destruct (wf_reachable s Hreach) as [_ Hn].
  pose proof (pos_reachable s Hreach) as Hpos.
  unfold getGameState. msimp.
  destruct (rooms_find_code (rooms s) code) as [room|] eqn:Hf; msimp.
  - split; [done|]. split; [done|].
    destruct (wf_lookup_code s _ _ Hs Hf) as [Hr Hcode].
    destruct (length_seated s _ _ Hs Hr) as [Hlen Hle].
    destruct (seated_ids s _ room Hs Hr) as (_ & Hnd & Hq).
    pose proof (Hpos _ _ Hr) as Hone.
    fold (seated s (r_id room)).
    exists room. simpl. split_and!; try done.
    + by rewrite length_fmap.
    + rewrite length_fmap. rewrite seated_eq in Hlen. lia.
    + rewrite length_fmap. rewrite seated_eq in Hlen. lia.
    + by rewrite <- list_fmap_compose.
    + intros st Hst. apply list_elem_of_fmap in Hst as (q & -> & Hin).
      destruct (Hq q Hin) as [Hpl _]. simpl.
      by destruct (wf_chips s Hn _ _ Hpl).
    + intros id Hact. apply active_is_seated in Hact as (q & Hin & Hcan & Hid).
      exists (PokerGameManager.mapToPlayerState q). split.
      { apply list_elem_of_fmap. by exists q. }
      simpl. unfold canAct in Hcan.
      destruct (p_isConnected q), (p_isFolded q), (p_hasActed q); done.
  - split; [done|]. split; [done|]. intros k r Hk.
    eapply rooms_find_code_None; [done|]. by apply rooms_get_Some_elem.
Qed.

Lemma getGameState_snapshot_witness :
  reachable (after raised) ∧
  exec (getGameState "ABC123") (after raised) = after raised.
Proof.
  split; [exact reachable_raised|].
  exact (proj1 (getGameState_snapshot _ "ABC123" reachable_raised)).
Defined.

(** ** What a deal leaves alone *)

Lemma dealCards_frame s rid rnd s' ev :
  wf_struct s → PokerGameManager.dealCards rid rnd s = (Ok tt, s', ev) →
  playersBySocket s' = playersBySocket s ∧
  playersByRoom s' = playersByRoom s ∧
  ∀ pid, pid ∉ (p_id <$> seated s rid) → players s' !! pid = players s !! pid.
Proof.
  intros Hs Hrun.
  destruct (rooms_get (rooms s) rid) as [room|] eqn:Hr;
    [|rewrite (dealCards_lookup s rid rnd Hr) in Hrun; discriminate].
  destruct (wf_room s Hs _ _ Hr) as (Hid & _).
  destruct (createDeck_only_uuid rnd s) as (_ & U2 & U3 & U4).
  rewrite (dealCards_run s rid rnd room Hr Hid) in Hrun. cbv zeta in Hrun.
  remember (val (PokerGameManager.createDeck rnd) s) as deck eqn:Edeck.
  remember (exec (PokerGameManager.createDeck rnd) s) as s1 eqn:Es1.
  clear Edeck Es1.
  destruct (Z.of_nat (length (seated s rid)) <? 2) eqn:E; [discriminate|].
  destruct (dealLoop_only_players (seated s rid) deck s1) as (_ & V2 & V3).
  injection Hrun as <- <-. simpl. rewrite V2, V3, U3, U4.
  split; [done|]. split; [done|]. intros pid Hnin.
  by rewrite dealLoop_other, U2.
Qed.

(** X24. [dealCards] is accepted exactly when the room is stored and at
    least two players are seated in it: neither the phase of the game nor
    any ready or connected flag is consulted. *)
Theorem dealCards_accepted_iff s rid rnd :
  val (PokerGameManager.dealCards rid rnd) s = Ok tt ↔
  is_Some (rooms_get (rooms s) rid) ∧ (2 <= length (seated s rid))%nat.
Proof.
  unfold PokerGameManager.dealCards. autorewrite with mread.
  destruct (rooms_get (rooms s) rid) as [room|] eqn:Hr.
  - autorewrite with mread.
    destruct (Z.of_nat (length (seated s rid)) <? 2) eqn:E.
    + autorewrite with mread. split; [done|]. intros [_ H]. lia.
    + rewrite !val_bind, val_ret. split; [|done]. intros _. split; [eauto|lia].
  - autorewrite with mread. split; [done|]. by intros [[? ?] _].
Qed.

(** X25. In a reachable store a successful deal puts the room in state
    playing, round pre-flop, with the pot and the current bet at 0 and no
    community cards, whatever they were before, and keeps the room's id,
    code, host, seats and player count; every other room, the seats of
    every other room and every player not seated in the room are left as
    they were. *)
Theorem dealCards_resets_room s rid rnd s' ev :
  reachable s → PokerGameManager.dealCards rid rnd s = (Ok tt, s', ev) →
  ∃ room room',
    rooms_get (rooms s) rid = Some room ∧
    rooms_get (rooms s') rid = Some room' ∧
    r_gameState room' = playing ∧ r_round room' = pre_flop ∧
    r_pot room' = 0 ∧ r_currentBet room' = 0 ∧
    r_communityCards room' = Some [] ∧
    r_id room' = r_id room ∧ r_code room' = r_code room ∧
    r_hostId room' = r_hostId room ∧ r_maxPlayers room' = r_maxPlayers room ∧
    r_currentPlayers room' = r_currentPlayers room ∧
    (∀ k, k ≠ rid → rooms_get (rooms s') k = rooms_get (rooms s) k) ∧
    (∀ k r, rooms_get (rooms s) k = Some r → k ≠ rid → seated s' k = seated s k) ∧
    (∀ pid p, players s !! pid = Some p → p_roomId p ≠ rid →
              players s' !! pid = Some p).
Proof.
  intros Hreach Hrun. apply reachable_wf_struct in Hreach as Hs.
  destruct (dealCards_seats s rid rnd s' ev Hs Hrun)
    as (room & Hr & _ & _ & Hrooms & _).
  destruct (dealCards_frame s rid rnd s' ev Hs Hrun) as (_ & Hby & Hpl).
  destruct (seated_ids s rid room Hs Hr) as (_ & _ & Hq).
  assert (Hout : ∀ pid p, players s !! pid = Some p → p_roomId p ≠ rid →
                          pid ∉ (p_id <$> seated s rid)).
  { intros pid p Hp Hne Hin. apply list_elem_of_fmap in Hin as (q & -> & Hin).
    destruct (Hq q Hin) as [Hpq Hrq]. rewrite Hp in Hpq. injection Hpq as ->.
    done. }
  eexists room, _. split; [done|]. rewrite Hrooms. split.
  { rewrite rooms_get_set. by rewrite decide_True. }
  simpl. split_and!; try done.
  - intros k Hne. rewrite rooms_get_set. by rewrite decide_False.
  - intros k r Hk Hne.
    destruct (wf_room s Hs _ _ Hk) as (_ & _ & _ & l & L1 & _ & _ & _ & L5).
    apply seated_frame; [by rewrite Hby|]. rewrite L1. simpl.
    intros pid Hin. destruct (L5 _ Hin) as (p & Hp & Hpk). apply Hpl.
    eapply Hout; [done|]. by rewrite Hpk.
  - intros pid p Hp Hne. rewrite Hpl; [done|]. by eapply Hout.
Qed.

Lemma dealCards_resets_room_witness :
  reachable (after folded) ∧
  ∃ room room',
    rooms_get (rooms (after folded)) 0%nat = Some room ∧
    rooms_get (rooms dealt_again) 0%nat = Some room' ∧
    r_pot room' = 0 ∧ r_currentBet room' = 0.
Proof.
  assert (R : reachable (after folded)).
  { apply reachable_after. vm_compute. eauto. }
  split; [exact R|].
  assert (E : PokerGameManager.dealCards 0%nat (λ i, i) (after folded) =
              (Ok tt, dealt_again, [EvDeal 0%nat])) by (vm_compute; reflexivity).
  destruct (dealCards_resets_room _ _ _ _ _ R E)
    as (room & room' & H1 & H2 & _ & _ & H5 & H6 & _).
  exists room, room'. split; [exact H1|]. split; [exact H2|].
  split; [exact H5 | exact H6].
Defined.

(** ** What an action leaves alone *)

(** X26. In a reachable store an action, accepted or refused, touches
    nothing but the record of the caller's player and the caller's room:
    the two indexes, every other player and every other room are as
    before, and of the caller's own record the id, room, connection,
    name, hand and the ready and connected flags are kept. *)
Theorem action_touches_only_actor s sock action amount player :
  reachable s →
  val (MemStorage.getPlayerBySocketId sock) s = Some player →
  let s' := exec (PokerGameManager.handlePlayerAction sock action amount) s in
  playersBySocket s' = playersBySocket s ∧
  playersByRoom s' = playersByRoom s ∧
  nextUuid s' = nextUuid s ∧
  (∀ pid, pid ≠ p_id player → players s' !! pid = players s !! pid) ∧
  (∀ k, k ≠ p_roomId player → rooms_get (rooms s') k = rooms_get (rooms s) k) ∧
  ∃ p', players s' !! p_id player = Some p' ∧
        p_id p' = p_id player ∧ p_roomId p' = p_roomId player ∧
        p_socketId p' = p_socketId player ∧ p_name p' = p_name player ∧
        p_hand p' = p_hand player ∧ p_isConnected p' = p_isConnected player ∧
        p_isReady p' = p_isReady player.
Proof.
  intros Hreach Hp s'. subst s'. apply reachable_wf_struct in Hreach as Hs.
  destruct (wf_lookup_player s _ _ Hs Hp) as (Hsk0 & Hpl0 & _).
  assert (Hsame : playersBySocket s = playersBySocket s ∧
    playersByRoom s = playersByRoom s ∧ nextUuid s = nextUuid s ∧
    (∀ pid, pid ≠ p_id player → players s !! pid = players s !! pid) ∧
    (∀ k, k ≠ p_roomId player → rooms_get (rooms s) k = rooms_get (rooms s) k) ∧
    ∃ p', players s !! p_id player = Some p' ∧
        p_id p' = p_id player ∧ p_roomId p' = p_roomId player ∧
        p_socketId p' = p_socketId player ∧ p_name p' = p_name player ∧
        p_hand p' = p_hand player ∧ p_isConnected p' = p_isConnected player ∧
        p_isReady p' = p_isReady player).
  { split_and!; try done. by exists player. }
  unfold exec.
  destruct (handlePlayerAction_lookup s sock action amount Hs)
    as [[e ->]|(pid & player0 & room & Hsk & Hpl & Hid & Hr & Hrid)]; [done|].
  assert (player0 = player) as ->.
  { revert Hp. msimp. rewrite Hsk, Hpl. by intros [= <-]. }
  rewrite (handlePlayerAction_run s sock pid player room Hsk Hpl Hid Hr Hrid).
  assert (Hmark : ∀ f,
    (∀ p, p_id (f p) = p_id p ∧ p_roomId (f p) = p_roomId p ∧
          p_socketId (f p) = p_socketId p ∧ p_name (f p) = p_name p ∧
          p_hand (f p) = p_hand p ∧ p_isConnected (f p) = p_isConnected p ∧
          p_isReady (f p) = p_isReady p) →
    playersBySocket (markPlayer s player f) = playersBySocket s ∧
    playersByRoom (markPlayer s player f) = playersByRoom s ∧
    nextUuid (markPlayer s player f) = nextUuid s ∧
    (∀ pid, pid ≠ p_id player →
            players (markPlayer s player f) !! pid = players s !! pid) ∧
    (∀ k, k ≠ p_roomId player →
          rooms_get (rooms (markPlayer s player f)) k = rooms_get (rooms s) k) ∧
    ∃ p', players (markPlayer s player f) !! p_id player = Some p' ∧
        p_id p' = p_id player ∧ p_roomId p' = p_roomId player ∧
        p_socketId p' = p_socketId player ∧ p_name p' = p_name player ∧
        p_hand p' = p_hand player ∧ p_isConnected p' = p_isConnected player ∧
        p_isReady p' = p_isReady player).
  { intros f Hf. simpl. split_and!; try done.
    - intros pid' Hne. by rewrite lookup_insert_ne.
    - exists (f player). rewrite lookup_insert_eq. split; [done | apply Hf]. }
  assert (Hbet : ∀ d roomBet,
    playersBySocket (placeBet s player room d roomBet) = playersBySocket s ∧
    playersByRoom (placeBet s player room d roomBet) = playersByRoom s ∧
    nextUuid (placeBet s player room d roomBet) = nextUuid s ∧
    (∀ pid, pid ≠ p_id player →
            players (placeBet s player room d roomBet) !! pid = players s !! pid) ∧
    (∀ k, k ≠ p_roomId player →
          rooms_get (rooms (placeBet s player room d roomBet)) k =
          rooms_get (rooms s) k) ∧
    ∃ p', players (placeBet s player room d roomBet) !! p_id player = Some p' ∧
        p_id p' = p_id player ∧ p_roomId p' = p_roomId player ∧
        p_socketId p' = p_socketId player ∧ p_name p' = p_name player ∧
        p_hand p' = p_hand player ∧ p_isConnected p' = p_isConnected player ∧
        p_isReady p' = p_isReady player).
  { intros d roomBet. simpl. split_and!; try done.
    - intros pid' Hne. by rewrite lookup_insert_ne.
    - intros k Hne. rewrite rooms_get_set, decide_False; [done|]. congruence.
    - eexists. rewrite lookup_insert_eq. split; [done|]. done. }
  repeat match goal with
         | |- context [if ?b then _ else _] => destruct b
         | |- context [let _ := _ in _] => cbv zeta
         end;
    first [ exact Hsame | apply Hbet | apply Hmark; intros p; done ].
Qed.

Lemma action_touches_only_actor_witness :
  reachable (after dealt) ∧
  ∀ pid, pid ≠ 1%nat → players ann_raised !! pid = players (after dealt) !! pid.
Proof.
  split; [exact reachable_dealt|].
  pose (player := mkPlayer 1%nat 0%nat "sa" "Ann" 1000
    (Some (take 4 (val (PokerGameManager.createDeck (λ i, i))
                       (after two_seated))))
    true false false 0 None false).
  assert (Hp : val (MemStorage.getPlayerBySocketId "sa") (after dealt) =
               Some player) by (vm_compute; reflexivity).
  exact (proj1 (proj2 (proj2 (proj2
    (action_touches_only_actor _ "sa" "raise" (Some 100) _ reachable_dealt Hp))))).
Defined.

(** ** The connected and ready flags *)

(** X27. In a reachable store, marking a connection as disconnected
    takes its player out of the turn order: that player is not the active
    player of any room afterwards. The call changes no room, no index and
    no other player, and it does nothing when the connection maps to no
    player. *)
Theorem disconnected_is_skipped s sock rid :
  reachable s →
  let s' := exec (PokerGameManager.setPlayerConnected sock false) s in
  rooms s' = rooms s ∧ playersBySocket s' = playersBySocket s ∧
  playersByRoom s' = playersByRoom s ∧
  match val (MemStorage.getPlayerBySocketId sock) s with
  | None => s' = s
  | Some player =>
      players s' = <[p_id player := player_with_isConnected player false]>
                     (players s) ∧
      getActivePlayerId (seated s' rid) ≠ Some (p_id player)
  end.
Proof.
  intros Hreach s'. subst s'. apply reachable_wf_struct in Hreach as Hs.
  unfold PokerGameManager.setPlayerConnected, MemStorage.setPlayerConnected.
  unfold exec, MemStorage.updatePlayerBySocket. msimp.
  destruct (playersBySocket s !! sock) as [pid|] eqn:Hsk; [|done].
  fold (exec (MemStorage.updatePlayer pid
               (λ p, player_with_isConnected p false)) s).
  rewrite exec_updatePlayer. simpl.
  split; [done|]. split; [done|]. split; [done|].
  destruct (players s !! pid) as [player|] eqn:Hpl.
  - destruct (wf_player s Hs _ _ Hpl) as (Hid & _). subst pid.
    assert (E : alter (λ p, player_with_isConnected p false) (p_id player)
                      (players s) =
                <[p_id player := player_with_isConnected player false]>
                  (players s)).
    { symmetry. by apply (insert_as_alter
        (λ p, player_with_isConnected p false)). }
    split; [done|].
    by apply (retired_not_active s _ player
                (player_with_isConnected player false) rid Hs).
  - rewrite alter_absent by done. by destruct s.
Qed.

Lemma disconnected_is_skipped_witness :
  reachable (after dealt) ∧
  rooms (exec (PokerGameManager.setPlayerConnected "sa" false) (after dealt)) =
  rooms (after dealt).
Proof.
  split; [exact reachable_dealt|].
  exact (proj1 (disconnected_is_skipped _ "sa" 0%nat reachable_dealt)).
Defined.

(** ** Which actions are accepted *)

(** X28. In a reachable store an action of a seated player whose room
    is stored is accepted exactly in these cases: a fold; a check when the
    room's current bet does not exceed the player's; a call when the
    call amount, the room's current bet minus the player's as the code
    computes it, does not exceed the player's chips; a raise with an
    amount above the room's current bet and within
    the player's chips; an all-in. Nothing else is consulted: not whether
    the player has acted, has folded or is connected, and not the phase of
    the game. *)
Theorem action_accepted_iff s sock action amount player room :
  reachable s →
  val (MemStorage.getPlayerBySocketId sock) s = Some player →
  rooms_get (rooms s) (p_roomId player) = Some room →
  val (PokerGameManager.handlePlayerAction sock action amount) s = Ok tt ↔
  action = "fold" ∨
  (action = "check" ∧ r_currentBet room <= p_currentBet player) ∨
  (action = "call" ∧
   r_currentBet room - p_currentBet player <= p_chips player) ∨
  (action = "raise" ∧
   ∃ a, amount = Some a ∧ r_currentBet room < a <= p_chips player) ∨
  action = "all-in".
Proof.
  intros Hreach Hp Hr.
  destruct (wf_reachable s Hreach) as [Hs Hn].
  destruct (actor_lookup s sock player room Hs Hp Hr) as (Hsk & Hpl & Hrid).
  pose proof (wf_bet s Hn _ _ (rooms_get_Some_elem _ _ _ Hr)) as Hrb.
  unfold val.
  rewrite (handlePlayerAction_run s sock _ player room Hsk Hpl eq_refl Hr Hrid).
  destruct (String.eqb action "fold") eqn:Ef.
  { apply String.eqb_eq in Ef. split; [by left | done]. }
  apply String.eqb_neq in Ef.
  destruct (String.eqb action "check") eqn:Ek.
  { apply String.eqb_eq in Ek as ->.
    destruct (r_currentBet room >? p_currentBet player) eqn:E; simpl.
    - split; [done|]. intros [?|[[_ ?]|[[? _]|[[? _]|?]]]]; try done. lia.
    - split; [|done]. intros _. right. left. split; [done | lia]. }
  apply String.eqb_neq in Ek.
  destruct (String.eqb action "call") eqn:Ec.
  { apply String.eqb_eq in Ec as ->. cbv zeta.
    destruct (r_currentBet room - p_currentBet player >? p_chips player) eqn:E;
      simpl.
    - split; [done|]. intros [?|[[? _]|[[_ ?]|[[? _]|?]]]]; try done. lia.
    - split; [|done]. intros _. right. right. left. split; [done | lia]. }
  apply String.eqb_neq in Ec.
  destruct (String.eqb action "raise") eqn:Er.
  { apply String.eqb_eq in Er as ->.
    assert (Hiff : (∃ a, amount = Some a ∧
                         r_currentBet room < a <= p_chips player) ↔
                   ("raise" = "fold" ∨
                    ("raise" = "check" ∧ r_currentBet room <= p_currentBet player) ∨
                    ("raise" = "call" ∧
                     r_currentBet room - p_currentBet player <= p_chips player) ∨
                    ("raise" = "raise" ∧
                     ∃ a, amount = Some a ∧
                          r_currentBet room < a <= p_chips player) ∨
                    "raise" = "all-in")).
    { split; [intros H; right; right; right; left; by split|].
      intros [?|[[? _]|[[? _]|[[_ H]|?]]]]; done. }
    rewrite <- Hiff. clear Hiff.
    destruct amount as [a|]; simpl.
    - destruct (a =? 0) eqn:E0; simpl.
      { split; [done|]. intros (a' & [= <-] & Ha). lia. }
      destruct (a <=? r_currentBet room) eqn:E1; simpl.
      { split; [done|]. intros (a' & [= <-] & Ha). lia. }
      destruct (a >? p_chips player) eqn:E2; simpl.
      { split; [done|]. intros (a' & [= <-] & Ha). lia. }
      split; [|done]. intros _. exists a. split; [done|]. lia.
    - split; [done|]. by intros (a & ? & _). }
  apply String.eqb_neq in Er.
  destruct (String.eqb action "all-in") eqn:Ea.
  { apply String.eqb_eq in Ea. simpl. split; [|done]. intros _. by do 4 right. }
  apply String.eqb_neq in Ea. simpl. split; [done|].
  intros [?|[[? _]|[[? _]|[[? _]|?]]]]; done.
Qed.

Lemma action_accepted_iff_witness :
  reachable (after raised) ∧
  (val (PokerGameManager.handlePlayerAction "sb" "check" None) (after raised)
     = Ok tt ↔
   "check" = "fold" ∨ ("check" = "check" ∧ 100 <= 0) ∨
   ("check" = "call" ∧ 100 - 0 <= 1000) ∨
   ("check" = "raise" ∧ ∃ a, None = Some a ∧ 100 < a <= 1000) ∨
   "check" = "all-in").
Proof.
  split; [exact reachable_raised|].
  pose (player := mkPlayer 2%nat 0%nat "sb" "Bob" 1000
    (Some (take 4 (drop 4 (val (PokerGameManager.createDeck (λ i, i))
                               (after two_seated)))))
    true false false 0 None false).
  assert (Hp : val (MemStorage.getPlayerBySocketId "sb") (after raised) =
               Some player) by (vm_compute; reflexivity).
  destruct (rooms_get (rooms (after raised)) (p_roomId player)) as [room|] eqn:Hr;
    [|vm_compute in Hr; discriminate Hr].
  assert (Hb : r_currentBet room = 100).
  { vm_compute in Hr. injection Hr as <-. reflexivity. }
  pose proof (action_accepted_iff _ "sb" "check" None _ _ reachable_raised Hp Hr)
    as H.
  rewrite Hb in H. exact H.
Defined.

(** ** The ready flag *)

Lemma active_insert_same (m : gmap uuid Player) pid p p' (l : list uuid) :
  m !! pid = Some p → p_id p' = p_id p → canAct p' = canAct p →
  getActivePlayerId (omap (λ id, <[pid := p']> m !! id) l) =
  getActivePlayerId (omap (λ id, m !! id) l).
Proof.
  intros Hp Hid Hcan. unfold getActivePlayerId.
  induction l as [|a l IH]; [done|]. csimpl.
  destruct (decide (pid = a)) as [<-|Hne].
  - rewrite lookup_insert_eq, Hp. csimpl. rewrite Hcan.
    destruct (canAct p); simpl; [by rewrite Hid | done].
  - rewrite lookup_insert_ne by done.
    destruct (m !! a) as [q|]; csimpl; [|done].
    destruct (canAct q); simpl; [done | apply IH].
Qed.

(** X29. In a reachable store [setPlayerReady] changes no room and no
    index, does nothing when the connection maps to no player, and
    otherwise only writes the ready flag of that player; the active player
    of every room is the same before and after, whatever the flag. *)
Theorem ready_flag_is_inert s sock b rid :
  reachable s →
  let s' := exec (PokerGameManager.setPlayerReady sock b) s in
  rooms s' = rooms s ∧ playersBySocket s' = playersBySocket s ∧
  playersByRoom s' = playersByRoom s ∧
  match val (MemStorage.getPlayerBySocketId sock) s with
  | None => s' = s
  | Some player =>
      players s' = <[p_id player := player_with_isReady player b]> (players s)
  end ∧
  getActivePlayerId (seated s' rid) = getActivePlayerId (seated s rid).
Proof.
  intros Hreach s'. subst s'. apply reachable_wf_struct in Hreach as Hs.
  unfold PokerGameManager.setPlayerReady, MemStorage.setPlayerReady.
  unfold exec, MemStorage.updatePlayerBySocket. msimp.
  destruct (playersBySocket s !! sock) as [pid|] eqn:Hsk; [|done].
  fold (exec (MemStorage.updatePlayer pid (λ p, player_with_isReady p b)) s).
  rewrite exec_updatePlayer. simpl.
  split; [done|]. split; [done|]. split; [done|].
  destruct (players s !! pid) as [player|] eqn:Hpl.
  - destruct (wf_player s Hs _ _ Hpl) as (Hid & _). subst pid.
    assert (E : alter (λ p, player_with_isReady p b) (p_id player) (players s) =
                <[p_id player := player_with_isReady player b]> (players s)).
    { symmetry. by apply (insert_as_alter (λ p, player_with_isReady p b)). }
    split; [done|]. rewrite !seated_eq. simpl. rewrite E.
    by apply (active_insert_same _ _ player).
  - rewrite alter_absent by done. split; [by destruct s | done].
Qed.

Lemma ready_flag_is_inert_witness :
  reachable (after dealt) ∧
  getActivePlayerId
    (seated (exec (PokerGameManager.setPlayerReady "sa" true) (after dealt))
            0%nat) =
  getActivePlayerId (seated (after dealt) 0%nat).
Proof.
  split; [exact reachable_dealt|].
  pose proof (ready_flag_is_inert _ "sa" true 0%nat reachable_dealt) as H.
  cbv zeta in H. destruct H as (_ & _ & _ & _ & H). exact H.
Defined.
